(** * CV2 image filter and geometric transform engine

    A shallow embedding of [src/utils/perspective.ts] (the perspective
    utilities) and of the filter catalogue that follows it in the same
    file ([filters.ts]), with the properties of the specification that
    concern them.

    Conventions of the embedding.
    - A JavaScript [number] is an IEEE-754 binary64 value: Rocq's
      primitive [float].  [+ - * /], [Math.sqrt] and [Math.abs] are the
      primitive operations; [Math.floor], [Math.ceil], [Math.round],
      [Math.min], [Math.max] and the typed-array conversions are written
      out below from ECMA-262.  The transcendental functions and
      [Math.random] are implementation-defined in ECMA-262 and enter
      through the class [JSMath].
    - Loop counters, pixel coordinates and array indices are integers in
      the source; they are kept in [Z] (exact below 2^53, as the doubles
      of the source are) and converted with [Z2F] where they meet
      floating-point arithmetic.
    - A [Uint8ClampedArray] is a [list Z] of bytes.  A read outside the
      array is [undefined], which every use in the source turns into
      [NaN]; a write outside the array is ignored.
    - What the browser's 2D context rasterises ([drawImage], [strokeRect],
      CSS filters, paths) enters through the class [Canvas2D]. *)

From Stdlib Require Import ZArith List Bool Lia Floats String Ascii.
From Stdlib Require Uint63.
From stdpp Require Import base list.
Import ListNotations.

Set Warnings "-inexact-float".
#[local] Open Scope Z_scope.

(* ================================================================= *)
(** * Part I.  The embedding                                          *)
(* ================================================================= *)

(** ** JavaScript numbers *)

(** The value of a finite double as [m * 2^e]; [None] for NaN and the
    infinities. *)
Definition float_parts (x : float) : option (Z * Z) :=
  match Prim2SF x with
  | S754_zero _ => Some (0, 0)
  | S754_finite s m e => Some (if s then Z.neg m else Z.pos m, e)
  | S754_infinity _ | S754_nan => None
  end.

(** Integer to double, rounding to nearest even (exact below 2^53). *)
Definition Z2F (z : Z) : float :=
  if Z.abs z <? 2 ^ 53 then
    if z <? 0 then (- of_uint63 (Uint63.of_Z (- z)))%float
    else of_uint63 (Uint63.of_Z z)
  else SF2Prim (binary_normalize prec emax z 0 false).

Definition floorZ (m e : Z) : Z :=
  if 0 <=? e then m * 2 ^ e else Z.shiftr m (- e).

Definition truncZ (m e : Z) : Z :=
  if 0 <=? e then m * 2 ^ e else Z.quot m (2 ^ (- e)).

(** A zero of the sign of [x]. *)
Definition zero_like (x : float) : float :=
  if get_sign x then PrimFloat.neg_zero else PrimFloat.zero.

Definition Math_floor (x : float) : float :=
  match float_parts x with
  | None => x
  | Some (m, e) =>
      if 0 <=? e then x
      else let z := floorZ m e in
           if z =? 0 then zero_like x else Z2F z
  end.

Definition Math_ceil (x : float) : float := (- Math_floor (- x))%float.

(** [Math.round]: the integer nearest to [x], ties towards +infinity. *)
Definition Math_round (x : float) : float :=
  match float_parts x with
  | None => x
  | Some (m, e) =>
      if 0 <=? e then x
      else let z := Z.shiftr (m + 2 ^ (- e - 1)) (- e) in
           if z =? 0 then zero_like x else Z2F z
  end.

Definition Math_max (a b : float) : float :=
  if is_nan a || is_nan b then nan
  else if (a <? b)%float then b
  else if (b <? a)%float then a
  else if get_sign a then b else a.

Definition Math_min (a b : float) : float :=
  if is_nan a || is_nan b then nan
  else if (a <? b)%float then a
  else if (b <? a)%float then b
  else if get_sign a then a else b.

Definition Math_PI : float := 3.141592653589793%float.

(** ToUint8Clamp of ECMA-262: the store into a [Uint8ClampedArray]. *)
Definition ToUint8Clamp (x : float) : Z :=
  match float_parts x with
  | None => if (0 <? x)%float then 255 else 0
  | Some (m, e) =>
      if m <=? 0 then 0
      else if 0 <=? e then Z.min 255 (m * 2 ^ e)
      else
        let f := Z.shiftr m (- e) in
        if 255 <=? f then 255
        else
          match (2 * (m - f * 2 ^ (- e))) ?= 2 ^ (- e) with
          | Lt => f
          | Gt => f + 1
          | Eq => if Z.even f then f else f + 1
          end
  end.

(** ToUintN of ECMA-262 (stores into [Uint8Array], [Uint16Array],
    [Uint32Array]): truncate, then wrap modulo [2^bits]. *)
Definition ToUintN (bits : Z) (x : float) : Z :=
  match float_parts x with
  | None => 0
  | Some (m, e) => (truncZ m e) mod 2 ^ bits
  end.

(** ToInt32 of ECMA-262: the operand conversion of [x | 0] and [x >> n]. *)
Definition ToInt32 (x : float) : Z :=
  let u := ToUintN 32 x in
  if u <? 2 ^ 31 then u else u - 2 ^ 32.

(** [x || y] on numbers: [x] unless it is falsy (zero or NaN). *)
Definition num_or (x y : float) : float :=
  if is_nan x || is_zero x then y else x.

(** The integer a double holds, when it holds one ([None] otherwise):
    used where the source indexes an array with a computed number. *)
Definition float_index (x : float) : option Z :=
  match float_parts x with
  | None => None
  | Some (m, e) =>
      if 0 <=? e then Some (m * 2 ^ e)
      else if m mod 2 ^ (- e) =? 0 then Some (Z.shiftr m (- e)) else None
  end.

(** The transcendental functions and the random source, which ECMA-262
    leaves to the implementation.  [Math_random n] is the value returned
    by the [n]-th call of [Math.random()]. *)
Class JSMath := {
  Math_sin : float -> float;
  Math_cos : float -> float;
  Math_exp : float -> float;
  Math_log : float -> float;
  Math_pow : float -> float -> float;
  Math_random : nat -> float
}.

(** ** Loops *)

(** [iter_n n i step body s] runs [body] at [i], [i+step], ... ([n] times). *)
Fixpoint iter_n {S : Type} (n : nat) (i step : Z) (body : Z -> S -> S) (s : S) : S :=
  match n with
  | O => s
  | Datatypes.S n' => iter_n n' (i + step) step body (body i s)
  end.

(** [for (let i = lo; i < hi; i += step) body]. *)
Definition for_range {S : Type} (lo hi step : Z) (body : Z -> S -> S) (s : S) : S :=
  iter_n (Z.to_nat ((hi - lo + step - 1) / step)) lo step body s.

(** [for (let i = lo; i < hi; i++) body]. *)
Definition for_to {S : Type} (lo hi : Z) (body : Z -> S -> S) (s : S) : S :=
  for_range lo hi 1 body s.

(** ** Pixel buffers *)

(** An [HTMLCanvasElement] (or an [ImageData]): its size and its RGBA
    bytes, row-major, four per pixel. *)
Record Canvas := mkCanvas {
  width : Z;
  height : Z;
  data : list Z
}.

Definition len (d : list Z) : Z := Z.of_nat (length d).

(** [d[i]] of a byte array, as a number. *)
Definition rd (d : list Z) (i : Z) : float :=
  if i <? 0 then nan
  else match d !! Z.to_nat i with
       | Some b => Z2F b
       | None => nan
       end.

(** [d[i] = v] on a [Uint8ClampedArray]. *)
Definition wr (d : list Z) (i : Z) (v : float) : list Z :=
  if i <? 0 then d else <[Z.to_nat i := ToUint8Clamp v]> d.

(** [d[i]] as a byte, for statements ([None] out of range). *)
Definition byte_at (d : list Z) (i : Z) : option Z :=
  if i <? 0 then None else d !! Z.to_nat i.

(** [ctx.putImageData(d, 0, 0)].  A [Canvas] holds the RGBA bytes of the
    [ImageData] last put, as the filters compute them (spec section 3):
    [data] is the array handed to [putImageData].  A browser that keeps
    its backing store premultiplied may read other colour bytes back at
    a pixel whose alpha is below 255; statements about colour bytes are
    statements about the array the filter hands over. *)
Definition putImageData (c : Canvas) (d : list Z) : Canvas :=
  mkCanvas (width c) (height c) d.

(** A canvas as [getImageData] can return it. *)
Definition wf_canvas (c : Canvas) : Prop :=
  0 < width c /\ 0 < height c /\
  len (data c) = 4 * (width c * height c) /\
  Forall (fun b => 0 <= b <= 255) (data c).

(** [new Uint8ClampedArray(n)] and friends: [n] zeroes. *)
Definition zeros (n : Z) : list Z := replicate (Z.to_nat n) 0.

(** [x % y] on numbers (the remainder of the truncated division, exact,
    with the sign of [x]). *)
Definition num_rem (x y : float) : float :=
  match Prim2SF x, Prim2SF y with
  | S754_nan, _ | _, S754_nan => nan
  | S754_infinity _, _ => nan
  | _, S754_zero _ => nan
  | _, S754_infinity _ => x
  | S754_zero _, _ => x
  | S754_finite sx mx ex, S754_finite _ my ey =>
      let e := Z.min ex ey in
      let r := Z.rem (Z.pos mx * 2 ^ (ex - e)) (Z.pos my * 2 ^ (ey - e)) in
      if r =? 0 then zero_like x
      else SF2Prim (binary_normalize prec emax (if sx then - r else r) e false)
  end.

(** ** Colour-space helpers *)

Definition rgbToHsl (r g b : float) : float * float * float :=
  let r := (r / 255)%float in
  let g := (g / 255)%float in
  let b := (b / 255)%float in
  let max := Math_max (Math_max r g) b in
  let min := Math_min (Math_min r g) b in
  let l := ((max + min) / 2)%float in
  if negb (max =? min)%float then
    let d := (max - min)%float in
    let s := if (0.5 <? l)%float then (d / (2 - max - min))%float
             else (d / (max + min))%float in
    let h :=
      if (max =? r)%float then
        (((g - b) / d + (if (g <? b)%float then 6 else 0)) / 6)%float
      else if (max =? g)%float then (((b - r) / d + 2) / 6)%float
      else (((r - g) / d + 4) / 6)%float in
    ((h * 360)%float, s, l)
  else ((0 * 360)%float, 0%float, l).

Definition hue2rgb (p q t : float) : float :=
  let t := if (t <? 0)%float then (t + 1)%float else t in
  let t := if (1 <? t)%float then (t - 1)%float else t in
  if (t <? 1 / 6)%float then (p + (q - p) * 6 * t)%float
  else if (t <? 1 / 2)%float then q
  else if (t <? 2 / 3)%float then (p + (q - p) * (2 / 3 - t) * 6)%float
  else p.

Definition hslToRgb (h s l : float) : float * float * float :=
  let h := num_rem (num_rem h 360 + 360)%float 360 in
  let h := (h / 360)%float in
  if (s =? 0)%float then
    let v := Math_round (l * 255)%float in (v, v, v)
  else
    let q := if (l <? 0.5)%float then (l * (1 + s))%float
             else (l + s - l * s)%float in
    let p := (2 * l - q)%float in
    (Math_round (hue2rgb p q (h + 1 / 3) * 255)%float,
     Math_round (hue2rgb p q h * 255)%float,
     Math_round (hue2rgb p q (h - 1 / 3) * 255)%float).

(** [Math.max(0, Math.min(255, v))], the clamp the filters apply before a
    store. *)
Definition clamp255 (v : float) : float := Math_max 0 (Math_min 255 v).

(** ** Brightness / contrast *)

Definition contrastFactor (contrast : float) : float :=
  ((259 * (contrast + 255)) / (255 * (259 - contrast)))%float.

Definition applyBrightnessContrast (c : Canvas) (brightness contrast : float) : Canvas :=
  let b := brightness in
  let f := contrastFactor contrast in
  putImageData c
    (for_range 0 (len (data c)) 4 (fun i data =>
       let data := wr data i (clamp255 (f * (rd data i - 128) + 128 + b)%float) in
       let data := wr data (i + 1) (clamp255 (f * (rd data (i + 1) - 128) + 128 + b)%float) in
       wr data (i + 2) (clamp255 (f * (rd data (i + 2) - 128) + 128 + b)%float))
     (data c)).

(** ** Posterize, invert *)

Definition applyPosterize (c : Canvas) (levels : float) : Canvas :=
  let step := (255 / (levels - 1))%float in
  putImageData c
    (for_range 0 (len (data c)) 4 (fun i data =>
       let data := wr data i (Math_round (Math_round (rd data i / step) * step)%float) in
       let data := wr data (i + 1) (Math_round (Math_round (rd data (i + 1) / step) * step)%float) in
       wr data (i + 2) (Math_round (Math_round (rd data (i + 2) / step) * step)%float))
     (data c)).

Definition applyInvert (c : Canvas) : Canvas :=
  putImageData c
    (for_range 0 (len (data c)) 4 (fun i data =>
       let data := wr data i (255 - rd data i)%float in
       let data := wr data (i + 1) (255 - rd data (i + 1))%float in
       wr data (i + 2) (255 - rd data (i + 2))%float)
     (data c)).

(** ** Hue / saturation / colour temperature *)

Definition applyHueSatTemp (c : Canvas) (hueShift satShift tempShift : float) : Canvas :=
  let sF := (1 + satShift / 100)%float in
  putImageData c
    (for_range 0 (len (data c)) 4 (fun i data =>
       let r := rd data i in
       let g := rd data (i + 1) in
       let b := rd data (i + 2) in
       let '(r, b) :=
         if negb (tempShift =? 0)%float then
           (clamp255 (r + tempShift * 0.8)%float, clamp255 (b - tempShift * 0.8)%float)
         else (r, b) in
       let '(h, s, l) := rgbToHsl r g b in
       let newH := (h + hueShift)%float in
       let newS := Math_max 0 (Math_min 1 (s * sF)%float) in
       let '(nr, ng, nb) := hslToRgb newH newS l in
       let data := wr data i nr in
       let data := wr data (i + 1) ng in
       wr data (i + 2) nb)
     (data c)).

(** ** Levels *)

(** [lut[x]] where [x] is a computed number. *)
Definition rd_at (d : list Z) (x : float) : float :=
  match float_index x with
  | Some i => rd d i
  | None => nan
  end.

(** [d[i] = v] on a [Uint8Array]. *)
Definition wr_u8 (d : list Z) (i : Z) (v : float) : list Z :=
  if i <? 0 then d else <[Z.to_nat i := ToUintN 8 v]> d.

Section Levels.
Context `{JSMath}.

Definition levelsRange (black white : float) : float :=
  Math_max 1 (white - black)%float.

(** The value stored at [lut[i]] (before the conversion of the store). *)
Definition levelsEntry (black white gamma : float) (i : Z) : float :=
  let range := levelsRange black white in
  let v := ((Z2F i - black) / range)%float in
  let v := Math_max 0 (Math_min 1 v) in
  let v := Math_pow v (1 / gamma)%float in
  Math_round (v * 255)%float.

Definition levelsLUT (black white gamma : float) : list Z :=
  for_to 0 256 (fun i lut => wr_u8 lut i (levelsEntry black white gamma i))
    (zeros 256).

Definition applyLevels (c : Canvas) (black white gamma : float) (mono : bool) : Canvas :=
  let lut := levelsLUT black white gamma in
  putImageData c
    (for_range 0 (len (data c)) 4 (fun i data =>
       if mono then
         let gray := Math_round (rd data i * 0.299 + rd data (i + 1) * 0.587
                                 + rd data (i + 2) * 0.114)%float in
         let v := rd_at lut gray in
         let data := wr data i v in
         let data := wr data (i + 1) v in
         wr data (i + 2) v
       else
         let data := wr data i (rd_at lut (rd data i)) in
         let data := wr data (i + 1) (rd_at lut (rd data (i + 1))) in
         wr data (i + 2) (rd_at lut (rd data (i + 2))))
     (data c)).
End Levels.

(** ** Gradient fade *)

(** The gradient position [t] of pixel [(x, y)]. *)
Definition fadePosition (direction : float) (w h x y : Z) : float :=
  if (direction =? 0)%float then (Z2F x / Z2F w)%float
  else if (direction =? 1)%float then (1 - Z2F x / Z2F w)%float
  else if (direction =? 2)%float then (Z2F y / Z2F h)%float
  else if (direction =? 3)%float then (1 - Z2F y / Z2F h)%float
  else if (direction =? 4)%float then
    let dx := ((Z2F x / Z2F w - 0.5) * 2)%float in
    let dy := ((Z2F y / Z2F h - 0.5) * 2)%float in
    (sqrt (dx * dx + dy * dy) / 1.414)%float
  else 0%float.

Definition applyGradientFade (c : Canvas) (direction amount : float) : Canvas :=
  let w := width c in
  let h := height c in
  let strength := (amount / 100)%float in
  putImageData c
    (for_to 0 h (fun y data =>
       for_to 0 w (fun x data =>
         let i := (y * w + x) * 4 in
         let t := fadePosition direction w h x y in
         let fade := (1 - t * strength)%float in
         wr data (i + 3) (Math_round (rd data (i + 3) * Math_max 0 fade)%float))
       data)
     (data c)).

(** ** Layer saturation, global hue rotation *)

Definition applyLayerSaturation (c : Canvas) (saturation : float) : Canvas :=
  if (saturation =? 100)%float then c
  else
    let factor := (saturation / 100)%float in
    putImageData c
      (for_range 0 (len (data c)) 4 (fun i data =>
         let r := rd data i in
         let g := rd data (i + 1) in
         let b := rd data (i + 2) in
         let gray := (0.299 * r + 0.587 * g + 0.114 * b)%float in
         let data := wr data i (clamp255 (gray + (r - gray) * factor)%float) in
         let data := wr data (i + 1) (clamp255 (gray + (g - gray) * factor)%float) in
         wr data (i + 2) (clamp255 (gray + (b - gray) * factor)%float))
       (data c)).

Definition applyGlobalHueRotate (c : Canvas) (degrees : float) : Canvas :=
  if (degrees =? 0)%float then c
  else
    putImageData c
      (for_range 0 (len (data c)) 4 (fun i data =>
         let '(h, s, l) := rgbToHsl (rd data i) (rd data (i + 1)) (rd data (i + 2)) in
         let '(r, g, b) := hslToRgb (h + degrees)%float s l in
         let data := wr data i r in
         let data := wr data (i + 1) g in
         wr data (i + 2) b)
       (data c)).

(** ** Colour separation, channel shifts *)

Definition applyColorSeparation (c : Canvas) (levR levG levB mix : float) : Canvas :=
  if (mix <=? 0)%float then c
  else
    let stepR := (255 / (levR - 1))%float in
    let stepG := (255 / (levG - 1))%float in
    let stepB := (255 / (levB - 1))%float in
    let m := mix in
    let m1 := (1 - m)%float in
    putImageData c
      (for_range 0 (len (data c)) 4 (fun i data =>
         let sr := Math_round (Math_round (rd data i / stepR) * stepR)%float in
         let sg := Math_round (Math_round (rd data (i + 1) / stepG) * stepG)%float in
         let sb := Math_round (Math_round (rd data (i + 2) / stepB) * stepB)%float in
         let data := wr data i (Math_round (rd data i * m1 + sr * m)%float) in
         let data := wr data (i + 1) (Math_round (rd data (i + 1) * m1 + sg * m)%float) in
         wr data (i + 2) (Math_round (rd data (i + 2) * m1 + sb * m)%float))
       (data c)).

Definition applyChannelShifts (c : Canvas) (rg yb pc : float) : Canvas :=
  if (rg =? 0)%float && (yb =? 0)%float && (pc =? 0)%float then c
  else
    putImageData c
      (for_range 0 (len (data c)) 4 (fun i data =>
         let r := rd data i in
         let g := rd data (i + 1) in
         let b := rd data (i + 2) in
         let '(r, g) :=
           if negb (rg =? 0)%float then
             let shift := (rg * 1.27)%float in
             (clamp255 (r + shift)%float, clamp255 (g - shift)%float)
           else (r, g) in
         let '(r, g, b) :=
           if negb (yb =? 0)%float then
             let shift := (yb * 1.27)%float in
             (clamp255 (r + shift * 0.5)%float, clamp255 (g + shift * 0.5)%float,
              clamp255 (b - shift)%float)
           else (r, g, b) in
         let '(r, g, b) :=
           if negb (pc =? 0)%float then
             let shift := (pc * 1.27)%float in
             (clamp255 (r + shift * 0.5)%float, clamp255 (g - shift)%float,
              clamp255 (b + shift * 0.5)%float)
           else (r, g, b) in
         let data := wr data i r in
         let data := wr data (i + 1) g in
         wr data (i + 2) b)
       (data c)).

(** ** The 2D context of the browser *)

(** The integer a loop bound or an array size holds: the least integer
    not below [x] (0 for NaN and the infinities, which no caller passes). *)
Definition ceilZ (x : float) : Z :=
  match float_parts x with
  | None => 0
  | Some (m, e) => - floorZ (- m) e
  end.

(** The length [new Uint16Array(x)] gives an array: [x] truncated (0 for
    NaN). *)
Definition truncZ_of (x : float) : Z :=
  match float_parts x with
  | None => 0
  | Some (m, e) => truncZ m e
  end.

(** [Math.fround]: the store into a [Float32Array]. *)
Definition fround (x : float) : float :=
  match Prim2SF x with
  | S754_finite s m e =>
      let r := SF2Prim (binary_normalize 24 128 (Z.pos m) e false) in
      if s then (- r)%float else r
  | _ => x
  end.

(** What the canvas rasterises.  Every operation takes the canvas drawn
    on last and returns it redrawn; [globalAlpha] is passed with the call
    it governs. *)
Class Canvas2D := {
  (** [ctx.globalAlpha = a; ctx.drawImage(src, dx, dy)] *)
  drawImage : float -> Canvas -> float -> float -> Canvas -> Canvas;
  (** [ctx.globalAlpha = a; ctx.drawImage(src, dx, dy, dw, dh)] *)
  drawImageScaled : float -> Canvas -> float -> float -> float -> float -> Canvas -> Canvas;
  (** [ctx.strokeStyle = color; ctx.lineWidth = lw; ctx.strokeRect(x, y, w, h)] *)
  strokeRect : string -> float -> float -> float -> float -> float -> Canvas -> Canvas;
  (** A fresh canvas of the given size with [src] drawn over all of it:
      [c.width = w; c.height = h; ctx.drawImage(src, 0, 0, w, h)]. *)
  rasterize : Canvas -> Z -> Z -> Canvas
}.

(** [ctx.clearRect(0, 0, w, h)] over the whole canvas. *)
Definition clearRect (c : Canvas) : Canvas :=
  putImageData c (zeros (len (data c))).

(** ** Blur *)

Section Blur.
Context `{JSMath} `{Canvas2D}.

(** [kernel[k]] of a [Float32Array] held as a list. *)
Definition krd (kernel : list float) (k : Z) : float :=
  if k <? 0 then nan else default nan (kernel !! Z.to_nat k).

Definition gaussKernel (radius : float) : Z * list float :=
  let r := ceilZ (Math_ceil (radius * 2.5)%float) in
  let kernelSize := r * 2 + 1 in
  let sigma := radius in
  let '(kernel, sum) :=
    for_to 0 kernelSize (fun i '(kernel, sum) =>
      let x := Z2F (i - r) in
      let v := fround (Math_exp (- (x * x) / (2 * sigma * sigma))%float) in
      (kernel ++ [v], (sum + v)%float))
    ([], 0%float) in
  (r, map (fun v => fround (v / sum)%float) kernel).

Definition gaussBlur (c : Canvas) (radius : float) : Canvas :=
  let w := width c in
  let h := height c in
  let '(r, kernel) := gaussKernel radius in
  let kernelSize := r * 2 + 1 in
  let src := data c in
  let tmp := zeros (len src) in
  (* Horizontal pass *)
  let tmp :=
    for_to 0 h (fun y tmp =>
      for_to 0 w (fun x tmp =>
        let '(rr, gg, bb, aa) :=
          for_to 0 kernelSize (fun k '(rr, gg, bb, aa) =>
            let sx := Z.min (w - 1) (Z.max 0 (x + k - r)) in
            let si := (y * w + sx) * 4 in
            let kv := krd kernel k in
            ((rr + rd src si * kv)%float, (gg + rd src (si + 1) * kv)%float,
             (bb + rd src (si + 2) * kv)%float, (aa + rd src (si + 3) * kv)%float))
          (0%float, 0%float, 0%float, 0%float) in
        let di := (y * w + x) * 4 in
        let tmp := wr tmp di rr in
        let tmp := wr tmp (di + 1) gg in
        let tmp := wr tmp (di + 2) bb in
        wr tmp (di + 3) aa)
      tmp)
    tmp in
  (* Vertical pass *)
  let src :=
    for_to 0 h (fun y src =>
      for_to 0 w (fun x src =>
        let '(rr, gg, bb, aa) :=
          for_to 0 kernelSize (fun k '(rr, gg, bb, aa) =>
            let sy := Z.min (h - 1) (Z.max 0 (y + k - r)) in
            let si := (sy * w + x) * 4 in
            let kv := krd kernel k in
            ((rr + rd tmp si * kv)%float, (gg + rd tmp (si + 1) * kv)%float,
             (bb + rd tmp (si + 2) * kv)%float, (aa + rd tmp (si + 3) * kv)%float))
          (0%float, 0%float, 0%float, 0%float) in
        let di := (y * w + x) * 4 in
        let src := wr src di rr in
        let src := wr src (di + 1) gg in
        let src := wr src (di + 2) bb in
        wr src (di + 3) aa)
      src)
    src in
  putImageData c src.

(** The taps of the box blur, [for (let dx = -r; dx <= r; dx++)]: the
    counter is a double.  With [r] NaN or negative the test [-r <= r]
    fails at once and no tap is taken; otherwise [dx] runs over the
    integers from [-r] to [r], given as the bounds of a [for_to].  From
    [r = 2^53] on (and at infinity) [dx++] no longer changes the counter
    and the source loop does not end: the bounds describe the loop only
    below that. *)
Definition boxTaps (r : float) : Z * Z :=
  if is_nan r || (r <? 0)%float then (0, 0) else (- ceilZ r, ceilZ r + 1).

Definition boxBlur (c : Canvas) (radius : float) : Canvas :=
  let w := width c in
  let h := height c in
  let data := data c in
  let copy := data in
  let r := Math_round radius in
  let lo := fst (boxTaps r) in
  let hi := snd (boxTaps r) in
  (* Horizontal pass *)
  let data :=
    for_to 0 h (fun y data =>
      for_to 0 w (fun x data =>
        let '(sr, sg, sb, cnt) :=
          for_to lo hi (fun dx '(sr, sg, sb, cnt) =>
            let sx := Z.max 0 (Z.min (w - 1) (x + dx)) in
            let si := (y * w + sx) * 4 in
            ((sr + rd copy si)%float, (sg + rd copy (si + 1))%float,
             (sb + rd copy (si + 2))%float, (cnt + 1)%float))
          (0%float, 0%float, 0%float, 0%float) in
        let di := (y * w + x) * 4 in
        let data := wr data di (sr / cnt)%float in
        let data := wr data (di + 1) (sg / cnt)%float in
        wr data (di + 2) (sb / cnt)%float)
      data)
    data in
  (* Vertical pass *)
  let copy2 := data in
  let data :=
    for_to 0 h (fun y data =>
      for_to 0 w (fun x data =>
        let '(sr, sg, sb, cnt) :=
          for_to lo hi (fun dy '(sr, sg, sb, cnt) =>
            let sy := Z.max 0 (Z.min (h - 1) (y + dy)) in
            let si := (sy * w + x) * 4 in
            ((sr + rd copy2 si)%float, (sg + rd copy2 (si + 1))%float,
             (sb + rd copy2 (si + 2))%float, (cnt + 1)%float))
          (0%float, 0%float, 0%float, 0%float) in
        let di := (y * w + x) * 4 in
        let data := wr data di (sr / cnt)%float in
        let data := wr data (di + 1) (sg / cnt)%float in
        wr data (di + 2) (sb / cnt)%float)
      data)
    data in
  putImageData c data.

(** Motion blur: the number of accumulation steps, and the offset [t]
    of step [i]. *)
Definition motionSteps (radius : float) : float :=
  Math_min (Math_round (radius * 2)%float) 40.

Definition motionT (radius : float) (i : Z) : float :=
  let mSteps := motionSteps radius in
  let stepScale := ((radius * 2) / mSteps)%float in
  ((Z2F i / mSteps - 0.5) * radius * num_or (stepScale / radius)%float 1)%float.

(** The [drawImage] calls of the motion blur, in order: the
    [globalAlpha] in force and the offset of each. *)
Definition motionDraws (radius angle : float) : list (float * float * float) :=
  let rad := ((angle * Math_PI) / 180)%float in
  let mdx := Math_cos rad in
  let mdy := Math_sin rad in
  let mSteps := motionSteps radius in
  for_to 0 (ceilZ mSteps) (fun i draws =>
    let t := motionT radius i in
    draws ++ [((1 / mSteps)%float, (t * mdx)%float, (t * mdy)%float)])
  [].

Definition motionBlur (c : Canvas) (radius angle : float) : Canvas :=
  let orig3 := c in
  fold_left (fun c '(a, dx, dy) => drawImage a orig3 dx dy c)
    (motionDraws radius angle) (clearRect c).

Definition radialBlur (c : Canvas) (radius : float) : Canvas :=
  let w := Z2F (width c) in
  let h := Z2F (height c) in
  let rSteps := Math_min (Math_max 4 (Math_round (radius * 1.5)%float)) 30 in
  let orig4 := c in
  for_to 0 (ceilZ rSteps) (fun i c =>
    let sc := (1 + (Z2F i / rSteps - 0.5) * (radius / 100))%float in
    let rsw := (w * sc)%float in
    let rsh := (h * sc)%float in
    drawImageScaled (1 / rSteps)%float orig4 ((w - rsw) / 2)%float ((h - rsh) / 2)%float
      rsw rsh c)
  (clearRect c).

Definition applyNewBlur (c : Canvas) (type radius angle : float) : Canvas :=
  if (radius <=? 0)%float || (type =? 0)%float then c
  else if (type =? 1)%float then gaussBlur c radius
  else if (type =? 2)%float then boxBlur c radius
  else if (type =? 3)%float then motionBlur c radius angle
  else if (type =? 4)%float then radialBlur c radius
  else c.
End Blur.

(** ** Noise *)

Section Noise.
Context `{JSMath}.

(** [gaussRand()] (Box-Muller), drawing the next two random numbers. *)
Definition gaussRand (rng : nat) : float * nat :=
  let u1 := Math_random rng in
  let u2 := Math_random (Datatypes.S rng) in
  ((sqrt (-2 * Math_log (num_or u1 0.001)) * Math_cos (2 * Math_PI * u2))%float,
   Datatypes.S (Datatypes.S rng)).

(** [data[i..i+2] = clamp(data[i..i+2] + (nr, ng, nb))]. *)
Definition addNoise (data : list Z) (i : Z) (nr ng nb : float) : list Z :=
  let data := wr data i (clamp255 (rd data i + nr)%float) in
  let data := wr data (i + 1) (clamp255 (rd data (i + 1) + ng)%float) in
  wr data (i + 2) (clamp255 (rd data (i + 2) + nb)%float).

Definition applyNewNoise (c : Canvas) (type amount density : float) (rng : nat)
  : Canvas * nat :=
  if (amount <=? 0)%float || (type =? 0)%float then (c, rng)
  else
    let strength := (amount * 2.55)%float in
    let densityF := (density / 100)%float in
    let '(data, rng) :=
      if (type =? 1)%float then
        for_range 0 (len (data c)) 4 (fun i '(data, rng) =>
          if (densityF <? Math_random rng)%float then (data, Datatypes.S rng)
          else
            let '(g, rng) := gaussRand (Datatypes.S rng) in
            let n := (g * strength * 0.4)%float in
            (addNoise data i n n n, rng))
        (data c, rng)
      else if (type =? 2)%float then
        for_range 0 (len (data c)) 4 (fun i '(data, rng) =>
          if (densityF <? Math_random rng)%float then (data, Datatypes.S rng)
          else
            let lum := ((rd data i * 0.299 + rd data (i + 1) * 0.587
                         + rd data (i + 2) * 0.114) / 255)%float in
            let midtoneFactor := (1 - abs (lum - 0.5) * 2)%float in
            let grainStrength := (strength * 0.5 * (0.3 + midtoneFactor * 0.7))%float in
            let '(g, rng) := gaussRand (Datatypes.S rng) in
            let n := (g * grainStrength)%float in
            (addNoise data i n n n, rng))
        (data c, rng)
      else if (type =? 3)%float then
        for_range 0 (len (data c)) 4 (fun i '(data, rng) =>
          if (densityF <? Math_random rng)%float then (data, Datatypes.S rng)
          else
            let '(g1, rng) := gaussRand (Datatypes.S rng) in
            let nr := (g1 * strength * 0.5)%float in
            let '(g2, rng) := gaussRand rng in
            let ng := (g2 * strength * 0.5)%float in
            let '(g3, rng) := gaussRand rng in
            let nb := (g3 * strength * 0.5)%float in
            (addNoise data i nr ng nb, rng))
        (data c, rng)
      else if (type =? 4)%float then
        for_range 0 (len (data c)) 4 (fun i '(data, rng) =>
          if (densityF <? Math_random rng)%float then (data, Datatypes.S rng)
          else
            let n := ((Math_random (Datatypes.S rng) - 0.5) * strength)%float in
            (addNoise data i n n n, Datatypes.S (Datatypes.S rng)))
        (data c, rng)
      else (data c, rng) in
    (putImageData c data, rng).
End Noise.

(** ** Stroke *)

(** [parseInt(s, 16)]: leading white space, a sign, an optional [0x],
    then the longest run of hexadecimal digits; [NaN] when there is none. *)
Definition hexDigit (a : ascii) : option Z :=
  let n := Z.of_nat (nat_of_ascii a) in
  if (48 <=? n) && (n <=? 57) then Some (n - 48)
  else if (97 <=? n) && (n <=? 102) then Some (n - 87)
  else if (65 <=? n) && (n <=? 70) then Some (n - 55)
  else None.

Fixpoint hexRun (s : string) (acc : option Z) : option Z :=
  match s with
  | EmptyString => acc
  | String a s' =>
      match hexDigit a with
      | Some dg => hexRun s' (Some (default 0 acc * 16 + dg))
      | None => acc
      end
  end.

Fixpoint skipSpace (s : string) : string :=
  match s with
  | String a s' =>
      let n := nat_of_ascii a in
      if (Nat.eqb n 32 || (Nat.leb 9 n && Nat.leb n 13))%bool then skipSpace s' else s
  | EmptyString => s
  end.

Definition parseInt16 (s : string) : float :=
  let s := skipSpace s in
  let '(neg, s) :=
    match s with
    | String "-"%char s' => (true, s')
    | String "+"%char s' => (false, s')
    | _ => (false, s)
    end in
  let s :=
    match s with
    | String "0"%char (String "x"%char s') => s'
    | String "0"%char (String "X"%char s') => s'
    | _ => s
    end in
  match hexRun s None with
  | Some v => if neg then (- Z2F v)%float else Z2F v
  | None => nan
  end.

(** [s.slice(a, b)] for [0 <= a <= b]. *)
Definition slice (s : string) (a b : nat) : string := substring a (b - a) s.

(** [m[i]] of a [Uint8Array] mask, and its truth value. *)
Definition mask_at (m : list Z) (i : Z) : option Z :=
  if i <? 0 then None else m !! Z.to_nat i.

Definition truthy (o : option Z) : bool :=
  match o with
  | Some v => negb (v =? 0)
  | None => false
  end.

Definition mask_is (m : list Z) (i : Z) (v : Z) : bool :=
  match mask_at m i with
  | Some b => b =? v
  | None => false
  end.

Definition mask_set (m : list Z) (i : Z) (v : Z) : list Z :=
  if i <? 0 then m else <[Z.to_nat i := v]> m.

(** A coordinate as a [Uint16Array] holds it. *)
Definition u16 (z : Z) : Z := z mod 65536.

Section Stroke.
Context `{Canvas2D}.

(** The alpha mask ([1] where alpha > 128) and [hasTransparency]. *)
Definition alphaMask (c : Canvas) : list Z * bool :=
  let w := width c in
  let h := height c in
  let totalPx := w * h in
  for_to 0 totalPx (fun i '(alpha, hasTransparency) =>
    let a := if (128 <? rd (data c) (i * 4 + 3))%float then 1 else 0 in
    let alpha := mask_set alpha i a in
    if negb (truthy (mask_at alpha i)) && (0 <? Z.rem i w) && (Z.rem i w <? w - 1)
       && (0 <? i / w) && (i / w <? h - 1)
    then (alpha, true) else (alpha, hasTransparency))
  (zeros totalPx, false).

(** The edge maps: [(innerEdge, outerEdge)]. *)
Definition edgeMaps (w h : Z) (alpha : list Z) : list Z * list Z :=
  let totalPx := w * h in
  for_to 1 (h - 1) (fun y edges =>
    let row := y * w in
    for_to 1 (w - 1) (fun x '(innerEdge, outerEdge) =>
      let idx := row + x in
      if truthy (mask_at alpha idx) then
        if negb (truthy (mask_at alpha (idx - 1))) || negb (truthy (mask_at alpha (idx + 1)))
           || negb (truthy (mask_at alpha (idx - w))) || negb (truthy (mask_at alpha (idx + w)))
        then (mask_set innerEdge idx 1, outerEdge)
        else (innerEdge, outerEdge)
      else
        if truthy (mask_at alpha (idx - 1)) || truthy (mask_at alpha (idx + 1))
           || truthy (mask_at alpha (idx - w)) || truthy (mask_at alpha (idx + w))
        then (innerEdge, mask_set outerEdge idx 1)
        else (innerEdge, outerEdge))
    edges)
  (zeros totalPx, zeros totalPx).

(** One round of the dilation: every frontier pixel offers its four
    neighbours, in the order left, right, up, down. *)
Definition expandFrontier (w h : Z) (mask : list Z) (matchVal : Z)
    (result : list Z) (frontier : list (Z * Z)) : list Z * list (Z * Z) :=
  fold_left (fun '(result, newFrontier) '(fx, fy) =>
    fold_left (fun '(result, newFrontier) '(nx, ny) =>
      if (0 <=? nx) && (nx <? w) && (0 <=? ny) && (ny <? h) then
        let ni := ny * w + nx in
        if negb (truthy (mask_at result ni)) && mask_is mask ni matchVal then
          (mask_set result ni 1, newFrontier ++ [(u16 nx, u16 ny)])
        else (result, newFrontier)
      else (result, newFrontier))
    [(fx - 1, fy); (fx + 1, fy); (fx, fy - 1); (fx, fy + 1)]
    (result, newFrontier))
  frontier (result, []).

(** [for (step = 1; step < width; step++) { ...; if (fLen === 0) break; }] *)
Fixpoint dilateRounds (n : nat) (w h : Z) (mask : list Z) (matchVal : Z)
    (result : list Z) (frontier : list (Z * Z)) : list Z :=
  match n with
  | O => result
  | Datatypes.S n' =>
      let '(result, newFrontier) := expandFrontier w h mask matchVal result frontier in
      match newFrontier with
      | [] => result
      | _ => dilateRounds n' w h mask matchVal result newFrontier
      end
  end.

(** The number of rounds [step = 1, 2, ... < width] can make: with an
    infinite width the loop ends by its [break], within [totalPx] rounds. *)
Definition strokeRounds (width : float) (totalPx : Z) : nat :=
  if (width =? infinity)%float then Z.to_nat totalPx
  else Z.to_nat (ceilZ width - 1).

Definition dilate (w h : Z) (width : float) (edge mask : list Z) (matchVal : Z) : list Z :=
  let result := edge in
  let frontier :=
    for_to 0 h (fun y frontier =>
      for_to 0 w (fun x frontier =>
        if truthy (mask_at result (y * w + x)) then frontier ++ [(u16 x, u16 y)]
        else frontier)
      frontier)
    [] in
  dilateRounds (strokeRounds width (w * h)) w h mask matchVal result frontier.

Definition applyStroke (c : Canvas) (color : string) (swidth : float)
    (inner outer : bool) : Canvas :=
  let w := width c in
  let h := height c in
  let data := data c in
  let totalPx := w * h in
  let cr := parseInt16 (slice color 1 3) in
  let cg := parseInt16 (slice color 3 5) in
  let cb := parseInt16 (slice color 5 7) in
  let '(alpha, hasTransparency) := alphaMask c in
  if negb hasTransparency then
    let c := if outer then
               strokeRect color (swidth * 2)%float (- swidth)%float (- swidth)%float
                 (Z2F w + swidth * 2)%float (Z2F h + swidth * 2)%float c
             else c in
    if inner then
      strokeRect color (swidth * 2)%float swidth swidth
        (Z2F w - swidth * 2)%float (Z2F h - swidth * 2)%float c
    else c
  else
    let '(innerEdge, outerEdge) := edgeMaps w h alpha in
    let data :=
      if outer then
        let dilated := if (1 <? swidth)%float then dilate w h swidth outerEdge alpha 0
                       else outerEdge in
        for_to 0 totalPx (fun i data =>
          if truthy (mask_at dilated i) && negb (truthy (mask_at alpha i)) then
            let pi := i * 4 in
            let data := wr data pi cr in
            let data := wr data (pi + 1) cg in
            let data := wr data (pi + 2) cb in
            wr data (pi + 3) 255
          else data)
        data
      else data in
    let data :=
      if inner then
        let dilated := if (1 <? swidth)%float then dilate w h swidth innerEdge alpha 1
                       else innerEdge in
        for_to 0 totalPx (fun i data =>
          if truthy (mask_at dilated i) && truthy (mask_at alpha i) then
            let pi := i * 4 in
            let data := wr data pi cr in
            let data := wr data (pi + 1) cg in
            wr data (pi + 2) cb
          else data)
        data
      else data in
    putImageData c data.
End Stroke.

(** ** Facet *)

(** [d[x]] of a byte array at a computed (floating-point) index. *)
Definition rdF (d : list Z) (x : float) : float := rd_at d x.

Section Facet.
Context `{JSMath}.

Definition inBounds (w h px py : Z) : bool :=
  (0 <=? px) && (px <? w) && (0 <=? py) && (py <? h).

(** [fillBlock(pixels, x0, y0, x1, y1)] of [applyFacet]. *)
Definition fillBlock (w h : Z) (src : list Z) (pixels : list (Z * Z))
    (x0 y0 x1 y1 : Z) (out : list Z) : list Z :=
  let '(tr, tg, tb, cnt) :=
    fold_left (fun '(tr, tg, tb, cnt) '(px, py) =>
      if inBounds w h px py then
        let si := (py * w + px) * 4 in
        ((tr + rd src si)%float, (tg + rd src (si + 1))%float,
         (tb + rd src (si + 2))%float, (cnt + 1)%float)
      else (tr, tg, tb, cnt))
    pixels (0%float, 0%float, 0%float, 0%float) in
  if (cnt =? 0)%float then out
  else
    let ar := Math_round (tr / cnt)%float in
    let ag := Math_round (tg / cnt)%float in
    let ab := Math_round (tb / cnt)%float in
    let out :=
      fold_left (fun out '(px, py) =>
        if inBounds w h px py then
          let di := (py * w + px) * 4 in
          let out := wr out di ar in
          let out := wr out (di + 1) ag in
          wr out (di + 2) ab
        else out)
      pixels out in
    let out :=
      for_to x0 (Z.min (x1 + 1) w) (fun xx out =>
        if (0 <=? y0) && (y0 <? h) then
          let ei := (y0 * w + xx) * 4 in
          let out := wr out ei (Math_round (rd out ei * 0.85)%float) in
          let out := wr out (ei + 1) (Math_round (rd out (ei + 1) * 0.85)%float) in
          wr out (ei + 2) (Math_round (rd out (ei + 2) * 0.85)%float)
        else out)
      out in
    for_to y0 (Z.min (y1 + 1) h) (fun yy out =>
      if (0 <=? x0) && (x0 <? w) then
        let ei := (yy * w + x0) * 4 in
        let out := wr out ei (Math_round (rd out ei * 0.85)%float) in
        let out := wr out (ei + 1) (Math_round (rd out (ei + 1) * 0.85)%float) in
        wr out (ei + 2) (Math_round (rd out (ei + 2) * 0.85)%float)
      else out)
    out.

(** The pixels [(xx, yy)] with [y0 <= yy < yEnd], [x0 <= xx < xEnd] that
    satisfy [keep], in row-major order. *)
Definition blockPixels (x0 xEnd y0 yEnd : Z) (keep : Z -> Z -> bool) : list (Z * Z) :=
  for_to y0 yEnd (fun yy pixels =>
    for_to x0 xEnd (fun xx pixels =>
      if keep xx yy then pixels ++ [(xx, yy)] else pixels)
    pixels)
  [].

(** [Math.min(a, x)] for an integer [a], when it is an integer. *)
Definition minIndex (a : Z) (x : float) : option Z :=
  float_index (Math_min (Z2F a) x).

Definition facetRects (w h bs : Z) (src : list Z) (out : list Z) (rng : nat)
  : list Z * nat :=
  for_range 0 h bs (fun by_ st =>
    for_range 0 w bs (fun bx '(out, rng) =>
      let vw := Math_max 2 (Z2F bs + Math_round ((Math_random rng - 0.5)
                                                 * Z2F bs * 0.6))%float in
      let vh := Math_max 2 (Z2F bs + Math_round ((Math_random (Datatypes.S rng) - 0.5)
                                                 * Z2F bs * 0.6))%float in
      let rng := Datatypes.S (Datatypes.S rng) in
      match minIndex (w - 1) (Z2F bx + vw)%float, minIndex (h - 1) (Z2F by_ + vh)%float with
      | Some x1, Some y1 =>
          let pixels := blockPixels bx (x1 + 1) by_ (y1 + 1) (fun _ _ => true) in
          (fillBlock w h src pixels bx by_ x1 y1 out, rng)
      | _, _ => (out, rng)
      end)
    st)
  (out, rng).

Definition facetTriangles (w h bs : Z) (src : list Z) (out : list Z) : list Z :=
  for_range 0 h bs (fun by_ out =>
    for_range 0 w bs (fun bx out =>
      let x1 := Z.min (w - 1) (bx + bs) in
      let y1 := Z.min (h - 1) (by_ + bs) in
      let inA xx yy :=
        let fx := (Z2F (xx - bx) / Z2F (Z.max 1 (x1 - bx)))%float in
        let fy := (Z2F (yy - by_) / Z2F (Z.max 1 (y1 - by_)))%float in
        (fx + fy <=? 1)%float in
      let triA := blockPixels bx (x1 + 1) by_ (y1 + 1) inA in
      let triB := blockPixels bx (x1 + 1) by_ (y1 + 1) (fun xx yy => negb (inA xx yy)) in
      let out := fillBlock w h src triA bx by_ x1 y1 out in
      fillBlock w h src triB bx by_ x1 y1 out)
    out)
  out.

(** A Voronoi seed: its position and the colour found there. *)
Record Seed := mkSeed { seed_x : float; seed_y : float;
                        seed_r : float; seed_g : float; seed_b : float }.

Definition voronoiSeeds (w h numSeeds : Z) (src : list Z) (rng : nat) : list Seed * nat :=
  for_to 0 numSeeds (fun _ '(seeds, rng) =>
    let sx := Math_floor (Math_random rng * Z2F w)%float in
    let sy := Math_floor (Math_random (Datatypes.S rng) * Z2F h)%float in
    let si := ((sy * Z2F w + sx) * 4)%float in
    (seeds ++ [mkSeed sx sy (rdF src si) (rdF src (si + 1)%float) (rdF src (si + 2)%float)],
     Datatypes.S (Datatypes.S rng)))
  ([], rng).

(** The grid cell of a coordinate: [Math.min(gridN - 1, Math.floor(v / cellSz))]. *)
Definition gridCell (gridN : Z) (cellSz v : float) : option Z :=
  minIndex (gridN - 1) (Math_floor (v / cellSz)%float).

(** [grid[gy * gridW + gx].push(i)] for every seed.  [Math.random()] lies
    in [0, 1), so the cell exists; a cell outside the grid is skipped. *)
Definition voronoiGrid (gridW gridH : Z) (cellSz : float) (seeds : list Seed)
  : list (list Z) :=
  for_to 0 (Z.of_nat (length seeds)) (fun i grid =>
    match seeds !! Z.to_nat i with
    | Some s =>
        match gridCell gridW cellSz (seed_x s), gridCell gridH cellSz (seed_y s) with
        | Some gx, Some gy =>
            let gi := gy * gridW + gx in
            if 0 <=? gi then
              match grid !! Z.to_nat gi with
              | Some cell => <[Z.to_nat gi := cell ++ [i]]> grid
              | None => grid
              end
            else grid
        | _, _ => grid
        end
    | None => grid
    end)
  (replicate (Z.to_nat (gridW * gridH)) []).

Definition facetVoronoi (w h bs : Z) (src : list Z) (out : list Z) (rng : nat)
  : list Z * nat :=
  let numSeeds :=
    ceilZ (Math_max 20 (Math_round (Z2F (w * h) / Z2F (bs * bs * 2))%float)) in
  let '(seeds, rng) := voronoiSeeds w h numSeeds src rng in
  let cellSz := Math_max 1 (Math_floor (sqrt (Z2F (w * h) / Z2F numSeeds)%float)) in
  let gridW := ceilZ (Math_ceil (Z2F w / cellSz)%float) in
  let gridH := ceilZ (Math_ceil (Z2F h / cellSz)%float) in
  let grid := voronoiGrid gridW gridH cellSz seeds in
  let out :=
    for_to 0 h (fun y out =>
      let gy := default 0 (gridCell gridH cellSz (Z2F y)) in
      for_to 0 w (fun x out =>
        let gx := default 0 (gridCell gridW cellSz (Z2F x)) in
        let '(minDist, bestIdx) :=
          for_to (-2) 3 (fun dy best =>
            let ny := gy + dy in
            if (ny <? 0) || (gridH <=? ny) then best
            else
              for_to (-2) 3 (fun dx best =>
                let nx := gx + dx in
                if (nx <? 0) || (gridW <=? nx) then best
                else
                  let cell := default [] (grid !! Z.to_nat (ny * gridW + nx)) in
                  fold_left (fun '(minDist, bestIdx) ci =>
                    match seeds !! Z.to_nat ci with
                    | Some s =>
                        let ddx := (Z2F x - seed_x s)%float in
                        let ddy := (Z2F y - seed_y s)%float in
                        let dist := (ddx * ddx + ddy * ddy)%float in
                        if (dist <? minDist)%float then (dist, ci) else (minDist, bestIdx)
                    | None => (minDist, bestIdx)
                    end)
                  cell best)
              best)
          (infinity, 0) in
        let di := (y * w + x) * 4 in
        match seeds !! Z.to_nat bestIdx with
        | Some best =>
            let out := wr out di (seed_r best) in
            let out := wr out (di + 1) (seed_g best) in
            wr out (di + 2) (seed_b best)
        | None => out
        end)
      out)
    out in
  (out, rng).

Definition facetDiamonds (w h bs : Z) (src : list Z) (out : list Z) : list Z :=
  let halfBS := ceilZ (Math_max 2 (Math_round (Z2F bs / 2)%float)) in
  for_range 0 h bs (fun by_ out =>
    for_range 0 w bs (fun bx out =>
      let cx := bx + halfBS in
      let cy := by_ + halfBS in
      let inside xx yy := Z.abs (xx - cx) + Z.abs (yy - cy) <=? halfBS in
      let diamond := blockPixels bx (Z.min w (bx + bs)) by_ (Z.min h (by_ + bs)) inside in
      let out :=
        match diamond with
        | [] => out
        | _ => fillBlock w h src diamond bx by_
                 (Z.min (w - 1) (bx + bs)) (Z.min (h - 1) (by_ + bs)) out
        end in
      for_to by_ (Z.min h (by_ + bs)) (fun yy out =>
        for_to bx (Z.min w (bx + bs)) (fun xx out =>
          if negb (inside xx yy) then
            let si := (yy * w + xx) * 4 in
            let out := wr out si (Math_round (rd src si * 0.8)%float) in
            let out := wr out (si + 1) (Math_round (rd src (si + 1) * 0.8)%float) in
            wr out (si + 2) (Math_round (rd src (si + 2) * 0.8)%float)
          else out)
        out)
      out)
    out)
  out.

Definition applyFacet (c : Canvas) (mode size : float) (rng : nat) : Canvas * nat :=
  let w := width c in
  let h := height c in
  let src := data c in
  let out := data c in
  let bs := ceilZ (Math_max 3 (Math_round size)) in
  let '(out, rng) :=
    if (mode =? 1)%float then facetRects w h bs src out rng
    else if (mode =? 2)%float then (facetTriangles w h bs src out, rng)
    else if (mode =? 3)%float then facetVoronoi w h bs src out rng
    else if (mode =? 4)%float then (facetDiamonds w h bs src out, rng)
    else (out, rng) in
  (putImageData c out, rng).
End Facet.

(** ** Histogram-mode filters: oil paint and palette knife *)

(** [a[i] = v] on a [Uint16Array] or [Uint32Array]. *)
Definition wr_uN (bits : Z) (a : list Z) (i : Z) (v : float) : list Z :=
  if i <? 0 then a else <[Z.to_nat i := ToUintN bits v]> a.

(** [a[x] = v] at a computed index. *)
Definition wr_uN_at (bits : Z) (a : list Z) (x : float) (v : float) : list Z :=
  match float_index x with
  | Some i => wr_uN bits a i v
  | None => a
  end.

(** The four histograms of a neighbourhood: counts and colour sums. *)
Definition Bins : Type := list Z * list Z * list Z * list Z.

Definition emptyBins (n : Z) : Bins := (zeros n, zeros n, zeros n, zeros n).

(** [bins[bin]++; binsR[bin] += r; binsG[bin] += g; binsB[bin] += b]. *)
Definition addToBin (b : Bins) (bin r g bl : float) : Bins :=
  let '(bins, binsR, binsG, binsB) := b in
  (wr_uN_at 16 bins bin (rd_at bins bin + 1)%float,
   wr_uN_at 32 binsR bin (rd_at binsR bin + r)%float,
   wr_uN_at 32 binsG bin (rd_at binsG bin + g)%float,
   wr_uN_at 32 binsB bin (rd_at binsB bin + bl)%float).

(** The linear scan for the fullest bin: [(maxBin, maxCount)]. *)
Definition fullestBin (bins : list Z) (n : Z) : Z * float :=
  for_to 1 n (fun b '(maxBin, maxCount) =>
    if (maxCount <? rd bins b)%float then (b, rd bins b) else (maxBin, maxCount))
  (0, rd bins 0).

(** The output pixel: the mean colour of the winning bin, or the source
    pixel when the neighbourhood is empty; alpha is copied. *)
Definition writeMode (src out : list Z) (b : Bins) (n : Z) (di : Z) : list Z :=
  let '(bins, binsR, binsG, binsB) := b in
  let '(maxBin, maxCount) := fullestBin bins n in
  let out :=
    if (0 <? maxCount)%float then
      let out := wr out di (rd binsR maxBin / maxCount)%float in
      let out := wr out (di + 1) (rd binsG maxBin / maxCount)%float in
      wr out (di + 2) (rd binsB maxBin / maxCount)%float
    else
      let out := wr out di (rd src di) in
      let out := wr out (di + 1) (rd src (di + 1)) in
      wr out (di + 2) (rd src (di + 2)) in
  wr out (di + 3) (rd src (di + 3)).

(** Oil paint.  The four histograms are typed arrays of length [levels]
    ([new Uint16Array(levels)], [new Uint32Array(levels)]): the length is
    [levels] truncated, and the constructor throws a [RangeError] when
    that is negative or more than can be allocated.  The definition is
    the run of the function where the arrays are allocated. *)
Definition applyOilPaint (c : Canvas) (radius levels : float) : Canvas :=
  let w := width c in
  let h := height c in
  let src := data c in
  let out := zeros (len src) in
  let r := ceilZ (Math_min 5 (Math_max 1 (Math_round radius))) in
  let step := if 3 <? r then 2 else 1 in
  let totalPixels := w * h in
  let levScale := ((levels - 1) / 255)%float in
  let grayMap :=
    for_to 0 totalPixels (fun i grayMap =>
      let si := i * 4 in
      let g := Z.shiftr (ToInt32 (rd src si * 77 + rd src (si + 1) * 150
                                  + rd src (si + 2) * 29)%float) 8 in
      wr_u8 grayMap i (Z2F (ToInt32 (Z2F g * levScale)%float)))
    (zeros totalPixels) in
  let nBins := truncZ_of levels in
  let out :=
    for_to 0 h (fun y out =>
      let y0 := Z.max 0 (y - r) in
      let y1 := Z.min (h - 1) (y + r) in
      for_to 0 w (fun x out =>
        let x0 := Z.max 0 (x - r) in
        let x1 := Z.min (w - 1) (x + r) in
        let b :=
          for_range y0 (y1 + 1) step (fun sy b =>
            let rowOff := sy * w in
            for_range x0 (x1 + 1) step (fun sx b =>
              let idx := rowOff + sx in
              let bin := rd grayMap idx in
              let si := idx * 4 in
              addToBin b bin (rd src si) (rd src (si + 1)) (rd src (si + 2)))
            b)
          (emptyBins nBins) in
        writeMode src out b (ceilZ levels) ((y * w + x) * 4))
      out)
    out in
  putImageData c out.

Section PaletteKnife.
Context `{JSMath}.

Definition knifeSamples (strokeLen direction : float) : list (float * float) :=
  let rad := ((direction * Math_PI) / 180)%float in
  let ddx := Math_cos rad in
  let ddy := Math_sin rad in
  let len := ceilZ (Math_min 20 (Math_max 2 (Math_round strokeLen))) in
  let step := if 10 <? len then 2 else 1 in
  for_range (- len) (len + 1) step (fun t samples =>
    samples ++ [(Math_round (Z2F t * ddx)%float, Math_round (Z2F t * ddy)%float)])
  [].

Definition applyPaletteKnife (c : Canvas) (strokeLen direction : float) : Canvas :=
  let w := width c in
  let h := height c in
  let src := data c in
  let out := zeros (len src) in
  let numBins := 6 in
  let samples := knifeSamples strokeLen direction in
  let binScale := (Z2F numBins / 766)%float in
  let out :=
    for_to 0 h (fun y out =>
      for_to 0 w (fun x out =>
        let b :=
          fold_left (fun b '(ox, oy) =>
            let sx := Math_max 0 (Math_min (Z2F (w - 1)) (Z2F x + ox)%float) in
            let sy := Math_max 0 (Math_min (Z2F (h - 1)) (Z2F y + oy)%float) in
            let si := ((sy * Z2F w + sx) * 4)%float in
            let bin := Math_min (Z2F (numBins - 1))
                         (Z2F (ToInt32 ((rdF src si + rdF src (si + 1)%float
                                         + rdF src (si + 2)%float) * binScale)%float)) in
            addToBin b bin (rdF src si) (rdF src (si + 1)%float) (rdF src (si + 2)%float))
          samples (emptyBins numBins) in
        writeMode src out b numBins ((y * w + x) * 4))
      out)
    out in
  putImageData c out.
End PaletteKnife.

(** ** Metal *)

Definition applyMetal (c : Canvas) (intensity : float) : Canvas :=
  let w := width c in
  let h := height c in
  let src := data c in
  let out := data c in
  let out :=
    for_to 1 (h - 1) (fun y out =>
      for_to 1 (w - 1) (fun x out =>
        let pi := (y * w + x) * 4 in
        let tl := (y - 1) * w + (x - 1) in
        let br := (y + 1) * w + (x + 1) in
        for_to 0 3 (fun ch out =>
          let emboss := (rd src (pi + ch) * 2 - rd src (tl * 4 + ch) * 0.5
                         - rd src (br * 4 + ch) * 0.5)%float in
          let v := clamp255 emboss in
          wr out (pi + ch) v)
        out)
      out)
    out in
  let out :=
    for_range 0 (len out) 4 (fun i out =>
      let r := rd out i in
      let g := rd out (i + 1) in
      let b := rd out (i + 2) in
      let gray := (r * 0.299 + g * 0.587 + b * 0.114)%float in
      let desat := (0.3 + 0.7 * (1 - intensity * 0.5))%float in
      let mr := (gray * (1 - desat) + r * desat)%float in
      let mg := (gray * (1 - desat) + g * desat)%float in
      let mb := (gray * (1 - desat) + b * desat)%float in
      let mr := (mr * (1 - intensity * 0.15))%float in
      let mg := (mg * (1 - intensity * 0.05))%float in
      let mb := (mb * (1 + intensity * 0.12))%float in
      let contrast := (1 + intensity * 0.4)%float in
      let mr := ((mr - 128) * contrast + 128)%float in
      let mg := ((mg - 128) * contrast + 128)%float in
      let mb := ((mb - 128) * contrast + 128)%float in
      let '(mr, mg, mb) :=
        if (200 <? gray)%float then
          let spec := (((gray - 200) / 55) * intensity * 80)%float in
          ((mr + spec)%float, (mg + spec)%float, (mb + spec * 1.1)%float)
        else (mr, mg, mb) in
      let out := wr out i (clamp255 mr) in
      let out := wr out (i + 1) (clamp255 mg) in
      wr out (i + 2) (clamp255 mb))
    out in
  putImageData c out.

(** ** Texture / brush filters *)

Section Texture.
Context `{JSMath}.

(** Luminance of the pixel at [i]. *)
Definition lum601 (d : list Z) (i : Z) : float :=
  (rd d i * 0.299 + rd d (i + 1) * 0.587 + rd d (i + 2) * 0.114)%float.

Definition textureCanvas (w h : Z) (intensity : float) (src out : list Z) : list Z :=
  for_to 0 h (fun y out =>
    for_to 0 w (fun x out =>
      let i := (y * w + x) * 4 in
      let tx := (Math_sin (Z2F x * 0.8) * 0.5 + 0.5)%float in
      let ty := (Math_sin (Z2F y * 0.8) * 0.5 + 0.5)%float in
      let pattern := ((tx * ty) * 0.3 + 0.7)%float in
      let lum := ((rd src i + rd src (i + 1) + rd src (i + 2)) / 765)%float in
      let texFactor := (1 - (1 - pattern) * intensity * (0.3 + lum * 0.7))%float in
      let out := wr out i (clamp255 (rd src i * texFactor)%float) in
      let out := wr out (i + 1) (clamp255 (rd src (i + 1) * texFactor)%float) in
      let out := wr out (i + 2) (clamp255 (rd src (i + 2) * texFactor)%float) in
      wr out (i + 3) (rd src (i + 3)))
    out)
  out.

Definition textureWatercolor (w h : Z) (intensity : float) (src out : list Z) (rng : nat)
  : list Z * nat :=
  let disp := Math_round (3 * intensity)%float in
  let '(out, rng) :=
    for_to 0 h (fun y st =>
      for_to 0 w (fun x '(out, rng) =>
        let i := (y * w + x) * 4 in
        let ox := Math_max 0 (Math_min (Z2F (w - 1))
                    (Z2F x + Math_round ((Math_random rng - 0.5) * disp))%float) in
        let oy := Math_max 0 (Math_min (Z2F (h - 1))
                    (Z2F y + Math_round ((Math_random (Datatypes.S rng) - 0.5) * disp))%float) in
        let si := ((oy * Z2F w + ox) * 4)%float in
        let out := wr out i (rdF src si) in
        let out := wr out (i + 1) (rdF src (si + 1)%float) in
        let out := wr out (i + 2) (rdF src (si + 2)%float) in
        (wr out (i + 3) (rd src (i + 3)), Datatypes.S (Datatypes.S rng)))
      st)
    (out, rng) in
  let copy := out in
  for_to 1 (h - 1) (fun y st =>
    for_to 1 (w - 1) (fun x '(out, rng) =>
      let i := (y * w + x) * 4 in
      let grayL := lum601 copy ((y * w + x - 1) * 4) in
      let grayR := lum601 copy ((y * w + x + 1) * 4) in
      let grayU := lum601 copy (((y - 1) * w + x) * 4) in
      let grayD := lum601 copy (((y + 1) * w + x) * 4) in
      let edgeH := abs (grayR - grayL)%float in
      let edgeV := abs (grayD - grayU)%float in
      let edge := Math_min 1 ((edgeH + edgeV) / 200 * intensity)%float in
      let darken := (1 - edge * 0.5)%float in
      let out := wr out i (Math_max 0 (rd out i * darken)%float) in
      let out := wr out (i + 1) (Math_max 0 (rd out (i + 1) * darken)%float) in
      let out := wr out (i + 2) (Math_max 0 (rd out (i + 2) * darken)%float) in
      let variation := ((Math_random rng - 0.5) * 10 * intensity)%float in
      let out := wr out i (clamp255 (rd out i + variation)%float) in
      let out := wr out (i + 1) (clamp255 (rd out (i + 1) + variation)%float) in
      let out := wr out (i + 2) (clamp255 (rd out (i + 2) + variation)%float) in
      (out, Datatypes.S rng))
    st)
  (out, rng).

Definition textureCrayon (w h : Z) (intensity : float) (src out : list Z) (rng : nat)
  : list Z * nat :=
  for_to 0 h (fun y st =>
    for_to 0 w (fun x '(out, rng) =>
      let i := (y * w + x) * 4 in
      let hatch := (Math_sin (Z2F (x + y) * 0.4) * 0.5 + 0.5)%float in
      let gap := if (Math_random rng <? 0.15 * intensity)%float then 0.6%float else 1.0%float in
      let factor := ((0.7 + hatch * 0.3) * gap)%float in
      let colorVar := ((Math_random (Datatypes.S rng) - 0.5) * 15 * intensity)%float in
      let out := wr out i (clamp255 (rd src i * factor + colorVar)%float) in
      let out := wr out (i + 1) (clamp255 (rd src (i + 1) * factor + colorVar)%float) in
      let out := wr out (i + 2) (clamp255 (rd src (i + 2) * factor + colorVar)%float) in
      (wr out (i + 3) (rd src (i + 3)), Datatypes.S (Datatypes.S rng)))
    st)
  (out, rng).

(** [out[i..i+3] = src[i..i+3]]. *)
Definition copyPixel (src out : list Z) (i : Z) : list Z :=
  let out := wr out i (rd src i) in
  let out := wr out (i + 1) (rd src (i + 1)) in
  let out := wr out (i + 2) (rd src (i + 2)) in
  wr out (i + 3) (rd src (i + 3)).

Definition textureImpasto (w h : Z) (intensity : float) (src out : list Z) : list Z :=
  let out :=
    for_to 1 (h - 1) (fun y out =>
      for_to 1 (w - 1) (fun x out =>
        let i := (y * w + x) * 4 in
        let out :=
          for_to 0 3 (fun ch out =>
            let tl := rd src (((y - 1) * w + (x - 1)) * 4 + ch) in
            let br := rd src (((y + 1) * w + (x + 1)) * 4 + ch) in
            let emboss := (rd src (i + ch) + (rd src (i + ch) - tl) * 0.5 * intensity
                           - (br - rd src (i + ch)) * 0.3 * intensity)%float in
            wr out (i + ch) (clamp255 emboss))
          out in
        wr out (i + 3) (rd src (i + 3)))
      out)
    out in
  let out :=
    for_to 0 w (fun x out =>
      let t := x * 4 in
      let b2 := ((h - 1) * w + x) * 4 in
      copyPixel src (copyPixel src out t) b2)
    out in
  for_to 0 h (fun y out =>
    let l := (y * w) * 4 in
    let r := (y * w + w - 1) * 4 in
    copyPixel src (copyPixel src out l) r)
  out.

Definition textureCrosshatch (w h : Z) (intensity : float) (src out : list Z) : list Z :=
  for_to 0 h (fun y out =>
    for_to 0 w (fun x out =>
      let i := (y * w + x) * 4 in
      let gray := lum601 src i in
      let darkness := (1 - gray / 255)%float in
      let ink := 0 in
      let ink := if (0.2 * (2 - intensity) <? darkness)%float
                 then ink + (if Z.rem y 4 <? 1 then 1 else 0) else ink in
      let ink := if (0.4 * (2 - intensity) <? darkness)%float
                 then ink + (if Z.rem x 4 <? 1 then 1 else 0) else ink in
      let ink := if (0.6 * (2 - intensity) <? darkness)%float
                 then ink + (if Z.rem (x + y) 5 <? 1 then 1 else 0) else ink in
      let ink := if (0.8 * (2 - intensity) <? darkness)%float
                 then ink + (if Z.rem (x - y + 500) 5 <? 1 then 1 else 0) else ink in
      let v := if 0 <? ink then 0%float else 255%float in
      let out := wr out i v in
      let out := wr out (i + 1) v in
      let out := wr out (i + 2) v in
      wr out (i + 3) (rd src (i + 3)))
    out)
  out.

Definition textureStipple (w h : Z) (intensity : float) (src out : list Z) (rng : nat)
  : list Z * nat :=
  for_to 0 h (fun y st =>
    for_to 0 w (fun x '(out, rng) =>
      let i := (y * w + x) * 4 in
      let gray := lum601 src i in
      let darkness := (1 - gray / 255)%float in
      let dotProb := (darkness * intensity * 0.8)%float in
      let v := if (Math_random rng <? dotProb)%float then 0%float else 255%float in
      let out := wr out i v in
      let out := wr out (i + 1) v in
      let out := wr out (i + 2) v in
      (wr out (i + 3) (rd src (i + 3)), Datatypes.S rng))
    st)
  (out, rng).

Definition applyTextureFilter (c : Canvas) (mode intensity : float) (rng : nat)
  : Canvas * nat :=
  if (mode =? 0)%float then (c, rng)
  else
    let w := width c in
    let h := height c in
    let src := data c in
    let out := data c in
    let '(out, rng) :=
      if (mode =? 1)%float then (textureCanvas w h intensity src out, rng)
      else if (mode =? 2)%float then textureWatercolor w h intensity src out rng
      else if (mode =? 3)%float then textureCrayon w h intensity src out rng
      else if (mode =? 4)%float then (textureImpasto w h intensity src out, rng)
      else if (mode =? 5)%float then (textureCrosshatch w h intensity src out, rng)
      else if (mode =? 6)%float then textureStipple w h intensity src out rng
      else (out, rng) in
    (putImageData c out, rng).
End Texture.

(** ** Posterize styles *)

Definition applyPosterizeStyle (c : Canvas) (style colorShift : float) : Canvas :=
  putImageData c
    (for_range 0 (len (data c)) 4 (fun i data =>
       let r := rd data i in
       let g := rd data (i + 1) in
       let b := rd data (i + 2) in
       let '(r, g, b) :=
         if negb (colorShift =? 0)%float then
           let '(ph, ps, pl) := rgbToHsl r g b in
           hslToRgb (ph + colorShift)%float ps pl
         else (r, g, b) in
       if (style =? 1)%float then
         let r := (Math_round (r / 64) * 85)%float in
         let g := (Math_round (g / 64) * 85)%float in
         let b := (Math_round (b / 64) * 85)%float in
         let '(h, s, l) := rgbToHsl r g b in
         let '(nr, ng, nb) := hslToRgb h (Math_min 1 (s * 2.5)%float) l in
         wr (wr (wr data i nr) (i + 1) ng) (i + 2) nb
       else if (style =? 2)%float then
         let gray := (r * 0.299 + g * 0.587 + b * 0.114)%float in
         let lv := Math_floor (gray / 64)%float in
         let palettes := [(40, 30, 20); (120, 80, 40); (200, 160, 80); (240, 220, 180)]%float in
         match float_index (Math_min lv 3) with
         | Some k =>
             match (if k <? 0 then None else palettes !! Z.to_nat k) with
             | Some (p0, p1, p2) => wr (wr (wr data i p0) (i + 1) p1) (i + 2) p2
             | None => data
             end
         | None => data
         end
       else if (style =? 3)%float then
         let r := (Math_round (r / 85) * 85)%float in
         let g := (Math_round (g / 85) * 85)%float in
         let b := (Math_round (b / 85) * 85)%float in
         wr (wr (wr data i (Math_round (r * 0.5 + 128)%float))
               (i + 1) (Math_round (g * 0.5 + 128)%float))
            (i + 2) (Math_round (b * 0.5 + 128)%float)
       else if (style =? 4)%float then
         let gray := (r * 0.299 + g * 0.587 + b * 0.114)%float in
         let t := (gray / 255)%float in
         wr (wr (wr data i (Math_round (20 * (1 - t) + 255 * t)%float))
               (i + 1) (Math_round (10 * (1 - t) + 200 * t)%float))
            (i + 2) (Math_round (80 * (1 - t) + 50 * t)%float)
       else data)
     (data c)).

(** ** Warp mesh *)

Record Point := mkPoint { pt_x : float; pt_y : float }.

Record Mesh := mkMesh { rows : float; cols : float; points : list Point }.

(** [bilinear(x, y, p00, p10, p01, p11)] of [applyWarpMesh]. *)
Definition bilinear (x y : float) (p00 p10 p01 p11 : Point) : Point :=
  let tx := x in
  let ty := y in
  let x0 := (pt_x p00 * (1 - tx) + pt_x p10 * tx)%float in
  let x1 := (pt_x p01 * (1 - tx) + pt_x p11 * tx)%float in
  let y0 := (pt_y p00 * (1 - ty) + pt_y p10 * ty)%float in
  let y1 := (pt_y p01 * (1 - ty) + pt_y p11 * ty)%float in
  mkPoint (x0 * (1 - ty) + x1 * ty)%float (y0 * (1 - ty) + y1 * ty)%float.

(** [getPoint(r, c)]: the control point, or its place on the uniform grid
    when the mesh has none there. *)
Definition getPoint (mesh : Mesh) (cellW cellH : float) (r c : float) : Point :=
  let idx := (r * cols mesh + c)%float in
  match float_index idx with
  | Some i =>
      if i <? 0 then mkPoint (c * cellW)%float (r * cellH)%float
      else default (mkPoint (c * cellW)%float (r * cellH)%float) (points mesh !! Z.to_nat i)
  | None => mkPoint (c * cellW)%float (r * cellH)%float
  end.

(** The grid cell [(ri, ci)] of destination pixel [(dx, dy)] and the
    position [(fx, fy)] of the pixel within it. *)
Definition meshCell (mesh : Mesh) (w h dx dy : Z) : float * float * float * float :=
  let cellW := (Z2F w / (cols mesh - 1))%float in
  let cellH := (Z2F h / (rows mesh - 1))%float in
  let gx := (Z2F dx / cellW)%float in
  let gy := (Z2F dy / cellH)%float in
  let ci := Math_min (cols mesh - 2)%float (Math_floor gx) in
  let ri := Math_min (rows mesh - 2)%float (Math_floor gy) in
  (ri, ci, (gx - ci)%float, (gy - ri)%float).

(** The source coordinate sampled for destination pixel [(dx, dy)], after
    rounding. *)
Definition meshSample (mesh : Mesh) (w h dx dy : Z) : float * float :=
  let cellW := (Z2F w / (cols mesh - 1))%float in
  let cellH := (Z2F h / (rows mesh - 1))%float in
  let '(ri, ci, fx, fy) := meshCell mesh w h dx dy in
  let p00 := getPoint mesh cellW cellH ri ci in
  let p10 := getPoint mesh cellW cellH ri (ci + 1)%float in
  let p01 := getPoint mesh cellW cellH (ri + 1)%float ci in
  let p11 := getPoint mesh cellW cellH (ri + 1)%float (ci + 1)%float in
  let srcPos := bilinear fx fy p00 p10 p01 p11 in
  (Math_round (pt_x srcPos), Math_round (pt_y srcPos)).

Definition applyWarpMesh (c : Canvas) (mesh : Mesh) : Canvas :=
  let w := width c in
  let h := height c in
  let src := data c in
  let dst := zeros (len src) in
  let dst :=
    for_to 0 h (fun dy dst =>
      for_to 0 w (fun dx dst =>
        let '(sx, sy) := meshSample mesh w h dx dy in
        let di := (dy * w + dx) * 4 in
        if (0 <=? sx)%float && (sx <? Z2F w)%float && (0 <=? sy)%float && (sy <? Z2F h)%float
        then
          let si := ((sy * Z2F w + sx) * 4)%float in
          let dst := wr dst di (rdF src si) in
          let dst := wr dst (di + 1) (rdF src (si + 1)%float) in
          let dst := wr dst (di + 2) (rdF src (si + 2)%float) in
          wr dst (di + 3) (rdF src (si + 3)%float)
        else wr dst (di + 3) 0)
      dst)
    dst in
  mkCanvas w h dst.

(** ** Perspective transform *)

(** A matrix as an array of rows. *)
Abbreviation Matrix := (list (list float)).

(** [M[r][c]] *)
Definition mget (M : Matrix) (r c : Z) : float :=
  if (r <? 0) || (c <? 0) then nan
  else default nan (default [] (M !! Z.to_nat r) !! Z.to_nat c).

(** [M[r][c] = v] *)
Definition mset (M : Matrix) (r c : Z) (v : float) : Matrix :=
  if (r <? 0) || (c <? 0) then M
  else match M !! Z.to_nat r with
       | Some row => <[Z.to_nat r := <[Z.to_nat c := v]> row]> M
       | None => M
       end.

(** [[M[a], M[b]] = [M[b], M[a]]] *)
Definition swapRows (M : Matrix) (a b : Z) : Matrix :=
  match M !! Z.to_nat a, M !! Z.to_nat b with
  | Some ra, Some rb => <[Z.to_nat b := ra]> (<[Z.to_nat a := rb]> M)
  | _, _ => M
  end.

(** The pivot search of column [col]: [(maxVal, maxRow)]. *)
Definition findPivot (M : Matrix) (n col : Z) : float * Z :=
  for_to (col + 1) n (fun row '(maxVal, maxRow) =>
    if (maxVal <? abs (mget M row col))%float then (abs (mget M row col), row)
    else (maxVal, maxRow))
  (abs (mget M col col), col).

(** The elimination below the pivot of column [col]. *)
Definition eliminateBelow (M : Matrix) (n col : Z) : Matrix :=
  for_to (col + 1) n (fun row M =>
    let factor := (mget M row col / mget M col col)%float in
    for_to col (n + 1) (fun j M =>
      mset M row j (mget M row j - factor * mget M col j)%float)
    M)
  M.

(** The pivot threshold below which the system is declared singular. *)
Definition singularThreshold : float := 1e-10%float.

(** The column loop from [col] on, for [fuel] columns: [None] when a pivot
    is below the threshold ([return null]). *)
Fixpoint eliminate (fuel : nat) (M : Matrix) (n col : Z) : option Matrix :=
  match fuel with
  | O => Some M
  | Datatypes.S fuel' =>
      let '(maxVal, maxRow) := findPivot M n col in
      if (maxVal <? singularThreshold)%float then None
      else
        let M := swapRows M col maxRow in
        let M := eliminateBelow M n col in
        eliminate fuel' M n (col + 1)
  end.

Definition backSubstitute (M : Matrix) (n : Z) : list float :=
  iter_n (Z.to_nat n) (n - 1) (-1) (fun row x =>
    let v := mget M row n in
    let v := for_to (row + 1) n (fun col v =>
               (v - mget M row col * default nan (x !! Z.to_nat col))%float) v in
    <[Z.to_nat row := (v / mget M row row)%float]> x)
  (replicate (Z.to_nat n) 0%float).

(** The augmented matrix [A.map((row, i) => [...row, B[i]])]. *)
Definition augment (A : Matrix) (B : list float) : Matrix :=
  imap (fun i row => row ++ [default nan (B !! i)]) A.

Definition solveLinearSystem (A : Matrix) (B : list float) : option (list float) :=
  let n := Z.of_nat (length B) in
  let M := augment A B in
  match eliminate (Z.to_nat n) M n 0 with
  | None => None
  | Some M => Some (backSubstitute M n)
  end.

Definition identity3x3 : list float := [1; 0; 0; 0; 1; 0; 0; 0; 1]%float.

(** The rows and right-hand sides of the four point pairs; [None] when a
    point is missing (the source would throw a [TypeError]). *)
Definition perspectiveSystem (src dst : list Point) : option (Matrix * list float) :=
  foldr (fun i acc =>
    match src !! i, dst !! i, acc with
    | Some s, Some d, Some (A, B) =>
        let sx := pt_x s in
        let sy := pt_y s in
        let dx := pt_x d in
        let dy := pt_y d in
        Some ([sx; sy; 1; 0; 0; 0; - sx * dx; - sy * dx]%float
              :: [0; 0; 0; sx; sy; 1; - sx * dy; - sy * dy]%float :: A,
              dx :: dy :: B)
    | _, _, _ => None
    end)
  (Some ([], [])) [0; 1; 2; 3]%nat.

(** [computePerspectiveTransform]; [None] stands for an exception. *)
Definition computePerspectiveTransform (src dst : list Point) : option (list float) :=
  match perspectiveSystem src dst with
  | None => None
  | Some (A, B) =>
      match solveLinearSystem A B with
      | None => Some identity3x3
      | Some result => Some (result ++ [1%float])
      end
  end.

(** [invert3x3]; [None] is [null].  Entries a caller leaves out read as
    [undefined], NaN in the arithmetic. *)
Definition invert3x3 (m : list float) : option (list float) :=
  let at_ k := default nan (m !! k) in
  let a := at_ 0%nat in
  let b := at_ 1%nat in
  let c := at_ 2%nat in
  let d := at_ 3%nat in
  let e := at_ 4%nat in
  let f := at_ 5%nat in
  let g := at_ 6%nat in
  let h := at_ 7%nat in
  let i := at_ 8%nat in
  let det := (a * (e * i - f * h) - b * (d * i - f * g) + c * (d * h - e * g))%float in
  if (abs det <? 1e-10)%float then None
  else
    let invDet := (1 / det)%float in
    Some [ (e * i - f * h) * invDet; (c * h - b * i) * invDet; (b * f - c * e) * invDet;
           (f * g - d * i) * invDet; (a * i - c * g) * invDet; (c * d - a * f) * invDet;
           (d * h - e * g) * invDet; (b * g - a * h) * invDet; (a * e - b * d) * invDet
         ]%float.

Definition transformPoint (m : list float) (x y : float) : Point :=
  let at_ k := default nan (m !! k) in
  let w := (at_ 6%nat * x + at_ 7%nat * y + at_ 8%nat)%float in
  mkPoint ((at_ 0%nat * x + at_ 1%nat * y + at_ 2%nat) / w)%float
          ((at_ 3%nat * x + at_ 4%nat * y + at_ 5%nat) / w)%float.

Definition applyPerspectiveTransform (srcCanvas dstCanvas : Canvas)
    (srcCorners dstCorners : list Point) : option Canvas :=
  let sw := width srcCanvas in
  let sh := height srcCanvas in
  let dw := width dstCanvas in
  let dh := height dstCanvas in
  let srcPixels := data srcCanvas in
  let dstPixels := zeros (4 * (dw * dh)) in
  match computePerspectiveTransform dstCorners srcCorners with
  | None => None
  | Some matrix =>
      Some (putImageData dstCanvas
        (for_to 0 dh (fun y dstPixels =>
           for_to 0 dw (fun x dstPixels =>
             let srcPt := transformPoint matrix (Z2F x) (Z2F y) in
             let sx := pt_x srcPt in
             let sy := pt_y srcPt in
             if (0 <=? sx)%float && (sx <? Z2F (sw - 1))%float
                && (0 <=? sy)%float && (sy <? Z2F (sh - 1))%float then
               let x0 := Math_floor sx in
               let y0 := Math_floor sy in
               let x1 := (x0 + 1)%float in
               let y1 := (y0 + 1)%float in
               let fx := (sx - x0)%float in
               let fy := (sy - y0)%float in
               let idx00 := ((y0 * Z2F sw + x0) * 4)%float in
               let idx10 := ((y0 * Z2F sw + x1) * 4)%float in
               let idx01 := ((y1 * Z2F sw + x0) * 4)%float in
               let idx11 := ((y1 * Z2F sw + x1) * 4)%float in
               let dstIdx := (y * dw + x) * 4 in
               for_to 0 4 (fun c dstPixels =>
                 wr dstPixels (dstIdx + c)
                   (rdF srcPixels (idx00 + Z2F c) * (1 - fx) * (1 - fy)
                    + rdF srcPixels (idx10 + Z2F c) * fx * (1 - fy)
                    + rdF srcPixels (idx01 + Z2F c) * (1 - fx) * fy
                    + rdF srcPixels (idx11 + Z2F c) * fx * fy)%float)
               dstPixels
             else dstPixels)
           dstPixels)
         dstPixels))
  end.

(** ** The filter pipeline *)

Record LayerFilters := mkLayerFilters {
  lineArt : bool;
  lineArtBlend : float;
  lineArtThreshold : float;
  lineArtColorBlend : float;
  findEdges : bool;
  findEdgesBlend : float;
  findEdgesStrength : float;
  blurType : float;
  blurRadius : float;
  blurAngle : float;
  noiseType : float;
  noiseAmount : float;
  noiseDensity : float;
  posterize : float;
  brightness : float;
  contrast : float;
  invert : bool;
  levels : bool;
  levelsBlack : float;
  levelsWhite : float;
  levelsGamma : float;
  levelsMono : bool;
  halftone : bool;
  halftoneSize : float;
  halftoneAngle : float;
  halftoneColorMode : float;
  halftoneColorBlend : float;
  halftoneBlendMode : float;
  hueShift : float;
  saturation : float;
  colorTempShift : float;
  posterizeStyle : float;
  posterizeColorShift : float;
  frostedGlass : bool;
  frostedGlassAmount : float;
  strokeEnabled : bool;
  strokeColor : string;
  strokeWidth : float;
  strokeInner : bool;
  strokeOuter : bool;
  gameFilter : float;
  gameFilterIntensity : float;
  facetFilter : float;
  facetSize : float;
  oilPaint : bool;
  oilPaintRadius : float;
  oilPaintLevels : float;
  metalFilter : bool;
  metalIntensity : float;
  paletteKnife : bool;
  paletteKnifeLength : float;
  paletteKnifeDirection : float;
  colorSepEnabled : bool;
  colorSepR : float;
  colorSepG : float;
  colorSepB : float;
  colorSepMix : float;
  textureFilter : float;
  textureIntensity : float;
  gradientFade : bool;
  gradientFadeDirection : float;
  gradientFadeAmount : float;
  channelShiftRG : float;
  channelShiftYB : float;
  channelShiftPC : float
}.

(** [defaultFilters] of [types.ts]. *)
Definition defaultFilters : LayerFilters := {|
  lineArt := false;
  lineArtBlend := 0.5;
  lineArtThreshold := 50;
  lineArtColorBlend := 0;
  findEdges := false;
  findEdgesBlend := 0.5;
  findEdgesStrength := 1;
  blurType := 0;
  blurRadius := 0;
  blurAngle := 0;
  noiseType := 0;
  noiseAmount := 0;
  noiseDensity := 100;
  posterize := 0;
  brightness := 0;
  contrast := 0;
  invert := false;
  levels := false;
  levelsBlack := 0;
  levelsWhite := 255;
  levelsGamma := 1.0;
  levelsMono := false;
  halftone := false;
  halftoneSize := 6;
  halftoneAngle := 45;
  halftoneColorMode := 0;
  halftoneColorBlend := 0;
  halftoneBlendMode := 0;
  hueShift := 0;
  saturation := 0;
  colorTempShift := 0;
  posterizeStyle := 0;
  posterizeColorShift := 0;
  frostedGlass := false;
  frostedGlassAmount := 8;
  strokeEnabled := false;
  strokeColor := "#000000";
  strokeWidth := 3;
  strokeInner := false;
  strokeOuter := true;
  gameFilter := 0;
  gameFilterIntensity := 1.0;
  facetFilter := 0;
  facetSize := 15;
  oilPaint := false;
  oilPaintRadius := 4;
  oilPaintLevels := 20;
  metalFilter := false;
  metalIntensity := 1.0;
  paletteKnife := false;
  paletteKnifeLength := 20;
  paletteKnifeDirection := 45;
  colorSepEnabled := false;
  colorSepR := 8;
  colorSepG := 8;
  colorSepB := 8;
  colorSepMix := 1.0;
  textureFilter := 0;
  textureIntensity := 1.0;
  gradientFade := false;
  gradientFadeDirection := 0;
  gradientFadeAmount := 50;
  channelShiftRG := 0;
  channelShiftYB := 0;
  channelShiftPC := 0
|}.

(** The filters of the catalogue whose output is painted by the browser
    (CSS blur, arcs, gradients, scaled and blended [drawImage]); the
    pipeline calls them, no property below looks into them. *)
Class RasterFilters := {
  applyFrostedGlass : Canvas -> float -> nat -> Canvas * nat;
  applyLineArt : Canvas -> float -> float -> float -> Canvas;
  applyFindEdges : Canvas -> float -> float -> Canvas;
  applyHalftone : Canvas -> float -> float -> float -> float -> float -> Canvas;
  applyGameFilter : Canvas -> float -> float -> Canvas
}.

(** A number in a condition: [false] for [undefined], zero and NaN. *)
Definition truthy_num (x : option float) : bool :=
  match x with
  | Some v => negb (is_nan v || is_zero v)
  | None => false
  end.

Section Pipeline.
Context `{JSMath} `{Canvas2D} `{RasterFilters}.

(** The size of the working canvas: the source size, scaled down to fit
    [maxSize] when one is given and exceeded. *)
Definition fitSize (w h : Z) (maxSize : option float) : Z * Z :=
  match maxSize with
  | Some m =>
      if truthy_num maxSize && ((m <? Z2F w)%float || (m <? Z2F h)%float) then
        let r := Math_min (m / Z2F w)%float (m / Z2F h)%float in
        (truncZ_of (Math_round (Z2F w * r)%float), truncZ_of (Math_round (Z2F h * r)%float))
      else (w, h)
  | None => (w, h)
  end.

(** [imgToCanvas]: an image is held as the canvas of its natural size. *)
Definition imgToCanvas (img : Canvas) (maxSize : option float) : Canvas :=
  let '(w, h) := fitSize (width img) (height img) maxSize in
  rasterize img w h.

(** A step of the pipeline: [if (cond) filter(c)]. *)
Definition when_ (cond : bool) (f : Canvas * nat -> Canvas * nat) (st : Canvas * nat)
  : Canvas * nat :=
  if cond then f st else st.

(** A filter that draws no random number. *)
Definition pure_ (f : Canvas -> Canvas) (st : Canvas * nat) : Canvas * nat :=
  (f (fst st), snd st).

(** A filter that draws random numbers. *)
Definition rand_ (f : Canvas -> nat -> Canvas * nat) (st : Canvas * nat) : Canvas * nat :=
  f (fst st) (snd st).

(** [applyFilters]: the state carries the canvas and the number of
    random numbers drawn so far. *)
Definition applyFilters (img : Canvas) (filters : LayerFilters) (maxSize : option float)
    (rng : nat) : Canvas * nat :=
  let c := imgToCanvas img maxSize in
  let st := (c, rng) in
  (* Brightness/Contrast *)
  let st := when_ (negb (brightness filters =? 0)%float || negb (contrast filters =? 0)%float)
              (pure_ (fun c => applyBrightnessContrast c (brightness filters) (contrast filters))) st in
  let st := when_ (negb (hueShift filters =? 0)%float || negb (saturation filters =? 0)%float
                   || negb (colorTempShift filters =? 0)%float)
              (pure_ (fun c => applyHueSatTemp c (hueShift filters) (saturation filters)
                                 (colorTempShift filters))) st in
  let st := when_ ((0 <? blurType filters)%float && (0 <? blurRadius filters)%float)
              (pure_ (fun c => applyNewBlur c (blurType filters) (blurRadius filters)
                                 (blurAngle filters))) st in
  let st := when_ (frostedGlass filters && (0 <? frostedGlassAmount filters)%float)
              (rand_ (fun c => applyFrostedGlass c (frostedGlassAmount filters))) st in
  let st := when_ ((0 <? noiseType filters)%float && (0 <? noiseAmount filters)%float)
              (rand_ (fun c => applyNewNoise c (noiseType filters) (noiseAmount filters)
                                 (noiseDensity filters))) st in
  let st := when_ (0 <? posterize filters)%float
              (pure_ (fun c => applyPosterize c (posterize filters))) st in
  let st := when_ (0 <? posterizeStyle filters)%float
              (pure_ (fun c => applyPosterizeStyle c (posterizeStyle filters)
                                 (posterizeColorShift filters))) st in
  let st := when_ (lineArt filters)
              (pure_ (fun c => applyLineArt c (lineArtThreshold filters) (lineArtBlend filters)
                                 (lineArtColorBlend filters))) st in
  let st := when_ (findEdges filters)
              (pure_ (fun c => applyFindEdges c (findEdgesStrength filters)
                                 (findEdgesBlend filters))) st in
  let st := when_ (invert filters) (pure_ applyInvert) st in
  let st := when_ (levels filters)
              (pure_ (fun c => applyLevels c (levelsBlack filters) (levelsWhite filters)
                                 (levelsGamma filters) (levelsMono filters))) st in
  let st := when_ (halftone filters)
              (pure_ (fun c => applyHalftone c (halftoneSize filters) (halftoneAngle filters)
                                 (halftoneColorMode filters) (halftoneColorBlend filters)
                                 (halftoneBlendMode filters))) st in
  let st := when_ (strokeEnabled filters)
              (pure_ (fun c => applyStroke c (strokeColor filters) (strokeWidth filters)
                                 (strokeInner filters) (strokeOuter filters))) st in
  let st := when_ (0 <? facetFilter filters)%float
              (rand_ (fun c => applyFacet c (facetFilter filters) (facetSize filters))) st in
  let st := when_ (oilPaint filters)
              (pure_ (fun c => applyOilPaint c (oilPaintRadius filters)
                                 (oilPaintLevels filters))) st in
  let st := when_ (metalFilter filters)
              (pure_ (fun c => applyMetal c (metalIntensity filters))) st in
  let st := when_ (paletteKnife filters)
              (pure_ (fun c => applyPaletteKnife c (paletteKnifeLength filters)
                                 (paletteKnifeDirection filters))) st in
  let st := when_ (0 <? textureFilter filters)%float
              (rand_ (fun c => applyTextureFilter c (textureFilter filters)
                                 (textureIntensity filters))) st in
  let st := when_ (colorSepEnabled filters && (0 <? colorSepMix filters)%float)
              (pure_ (fun c => applyColorSeparation c (colorSepR filters) (colorSepG filters)
                                 (colorSepB filters) (colorSepMix filters))) st in
  let st := when_ (0 <? gameFilter filters)%float
              (pure_ (fun c => applyGameFilter c (gameFilter filters)
                                 (gameFilterIntensity filters))) st in
  let st := when_ (negb (channelShiftRG filters =? 0)%float
                   || negb (channelShiftYB filters =? 0)%float
                   || negb (channelShiftPC filters =? 0)%float)
              (pure_ (fun c => applyChannelShifts c (channelShiftRG filters)
                                 (channelShiftYB filters) (channelShiftPC filters))) st in
  when_ (gradientFade filters && (0 <? gradientFadeAmount filters)%float)
    (pure_ (fun c => applyGradientFade c (gradientFadeDirection filters)
                       (gradientFadeAmount filters))) st.

(** [processFiltersFromCanvas], whose source repeats the pipeline line
    by line and ends with the two per-layer adjustments. *)
Definition processFiltersFromCanvas (srcCanvas : Canvas) (filters : LayerFilters)
    (maxSize : option float) (globalHueRotate layerSaturation : option float)
    (rng : nat) : Canvas * nat :=
  let '(w, h) := fitSize (width srcCanvas) (height srcCanvas) maxSize in
  let c := rasterize srcCanvas w h in
  let st := (c, rng) in
  (* Same pipeline as applyFilters *)
  let st := when_ (negb (brightness filters =? 0)%float || negb (contrast filters =? 0)%float)
              (pure_ (fun c => applyBrightnessContrast c (brightness filters) (contrast filters))) st in
  let st := when_ (negb (hueShift filters =? 0)%float || negb (saturation filters =? 0)%float
                   || negb (colorTempShift filters =? 0)%float)
              (pure_ (fun c => applyHueSatTemp c (hueShift filters) (saturation filters)
                                 (colorTempShift filters))) st in
  let st := when_ ((0 <? blurType filters)%float && (0 <? blurRadius filters)%float)
              (pure_ (fun c => applyNewBlur c (blurType filters) (blurRadius filters)
                                 (blurAngle filters))) st in
  let st := when_ (frostedGlass filters && (0 <? frostedGlassAmount filters)%float)
              (rand_ (fun c => applyFrostedGlass c (frostedGlassAmount filters))) st in
  let st := when_ ((0 <? noiseType filters)%float && (0 <? noiseAmount filters)%float)
              (rand_ (fun c => applyNewNoise c (noiseType filters) (noiseAmount filters)
                                 (noiseDensity filters))) st in
  let st := when_ (0 <? posterize filters)%float
              (pure_ (fun c => applyPosterize c (posterize filters))) st in
  let st := when_ (0 <? posterizeStyle filters)%float
              (pure_ (fun c => applyPosterizeStyle c (posterizeStyle filters)
                                 (posterizeColorShift filters))) st in
  let st := when_ (lineArt filters)
              (pure_ (fun c => applyLineArt c (lineArtThreshold filters) (lineArtBlend filters)
                                 (lineArtColorBlend filters))) st in
  let st := when_ (findEdges filters)
              (pure_ (fun c => applyFindEdges c (findEdgesStrength filters)
                                 (findEdgesBlend filters))) st in
  let st := when_ (invert filters) (pure_ applyInvert) st in
  let st := when_ (levels filters)
              (pure_ (fun c => applyLevels c (levelsBlack filters) (levelsWhite filters)
                                 (levelsGamma filters) (levelsMono filters))) st in
  let st := when_ (halftone filters)
              (pure_ (fun c => applyHalftone c (halftoneSize filters) (halftoneAngle filters)
                                 (halftoneColorMode filters) (halftoneColorBlend filters)
                                 (halftoneBlendMode filters))) st in
  let st := when_ (strokeEnabled filters)
              (pure_ (fun c => applyStroke c (strokeColor filters) (strokeWidth filters)
                                 (strokeInner filters) (strokeOuter filters))) st in
  let st := when_ (0 <? facetFilter filters)%float
              (rand_ (fun c => applyFacet c (facetFilter filters) (facetSize filters))) st in
  let st := when_ (oilPaint filters)
              (pure_ (fun c => applyOilPaint c (oilPaintRadius filters)
                                 (oilPaintLevels filters))) st in
  let st := when_ (metalFilter filters)
              (pure_ (fun c => applyMetal c (metalIntensity filters))) st in
  let st := when_ (paletteKnife filters)
              (pure_ (fun c => applyPaletteKnife c (paletteKnifeLength filters)
                                 (paletteKnifeDirection filters))) st in
  let st := when_ (0 <? textureFilter filters)%float
              (rand_ (fun c => applyTextureFilter c (textureFilter filters)
                                 (textureIntensity filters))) st in
  let st := when_ (colorSepEnabled filters && (0 <? colorSepMix filters)%float)
              (pure_ (fun c => applyColorSeparation c (colorSepR filters) (colorSepG filters)
                                 (colorSepB filters) (colorSepMix filters))) st in
  let st := when_ (0 <? gameFilter filters)%float
              (pure_ (fun c => applyGameFilter c (gameFilter filters)
                                 (gameFilterIntensity filters))) st in
  let st := when_ (negb (channelShiftRG filters =? 0)%float
                   || negb (channelShiftYB filters =? 0)%float
                   || negb (channelShiftPC filters =? 0)%float)
              (pure_ (fun c => applyChannelShifts c (channelShiftRG filters)
                                 (channelShiftYB filters) (channelShiftPC filters))) st in
  let st := when_ (gradientFade filters && (0 <? gradientFadeAmount filters)%float)
              (pure_ (fun c => applyGradientFade c (gradientFadeDirection filters)
                                 (gradientFadeAmount filters))) st in
  let st := when_ (truthy_num globalHueRotate
                   && negb (default nan globalHueRotate =? 0)%float)
              (pure_ (fun c => applyGlobalHueRotate c (default nan globalHueRotate))) st in
  when_ (match layerSaturation with
         | Some s => negb (s =? 100)%float
         | None => false
         end)
    (pure_ (fun c => applyLayerSaturation c (default nan layerSaturation))) st.

(** [processLayerFilters], the wrapper the application calls. *)
Definition processLayerFilters (img : option Canvas) (filters : LayerFilters)
    (maxSize : option float) (globalHueRotate : option float)
    (sourceCanvas : option Canvas) (layerSaturation : option float)
    (rng : nat) : option (Canvas * nat) :=
  match sourceCanvas with
  | Some sc =>
      Some (processFiltersFromCanvas sc filters maxSize globalHueRotate layerSaturation rng)
  | None =>
      match img with
      | None => None
      | Some img =>
          let st := applyFilters img filters maxSize rng in
          let st := when_ (truthy_num globalHueRotate
                           && negb (default nan globalHueRotate =? 0)%float)
                      (pure_ (fun c => applyGlobalHueRotate c (default nan globalHueRotate))) st in
          Some (when_ (match layerSaturation with
                       | Some s => negb (s =? 100)%float
                       | None => false
                       end)
                  (pure_ (fun c => applyLayerSaturation c (default nan layerSaturation))) st)
      end
  end.
End Pipeline.

(** ** Crop bounds (App.tsx) *)

Record CropBounds := mkCropBounds {
  crop_x : Z;
  crop_y : Z;
  crop_w : Z;
  crop_h : Z
}.

(** [computeCropBounds]; [None] is [undefined]. *)
Definition computeCropBounds (canvas : Canvas) : option CropBounds :=
  let w := width canvas in
  let h := height canvas in
  let data := data canvas in
  let '(minX, minY, maxX, maxY, found) :=
    for_to 0 h (fun y st =>
      for_to 0 w (fun x '(minX, minY, maxX, maxY, found) =>
        if (10 <? rd data ((y * w + x) * 4 + 3))%float then
          let minX := if x <? minX then x else minX in
          let maxX := if maxX <? x then x else maxX in
          let minY := if y <? minY then y else minY in
          let maxY := if maxY <? y then y else maxY in
          (minX, minY, maxX, maxY, true)
        else (minX, minY, maxX, maxY, found))
      st)
    (w, h, 0, 0, false) in
  if negb found then None
  else Some (mkCropBounds minX minY (maxX - minX + 1) (maxY - minY + 1)).

(** ** Magic wand (App.tsx): the flood fill of [handleMagicWand] *)

(** One neighbour [(nx, ny)] of the pixel being erased.  The state is
    [visited] and the queue; the queue is held from its end (the number
    pushed last is the head), as [push] and [pop] work at the end. *)
Definition wandNeighbour (w h : Z) (data : list Z) (seedR seedG seedB threshold : float)
    (st : list Z * list Z) (n : Z * Z) : list Z * list Z :=
  let '(visited, queue) := st in
  let '(nx, ny) := n in
  if (nx <? 0) || (w <=? nx) || (ny <? 0) || (h <=? ny) then (visited, queue)
  else
    let ni := ny * w + nx in
    if truthy (mask_at visited ni) then (visited, queue)
    else
      let visited := mask_set visited ni 1 in
      let npi := ni * 4 in
      if (rd data (npi + 3) =? 0)%float then (visited, queue)
      else
        let dr := abs (rd data npi - seedR)%float in
        let dg := abs (rd data (npi + 1) - seedG)%float in
        let db := abs (rd data (npi + 2) - seedB)%float in
        if ((dr + dg + db) / 3 <=? threshold)%float then (visited, ny :: nx :: queue)
        else (visited, queue).

(** [while (queue.length > 0) { ... }], for at most [fuel] rounds:
    [None] when the rounds run out. *)
Fixpoint wandLoop (fuel : nat) (w h : Z) (seedR seedG seedB threshold : float)
    (data visited queue : list Z) : option (list Z) :=
  match queue with
  | [] => Some data
  | [_] => Some data
  | py :: px :: queue =>
      match fuel with
      | O => None
      | Datatypes.S fuel' =>
          let pi := (py * w + px) * 4 in
          let data := wr data (pi + 3) 0 in
          let '(visited, queue) :=
            fold_left (wandNeighbour w h data seedR seedG seedB threshold)
              [(px - 1, py); (px + 1, py); (px, py - 1); (px, py + 1)]
              (visited, queue) in
          wandLoop fuel' w h seedR seedG seedB threshold data visited queue
      end
  end.

(** The fill from the pixel [(localX, localY)] the user picked, on the
    layer's source canvas; a pick outside the canvas or on a pixel of
    alpha 0 leaves it as it is. *)
Definition magicWandFill (src : Canvas) (localX localY : Z) (threshold : float)
    (fuel : nat) : option Canvas :=
  let w := width src in
  let h := height src in
  let data := data src in
  if (localX <? 0) || (w <=? localX) || (localY <? 0) || (h <=? localY) then Some src
  else if (rd data ((localY * w + localX) * 4 + 3) =? 0)%float then Some src
  else
    let seedIdx := (localY * w + localX) * 4 in
    let seedR := rd data seedIdx in
    let seedG := rd data (seedIdx + 1) in
    let seedB := rd data (seedIdx + 2) in
    let visited := zeros (w * h) in
    let queue := [localY; localX] in
    let visited := mask_set visited (localY * w + localX) 1 in
    match wandLoop fuel w h seedR seedG seedB threshold data visited queue with
    | Some data => Some (putImageData src data)
    | None => None
    end.

(** ** Reference instances

    Closed statements (examples, witnesses, counterexamples) need an
    implementation of the three interfaces.  ECMA-262 asks of
    [Math.exp] and its kin only an "implementation-approximated" result:
    [RefMath] approximates them by truncated series.  [RefCanvas2D] is a
    rasteriser without anti-aliasing (pixel-centre sampling, source-over
    compositing in straight alpha).  The general theorems hold for every
    instance. *)

Module Ref.

(** [sum_{k < n} x^k / k!], by Horner's rule from the last term. *)
Fixpoint expSeries (n : nat) (k : float) (x : float) : float :=
  match n with
  | O => 1%float
  | Datatypes.S n' => (1 + x / k * expSeries n' (k + 1) x)%float
  end.

Fixpoint squareN (n : nat) (x : float) : float :=
  match n with
  | O => x
  | Datatypes.S n' => squareN n' (x * x)%float
  end.

Definition exp (x : float) : float :=
  if is_nan x then nan
  else if (709.782712893384 <? x)%float then infinity
  else if (x <? -745.2)%float then 0%float
  else squareN 16 (expSeries 14 1 (x / 65536)%float).

Definition twoPi : float := (2 * Math_PI)%float.

(** [sum (-1)^k x^(2k+1) / (2k+1)!] from term [k] on. *)
Fixpoint sinSeries (n : nat) (k : float) (x2 : float) : float :=
  match n with
  | O => 1%float
  | Datatypes.S n' =>
      (1 - x2 / ((2 * k) * (2 * k + 1)) * sinSeries n' (k + 1) x2)%float
  end.

Fixpoint cosSeries (n : nat) (k : float) (x2 : float) : float :=
  match n with
  | O => 1%float
  | Datatypes.S n' =>
      (1 - x2 / ((2 * k - 1) * (2 * k)) * cosSeries n' (k + 1) x2)%float
  end.

Definition sin (x : float) : float :=
  if is_nan x || is_infinity x then nan
  else let r := num_rem x twoPi in (r * sinSeries 30 1 (r * r))%float.

Definition cos (x : float) : float :=
  if is_nan x || is_infinity x then nan
  else let r := num_rem x twoPi in cosSeries 30 1 (r * r)%float.

(** [sum_{j >= k} z^(2j) / (2j+1)], the series of [atanh z / z]. *)
Fixpoint atanhSeries (n : nat) (k : float) (z2 : float) : float :=
  match n with
  | O => (1 / (2 * k + 1))%float
  | Datatypes.S n' => (1 / (2 * k + 1) + z2 * atanhSeries n' (k + 1) z2)%float
  end.

Definition ln2 : float := 0.6931471805599453%float.

Definition log (x : float) : float :=
  if is_nan x then nan
  else if (x <? 0)%float then nan
  else if is_zero x then neg_infinity
  else if is_infinity x then infinity
  else
    let '(m, e) := Z.frexp x in
    let z := ((m - 1) / (m + 1))%float in
    (Z2F e * ln2 + 2 * z * atanhSeries 40 0 (z * z))%float.

Definition pow (x y : float) : float :=
  if is_zero y then 1%float
  else if is_nan x || is_nan y then nan
  else if (y =? 1)%float then x
  else if (0 <? x)%float then exp (y * log x)%float
  else if is_zero x then (if (0 <? y)%float then 0%float else infinity)
  else
    match float_index y with
    | Some n => let v := exp (y * log (- x))%float in
                if Z.even n then v else (- v)%float
    | None => nan
    end.

(** A linear congruential generator for [Math.random()]. *)
Fixpoint lcg (n : nat) : Z :=
  match n with
  | O => 12345
  | Datatypes.S n' => (1103515245 * lcg n' + 12345) mod 2147483648
  end.

Definition random (n : nat) : float := (Z2F (lcg (Datatypes.S n)) / 2147483648)%float.

(** The pixel of [c] at [(x, y)] as [(r, g, b, a)], [None] outside. *)
Definition pixel (c : Canvas) (x y : Z) : option (Z * Z * Z * Z) :=
  if (0 <=? x) && (x <? width c) && (0 <=? y) && (y <? height c) then
    let i := Z.to_nat ((y * width c + x) * 4) in
    match data c !! i, data c !! (i + 1)%nat, data c !! (i + 2)%nat, data c !! (i + 3)%nat with
    | Some r, Some g, Some b, Some a => Some (r, g, b, a)
    | _, _, _, _ => None
    end
  else None.

(** Source-over compositing of a source pixel at opacity [ga] over a
    destination pixel. *)
Definition over (ga : float) (s d : Z * Z * Z * Z) : list Z :=
  let '(sr, sg, sb, sa) := s in
  let '(dr, dg, db, da) := d in
  let a_s := (Z2F sa / 255 * ga)%float in
  let a_d := (Z2F da / 255)%float in
  let a_o := (a_s + a_d * (1 - a_s))%float in
  if is_zero a_o then [0; 0; 0; 0]
  else
    let ch (sc dc : Z) :=
      ToUint8Clamp ((Z2F sc * a_s + Z2F dc * a_d * (1 - a_s)) / a_o)%float in
    [ch sr dr; ch sg dg; ch sb db; ToUint8Clamp (a_o * 255)%float].

(** Paint every pixel of [dst] from the source pixel [pick x y] names. *)
Definition paint (ga : float) (pick : Z -> Z -> option (Z * Z * Z * Z)) (dst : Canvas)
  : Canvas :=
  putImageData dst
    (concat (map (fun p =>
       let x := Z.of_nat p mod width dst in
       let y := Z.of_nat p / width dst in
       let d := default (0, 0, 0, 0) (pixel dst x y) in
       match pick x y with
       | Some s => over ga s d
       | None => let '(r, g, b, a) := d in [r; g; b; a]
       end)
     (seq 0 (Z.to_nat (width dst * height dst))))).

Definition drawImage (ga : float) (src : Canvas) (dx dy : float) (dst : Canvas) : Canvas :=
  paint ga (fun x y =>
    pixel src (x - ceilZ (Math_round dx)) (y - ceilZ (Math_round dy))) dst.

Definition drawImageScaled (ga : float) (src : Canvas) (dx dy dw dh : float) (dst : Canvas)
  : Canvas :=
  paint ga (fun x y =>
    let u := ((Z2F x + 0.5 - dx) / dw)%float in
    let v := ((Z2F y + 0.5 - dy) / dh)%float in
    if (0 <=? u)%float && (u <? 1)%float && (0 <=? v)%float && (v <? 1)%float then
      pixel src (ceilZ (Math_floor (u * Z2F (width src))%float))
                (ceilZ (Math_floor (v * Z2F (height src))%float))
    else None) dst.

Definition strokeRect (color : string) (lw x y w h : float) (c : Canvas) : Canvas :=
  let cr := ToUint8Clamp (parseInt16 (slice color 1 3)) in
  let cg := ToUint8Clamp (parseInt16 (slice color 3 5)) in
  let cb := ToUint8Clamp (parseInt16 (slice color 5 7)) in
  let hw := (lw / 2)%float in
  let within (lo hi v : float) := (lo <=? v)%float && (v <=? hi)%float in
  paint 1 (fun px py =>
    let u := (Z2F px + 0.5)%float in
    let v := (Z2F py + 0.5)%float in
    let outer := within (x - hw)%float (x + w + hw)%float u
                 && within (y - hw)%float (y + h + hw)%float v in
    let hole := within (x + hw)%float (x + w - hw)%float u
                && within (y + hw)%float (y + h - hw)%float v in
    if outer && negb hole then Some (cr, cg, cb, 255) else None) c.

Definition rasterize (src : Canvas) (w h : Z) : Canvas :=
  if (w =? width src) && (h =? height src) then src
  else drawImageScaled 1 src 0 0 (Z2F w) (Z2F h) (mkCanvas w h (zeros (4 * (w * h)))).

End Ref.

#[export] Instance RefMath : JSMath := {|
  Math_sin := Ref.sin;
  Math_cos := Ref.cos;
  Math_exp := Ref.exp;
  Math_log := Ref.log;
  Math_pow := Ref.pow;
  Math_random := Ref.random
|}.

#[export] Instance RefCanvas2D : Canvas2D := {|
  drawImage := Ref.drawImage;
  drawImageScaled := Ref.drawImageScaled;
  strokeRect := Ref.strokeRect;
  rasterize := Ref.rasterize
|}.

(** A stand-in for the browser-painted filters, for closed statements in
    which none of them is switched on. *)
#[export] Instance NoRasterFilters : RasterFilters := {|
  applyFrostedGlass := fun c _ rng => (c, rng);
  applyLineArt := fun c _ _ _ => c;
  applyFindEdges := fun c _ _ => c;
  applyHalftone := fun c _ _ _ _ _ => c;
  applyGameFilter := fun c _ _ => c
|}.

(** ** Example buffers *)

(** The 4x4 fully opaque red buffer of the specification's scenarios. *)
Definition red4x4 : Canvas := mkCanvas 4 4 (concat (replicate 16 [255; 0; 0; 255])).

(** A 4x4 opaque buffer whose pixel [(x, y)] is [(10 x, 10 y, 7, 255)]. *)
Definition grid4x4 : Canvas :=
  mkCanvas 4 4
    (concat (map (fun p => [10 * (Z.of_nat p mod 4); 10 * (Z.of_nat p / 4); 7; 255])
                 (seq 0 16))).

(** A 2x2 mesh over a 4x4 buffer whose top-right control point is pulled
    down by two pixels. *)
Definition skewMesh : Mesh :=
  mkMesh 2 2 [mkPoint 0 0; mkPoint 4 2; mkPoint 0 4; mkPoint 4 4].

(** A 6x6 opaque buffer whose pixel [(x, y)] is [(10 x, 10 y, 7, 255)]. *)
Definition grid6x6 : Canvas :=
  mkCanvas 6 6
    (concat (map (fun p => [10 * (Z.of_nat p mod 6); 10 * (Z.of_nat p / 6); 7; 255])
                 (seq 0 36))).

(** The 4x4 mesh the editor lays over a 6x6 layer, control points two
    pixels apart, with the point of row 0, column 1 dragged down from
    [(2, 0)] to [(2, 2)]. *)
Definition draggedMesh : Mesh :=
  mkMesh 4 4
    [mkPoint 0 0; mkPoint 2 2; mkPoint 4 0; mkPoint 6 0;
     mkPoint 0 2; mkPoint 2 2; mkPoint 4 2; mkPoint 6 2;
     mkPoint 0 4; mkPoint 2 4; mkPoint 4 4; mkPoint 6 4;
     mkPoint 0 6; mkPoint 2 6; mkPoint 4 6; mkPoint 6 6].

(** A 5x5 buffer, transparent but for its centre pixel [(10, 20, 30, 255)]. *)
Definition dot5x5 : Canvas :=
  mkCanvas 5 5
    (concat (replicate 12 [0; 0; 0; 0]) ++ [10; 20; 30; 255]
     ++ concat (replicate 12 [0; 0; 0; 0])).

(* ================================================================= *)
(** * Part II.  Properties                                           *)
(* ================================================================= *)

(** ** Arrays *)

Lemma len_wr d i v : len (wr d i v) = len d.
Proof. unfold wr, len. destruct (i <? 0); [done|]. by rewrite length_insert. Qed.

Lemma length_wr d i v : length (wr d i v) = length d.
Proof. unfold wr. destruct (i <? 0); [done|]. by rewrite length_insert. Qed.

Lemma byte_at_wr_ne d i j v : i <> j -> byte_at (wr d i v) j = byte_at d j.
Proof.
  intros Hne. unfold byte_at, wr.
  destruct (Z.ltb_spec j 0); [done|].
  destruct (Z.ltb_spec i 0); [done|].
  apply list_lookup_insert_ne. lia.
Qed.

Lemma byte_at_wr_eq d i v :
  0 <= i < len d -> byte_at (wr d i v) i = Some (ToUint8Clamp v).
Proof.
  intros [H0 H1]. unfold byte_at, wr, len in *.
  destruct (Z.ltb_spec i 0); [lia|].
  apply list_lookup_insert_eq. lia.
Qed.

Lemma byte_at_range d i b : byte_at d i = Some b -> 0 <= i < len d.
Proof.
  unfold byte_at, len. destruct (Z.ltb_spec i 0); [done|].
  intros Hl. apply lookup_lt_Some in Hl. lia.
Qed.

Lemma byte_at_Some d i : 0 <= i < len d -> exists b, byte_at d i = Some b.
Proof.
  intros [H0 H1]. unfold byte_at, len in *.
  destruct (Z.ltb_spec i 0); [lia|].
  destruct (lookup_lt_is_Some_2 d (Z.to_nat i)) as [b Hb]; [lia|]. eauto.
Qed.

Lemma rd_byte_at d i :
  rd d i = match byte_at d i with Some b => Z2F b | None => nan end.
Proof. unfold rd, byte_at. by destruct (i <? 0). Qed.

Lemma rd_ext d d' i : byte_at d i = byte_at d' i -> rd d i = rd d' i.
Proof. intros Hb. by rewrite !rd_byte_at, Hb. Qed.

Lemma rd_wr_ne d i j v : i <> j -> rd (wr d i v) j = rd d j.
Proof. intros. apply rd_ext. by apply byte_at_wr_ne. Qed.

(** ** Loops *)

Lemma iter_n_inv {S : Type} (P : nat -> S -> Prop) n i step (body : Z -> S -> S) s :
  P O s ->
  (forall k s', (k < n)%nat -> P k s' ->
                P (Datatypes.S k) (body (i + step * Z.of_nat k) s')) ->
  P n (iter_n n i step body s).
Proof.
  revert P i s. induction n as [|n IH]; intros P i s H0 Hstep; simpl; [done|].
  apply (IH (fun k => P (Datatypes.S k))).
  - specialize (Hstep O s). rewrite Z.mul_0_r, Z.add_0_r in Hstep.
    apply Hstep; [lia|done].
  - intros k s' Hk HP.
    replace (i + step + step * Z.of_nat k) with (i + step * Z.of_nat (Datatypes.S k)) by lia.
    apply Hstep; [lia|done].
Qed.

Lemma iter_n_ext {S : Type} n i step (f g : Z -> S -> S) s :
  (forall k s', (k < n)%nat -> f (i + step * Z.of_nat k) s' = g (i + step * Z.of_nat k) s') ->
  iter_n n i step f s = iter_n n i step g s.
Proof.
  revert i s. induction n as [|n IH]; intros i s Hfg; simpl; [done|].
  specialize (Hfg O s) as H0. rewrite Z.mul_0_r, Z.add_0_r in H0.
  rewrite H0 by lia. apply IH. intros k s' Hk.
  replace (i + step + step * Z.of_nat k) with (i + step * Z.of_nat (Datatypes.S k)) by lia.
  apply Hfg. lia.
Qed.

(** A loop of stride [step] from [lo] is a unit-stride loop from 0. *)
Lemma iter_n_unit {S : Type} n lo step (body : Z -> S -> S) s :
  iter_n n lo step body s = iter_n n 0 1 (fun k => body (lo + step * k)) s.
Proof.
  revert lo step s body. induction n as [|n IH]; intros lo step s body; simpl; [done|].
  rewrite Z.mul_0_r, Z.add_0_r. rewrite (IH (lo + step)).
  rewrite (IH (0 + 1) 1 _ (fun k => body (lo + step * k))).
  apply iter_n_ext. intros k s' _. f_equal. lia.
Qed.

Lemma iter_n_app {S : Type} n m i step (body : Z -> S -> S) s :
  iter_n (n + m) i step body s =
  iter_n m (i + step * Z.of_nat n) step body (iter_n n i step body s).
Proof.
  revert i s. induction n as [|n IH]; intros i s; simpl.
  - f_equal. lia.
  - rewrite IH. f_equal. lia.
Qed.

(** Row-major nesting: [for y < h, for x < w] is one loop over the
    [h * w] pixel numbers [p = y * w + x]. *)
Lemma iter_n_zero_body {S : Type} n i step (body : Z -> S -> S) s :
  (forall k s', body k s' = s') -> iter_n n i step body s = s.
Proof.
  intros Hb. revert i s. induction n as [|n IH]; intros i s; simpl; [done|].
  by rewrite Hb, IH.
Qed.

Lemma nested_loop_flat {S : Type} (h w : nat) (body : Z -> Z -> S -> S) s :
  iter_n h 0 1 (fun y => iter_n w 0 1 (fun x => body y x)) s =
  iter_n (h * w) 0 1
    (fun p => body (p / Z.of_nat w) (p mod Z.of_nat w)) s.
Proof.
  destruct (Nat.eq_dec w O) as [->|Hw0].
  { rewrite Nat.mul_0_r. simpl. by apply iter_n_zero_body. }
  induction h as [|h IH] in s |- *; [done|].
  replace (Datatypes.S h * w)%nat with (h * w + w)%nat by lia.
  rewrite iter_n_app. rewrite <- IH.
  replace (Datatypes.S h) with (h + 1)%nat by lia.
  rewrite iter_n_app.
  change (iter_n 1 ?i ?st ?b ?s0) with (b i s0).
  cbv beta.
  rewrite (iter_n_unit w (0 + 1 * Z.of_nat (h * w))).
  apply iter_n_ext. intros k s' Hk.
  set (q := 0 + 1 * Z.of_nat (h * w) + 1 * (0 + 1 * Z.of_nat k)).
  assert (Hq : q = Z.of_nat k + Z.of_nat h * Z.of_nat w) by (unfold q; lia).
  rewrite Hq, Z.div_add, Z.mod_add by lia.
  rewrite Z.div_small, Z.mod_small by lia. f_equal; lia.
Qed.

Lemma byte_at_wr d i j v :
  byte_at (wr d i v) j =
  if i =? j then match byte_at d i with
                 | Some _ => Some (ToUint8Clamp v)
                 | None => None
                 end
  else byte_at d j.
Proof.
  destruct (Z.eqb_spec i j) as [->|Hne]; [|by apply byte_at_wr_ne].
  destruct (byte_at d j) as [b|] eqn:Hb.
  - apply byte_at_wr_eq. by apply byte_at_range in Hb.
  - unfold byte_at, wr in *. destruct (Z.ltb_spec j 0); [done|].
    rewrite list_insert_ge; [done|]. by apply lookup_ge_None.
Qed.

(** ** Conversions stay in the byte range *)

Lemma ToUint8Clamp_range x : 0 <= ToUint8Clamp x <= 255.
Proof.
  unfold ToUint8Clamp. destruct (float_parts x) as [[m e]|].
  2: { destruct (0 <? x)%float; lia. }
  destruct (Z.leb_spec m 0); [lia|].
  destruct (Z.leb_spec 0 e).
  { assert (0 < 2 ^ e) by (apply Z.pow_pos_nonneg; lia). nia. }
  assert (Hf : 0 <= Z.shiftr m (- e)) by (apply Z.shiftr_nonneg; lia).
  destruct (Z.leb_spec 255 (Z.shiftr m (- e))); [lia|].
  destruct (_ ?= _); [destruct (Z.even _)| |]; lia.
Qed.

Lemma ToUintN_range bits x : 0 < bits -> 0 <= ToUintN bits x < 2 ^ bits.
Proof.
  intros Hb. unfold ToUintN.
  assert (0 < 2 ^ bits) by (apply Z.pow_pos_nonneg; lia).
  destruct (float_parts x) as [[m e]|]; [|lia].
  apply Z.mod_pos_bound. lia.
Qed.

(** ** Pixel-local loop bodies *)

(** [B p] rewrites pixel [p] only, from the bytes of pixel [p] only. *)
Definition pixel_local (B : Z -> list Z -> list Z) : Prop :=
  (forall p d, length (B p d) = length d) /\
  (forall p d j, (j < 4 * p \/ 4 * p + 4 <= j) -> byte_at (B p d) j = byte_at d j) /\
  (forall p d d',
     (forall c, 0 <= c < 4 -> byte_at d (4 * p + c) = byte_at d' (4 * p + c)) ->
     forall c, 0 <= c < 4 -> byte_at (B p d) (4 * p + c) = byte_at (B p d') (4 * p + c)).

Lemma pixel_loop_spec B n d :
  pixel_local B ->
  length (iter_n n 0 1 B d) = length d /\
  (forall p c, 0 <= p < Z.of_nat n -> 0 <= c < 4 ->
     byte_at (iter_n n 0 1 B d) (4 * p + c) = byte_at (B p d) (4 * p + c)) /\
  (forall j, 4 * Z.of_nat n <= j -> byte_at (iter_n n 0 1 B d) j = byte_at d j).
Proof.
  intros (Hlen & Hout & Hin).
  apply (iter_n_inv (fun k s =>
    length s = length d /\
    (forall p c, 0 <= p < Z.of_nat k -> 0 <= c < 4 ->
       byte_at s (4 * p + c) = byte_at (B p d) (4 * p + c)) /\
    (forall j, 4 * Z.of_nat k <= j -> byte_at s j = byte_at d j))).
  - split; [done|]. split; [intros; lia|done].
  - intros k s _ (IHl & IHp & IHj).
    replace (0 + 1 * Z.of_nat k) with (Z.of_nat k) by lia.
    split; [by rewrite Hlen|]. split.
    + intros p c Hp Hc.
      destruct (Z.eq_dec p (Z.of_nat k)) as [->|Hne].
      * apply Hin; [|done]. intros c' Hc'. apply IHj. lia.
      * rewrite Hout by lia. apply IHp; lia.
    + intros j Hj. rewrite Hout by lia. apply IHj. lia.
Qed.

(** The loops [for (i = 0; i < data.length; i += 4)] of the catalogue. *)
Lemma data_loop_spec (body : Z -> list Z -> list Z) d :
  pixel_local (fun p => body (4 * p)) ->
  let d' := for_range 0 (len d) 4 body d in
  length d' = length d /\
  (forall p c, 0 <= p -> 4 * p < len d -> 0 <= c < 4 ->
     byte_at d' (4 * p + c) = byte_at (body (4 * p) d) (4 * p + c)).
Proof.
  intros Hloc. unfold for_range. rewrite iter_n_unit.
  destruct (pixel_loop_spec (fun p => body (4 * p))
              (Z.to_nat ((len d - 0 + 4 - 1) / 4)) d Hloc) as (Hl & Hp & _).
  cbn zeta. split.
  - exact Hl.
  - intros p c Hp0 Hplt Hc. apply Hp; [|done].
    unfold len in *. zify. Z.div_mod_to_equations. lia.
Qed.

Ltac simpl_eqb :=
  repeat match goal with
         | |- context [?a =? ?b] =>
             first [ rewrite (proj2 (Z.eqb_eq a b)) by lia
                   | rewrite (proj2 (Z.eqb_neq a b)) by lia ]
         end.

(** Bodies that store into the three colour bytes of their pixel values
    computed from the bytes of that pixel. *)
Ltac solve_pixel_local :=
  split; [|split];
  [ intros; rewrite ?length_wr; reflexivity
  | intros p d j Hj; repeat (rewrite byte_at_wr_ne by lia); done
  | intros p d d' Hag c Hc;
    pose proof (Hag 0 ltac:(lia)) as Hag0; pose proof (Hag 1 ltac:(lia)) as Hag1;
    pose proof (Hag 2 ltac:(lia)) as Hag2; pose proof (Hag 3 ltac:(lia)) as Hag3;
    rewrite ?Z.add_0_r in *;
    rewrite ?byte_at_wr, ?rd_byte_at; simpl_eqb;
    rewrite ?byte_at_wr, ?rd_byte_at; simpl_eqb;
    rewrite ?byte_at_wr, ?rd_byte_at; simpl_eqb;
    assert (c = 0 \/ c = 1 \/ c = 2 \/ c = 3) as [->|[->|[->| ->]]] by lia;
    rewrite ?Z.add_0_r; simpl_eqb;
    rewrite ?Hag0, ?Hag1, ?Hag2, ?Hag3; reflexivity ].

Definition bcBody (f b : float) (i : Z) (data : list Z) : list Z :=
  let data := wr data i (clamp255 (f * (rd data i - 128) + 128 + b)%float) in
  let data := wr data (i + 1) (clamp255 (f * (rd data (i + 1) - 128) + 128 + b)%float) in
  wr data (i + 2) (clamp255 (f * (rd data (i + 2) - 128) + 128 + b)%float).

Lemma bcBody_local f b : pixel_local (fun p => bcBody f b (4 * p)).
Proof. unfold bcBody. solve_pixel_local. Qed.

(** ** Ordering of doubles *)

Lemma ltb_leb (x y : float) : (x <? y)%float = true -> (x <=? y)%float = true.
Proof.
  rewrite FloatAxioms.ltb_spec, FloatAxioms.leb_spec. unfold SFltb, SFleb.
  by destruct (SFcompare _ _) as [[]|].
Qed.

(** Nothing at or above one is a zero. *)
Lemma one_leb_nonzero (x : float) : (1 <=? x)%float = true -> is_zero x = false.
Proof.
  unfold is_zero. rewrite FloatAxioms.leb_spec, FloatAxioms.eqb_spec.
  change (Prim2SF 1) with (S754_finite false 4503599627370496 (-52)).
  change (Prim2SF PrimFloat.zero) with (S754_zero false).
  destruct (Prim2SF x) as [s|s| |s m e]; simpl; try done.
  all: by destruct s.
Qed.

Lemma SFeqb_refl f : f <> S754_nan -> SFeqb f f = true.
Proof.
  unfold SFeqb. destruct f as [s|s| |s m e]; simpl; try done.
  - by destruct s.
  - intros _. destruct s; by rewrite Z.compare_refl, Pos.compare_cont_refl.
Qed.

Lemma leb_not_nan_l (x y : float) : (x <=? y)%float = true -> is_nan x = false.
Proof.
  unfold is_nan. rewrite FloatAxioms.leb_spec, FloatAxioms.eqb_spec.
  intros Hle. rewrite SFeqb_refl; [done|].
  intros Hx. by rewrite Hx in Hle.
Qed.

Lemma Math_max_one_lower (x : float) :
  is_nan x = false -> (1 <=? Math_max 1 x)%float = true.
Proof.
  intros Hn. unfold Math_max. change (is_nan 1) with false. rewrite Hn. simpl.
  destruct (1 <? x)%float eqn:H1; [by apply ltb_leb|].
  destruct (x <? 1)%float; [reflexivity|].
  change (get_sign 1) with false. reflexivity.
Qed.

(** At or below one the maximum with one is one. *)
Lemma SFcompare_antisym x y :
  SFcompare y x = option_map CompOpp (SFcompare x y).
Proof.
  destruct x as [sx|sx| |sx mx ex], y as [sy|sy| |sy my ey]; try reflexivity;
    try (by destruct sx); try (by destruct sy); try (by destruct sx, sy).
  unfold SFcompare, option_map. f_equal.
  destruct sx, sy; try reflexivity.
  - rewrite (Z.compare_antisym ex ey).
    destruct (ex ?= ey); try reflexivity. cbn [CompOpp].
    rewrite (Pos.compare_cont_antisym mx my Eq).
    by destruct (Pos.compare_cont _ my mx).
  - rewrite (Z.compare_antisym ex ey).
    destruct (ex ?= ey); try reflexivity. cbn [CompOpp].
    rewrite (Pos.compare_cont_antisym mx my Eq). reflexivity.
Qed.

Lemma leb_not_ltb (x y : float) : (x <=? y)%float = true -> (y <? x)%float = false.
Proof.
  rewrite FloatAxioms.ltb_spec, FloatAxioms.leb_spec. unfold SFltb, SFleb.
  rewrite (SFcompare_antisym (Prim2SF x) (Prim2SF y)).
  by destruct (SFcompare (Prim2SF x) (Prim2SF y)) as [[]|].
Qed.

(** At or below one the maximum with one is one. *)
Lemma Math_max_one_small (x : float) :
  (x <=? 1)%float = true -> Math_max 1 x = 1%float.
Proof.
  intros Hle. unfold Math_max. change (is_nan 1) with false.
  rewrite (leb_not_nan_l _ _ Hle). cbn [orb].
  rewrite (leb_not_ltb _ _ Hle).
  by destruct (x <? 1)%float.
Qed.


(** ** Brightness / contrast *)

(** C5.  Every colour byte [v] becomes the byte stored from
    [clamp(f * (v - 128) + 128 + b)] with
    [f = 259 * (c + 255) / (255 * (259 - c))] (the store into the
    [Uint8ClampedArray] rounds to the nearest byte), alpha is untouched, and
    the opaque red 4x4 buffer with brightness +50 and contrast 0 becomes
    (255, 50, 50, 255) at every pixel. *)
Theorem brightness_contrast_formula :
  (forall (c : Canvas) (b ct : float) (p k v : Z),
     0 <= p -> 0 <= k < 3 ->
     byte_at (data c) (4 * p + k) = Some v ->
     let f := ((259 * (ct + 255)) / (255 * (259 - ct)))%float in
     let out := data (applyBrightnessContrast c b ct) in
     byte_at out (4 * p + k)
       = Some (ToUint8Clamp (Math_max 0 (Math_min 255 (f * (Z2F v - 128) + 128 + b)%float))) /\
     (exists o, byte_at out (4 * p + k) = Some o /\ 0 <= o <= 255) /\
     byte_at out (4 * p + 3) = byte_at (data c) (4 * p + 3)) /\
  applyBrightnessContrast red4x4 50 0
    = mkCanvas 4 4 (concat (replicate 16 [255; 50; 50; 255])).
Proof.
  split; [|vm_compute; reflexivity].
  intros c b ct p k v Hp Hk Hv f out.
  assert (Hr : 0 <= 4 * p + k < len (data c)) by (by apply byte_at_range in Hv).
  assert (Hloc : pixel_local (fun p => bcBody (contrastFactor ct) b (4 * p)))
    by apply bcBody_local.
  destruct (data_loop_spec _ (data c) Hloc) as (Hlen & Hpix).
  assert (Hout : forall c', 0 <= c' < 4 ->
            byte_at out (4 * p + c')
            = byte_at (bcBody (contrastFactor ct) b (4 * p) (data c)) (4 * p + c')).
  { intros c' Hc'. apply (Hpix p c'); [lia|lia|done]. }
  assert (Hk0 : byte_at out (4 * p + k)
       = Some (ToUint8Clamp (Math_max 0 (Math_min 255 (f * (Z2F v - 128) + 128 + b)%float)))).
  { rewrite Hout by lia. unfold bcBody.
    rewrite ?byte_at_wr, ?rd_byte_at; simpl_eqb.
    rewrite ?byte_at_wr, ?rd_byte_at; simpl_eqb.
    assert (k = 0 \/ k = 1 \/ k = 2) as [->|[->| ->]] by lia;
      rewrite ?Z.add_0_r in *; simpl_eqb; rewrite Hv; reflexivity. }
  split; [exact Hk0|]. split.
  - eexists. split; [exact Hk0|]. apply ToUint8Clamp_range.
  - rewrite Hout by lia. unfold bcBody. by rewrite !byte_at_wr_ne by lia.
Qed.

Lemma brightness_contrast_formula_witness :
  byte_at (data (applyBrightnessContrast red4x4 50 0)) (4 * 2 + 1) = Some 50.
Proof.
  destruct brightness_contrast_formula as [H _].
  destruct (H red4x4 50%float 0%float 2 1 0 ltac:(lia) ltac:(lia) ltac:(reflexivity))
    as (Hv & _).
  rewrite Hv. vm_compute. reflexivity.
Defined.


(** ** Checking a finite range by evaluation *)

Fixpoint check_from (n : nat) (z : Z) (P : Z -> bool) : bool :=
  match n with
  | O => true
  | Datatypes.S n' => P z && check_from n' (z + 1) P
  end.

(** [P] holds at [0, 1, ..., n - 1]. *)
Definition check_range (n : Z) (P : Z -> bool) : bool :=
  check_from (Z.to_nat n) 0 P.

Lemma check_from_spec n z P :
  check_from n z P = true -> forall k, z <= k < z + Z.of_nat n -> P k = true.
Proof.
  revert z. induction n as [|n IH]; intros z Hc k Hk; [lia|].
  cbn [check_from] in Hc. apply andb_true_iff in Hc as [Hz Hrest].
  destruct (Z.eq_dec k z) as [->|Hne]; [done|].
  apply (IH (z + 1) Hrest). lia.
Qed.

Lemma check_range_spec n P :
  check_range n P = true -> forall z, 0 <= z < n -> P z = true.
Proof.
  unfold check_range. intros Hc z Hz. apply (check_from_spec _ _ _ Hc). lia.
Qed.

Lemma float_eqb_eq (x y : float) : Leibniz.eqb x y = true -> x = y.
Proof. apply FloatAxioms.Leibniz.eqb_spec. Qed.

(** ** Invariants of the store loops *)

Definition bytes (d : list Z) : Prop := Forall (fun b => 0 <= b <= 255) d.

Lemma bytes_wr d i v : bytes d -> bytes (wr d i v).
Proof.
  intros Hd. unfold wr. destruct (i <? 0); [done|].
  apply Forall_insert; [done|]. apply ToUint8Clamp_range.
Qed.

Lemma bytes_wr_u8 d i v : bytes d -> bytes (wr_u8 d i v).
Proof.
  intros Hd. unfold wr_u8. destruct (i <? 0); [done|].
  apply Forall_insert; [done|].
  pose proof (ToUintN_range 8 v ltac:(lia)). change (2 ^ 8) with 256 in *. lia.
Qed.

Lemma bytes_zeros n : bytes (zeros n).
Proof. unfold bytes, zeros. apply Forall_replicate. lia. Qed.

Lemma length_zeros n : length (zeros n) = Z.to_nat n.
Proof. unfold zeros. apply length_replicate. Qed.

Lemma length_wr_u8 d i v : length (wr_u8 d i v) = length d.
Proof. unfold wr_u8. destruct (i <? 0); [done|]. by rewrite length_insert. Qed.

Lemma for_range_inv {S : Type} (P : S -> Prop) lo hi step (body : Z -> S -> S) s :
  P s -> (forall i s', P s' -> P (body i s')) -> P (for_range lo hi step body s).
Proof.
  intros H0 Hstep. unfold for_range.
  apply (iter_n_inv (fun _ => P)); [done|]. intros k s' _ HP. by apply Hstep.
Qed.

Lemma for_to_inv {S : Type} (P : S -> Prop) lo hi (body : Z -> S -> S) s :
  P s -> (forall i s', P s' -> P (body i s')) -> P (for_to lo hi body s).
Proof. apply for_range_inv. Qed.

(** A loop that fills [a[i]] for [i = 0 .. n-1]. *)
Lemma fill_loop_spec (g : Z -> Z) (n : nat) (a : list Z) :
  (n <= length a)%nat ->
  let a' := iter_n n 0 1 (fun i a => if i <? 0 then a else <[Z.to_nat i := g i]> a) a in
  length a' = length a /\
  forall i, 0 <= i < Z.of_nat n -> a' !! Z.to_nat i = Some (g i).
Proof.
  intros Hn. cbn zeta.
  assert (Hinv : forall k, (k <= n)%nat ->
    let a' := iter_n k 0 1 (fun i a => if i <? 0 then a else <[Z.to_nat i := g i]> a) a in
    length a' = length a /\
    forall i, 0 <= i < Z.of_nat k -> a' !! Z.to_nat i = Some (g i)).
  { intros k Hk. cbn zeta.
    apply (iter_n_inv (fun j s => (j <= k)%nat ->
             length s = length a /\
             forall i, 0 <= i < Z.of_nat j -> s !! Z.to_nat i = Some (g i))); [| |lia].
    - intros _. split; [done|]. intros; lia.
    - intros j s Hj IH _. destruct IH as [IHl IHi]; [lia|].
      replace (0 + 1 * Z.of_nat j) with (Z.of_nat j) by lia.
      destruct (Z.ltb_spec (Z.of_nat j) 0); [lia|].
      split; [by rewrite length_insert|].
      intros i Hi. destruct (Z.eq_dec i (Z.of_nat j)) as [->|Hne].
      + apply list_lookup_insert_eq. lia.
      + rewrite list_lookup_insert_ne by lia. apply IHi. lia. }
  apply (Hinv n). lia.
Qed.

(** ** Levels *)

Section LevelsProps.
Context `{JSMath}.

Lemma levelsLUT_spec black white gamma :
  length (levelsLUT black white gamma) = 256%nat /\
  forall i, 0 <= i < 256 ->
    byte_at (levelsLUT black white gamma) i
    = Some (ToUintN 8 (levelsEntry black white gamma i)).
Proof.
  unfold levelsLUT, for_to, for_range.
  change (Z.to_nat ((256 - 0 + 1 - 1) / 1)) with 256%nat.
  destruct (fill_loop_spec (fun i => ToUintN 8 (levelsEntry black white gamma i))
              256 (zeros 256)) as [Hl Hi].
  { rewrite length_zeros. lia. }
  cbn zeta in Hl, Hi. unfold wr_u8. split.
  - rewrite Hl, length_zeros. reflexivity.
  - intros i Hi'. unfold byte_at. destruct (Z.ltb_spec i 0); [lia|].
    apply Hi. lia.
Qed.

Lemma levelsLUT_bytes black white gamma : bytes (levelsLUT black white gamma).
Proof.
  unfold levelsLUT. apply for_to_inv; [apply bytes_zeros|].
  intros i s Hs. by apply bytes_wr_u8.
Qed.

Lemma applyLevels_wf c black white gamma mono :
  wf_canvas c -> wf_canvas (applyLevels c black white gamma mono).
Proof.
  intros (Hw & Hh & Hlen & Hb). unfold applyLevels, wf_canvas, putImageData. cbn.
  split; [done|]. split; [done|].
  set (body := fun (i : Z) (data : list Z) => _).
  assert (Hinv : len (for_range 0 (len (data c)) 4 body (data c)) = len (data c)
                 /\ bytes (for_range 0 (len (data c)) 4 body (data c))).
  { apply (for_range_inv (fun s => len s = len (data c) /\ bytes s)); [done|].
    intros i s [Hl Hs]. unfold body. destruct mono.
    - split; [by rewrite !len_wr|]. by repeat apply bytes_wr.
    - split; [by rewrite !len_wr|]. by repeat apply bytes_wr. }
  destruct Hinv as [Hl Hs]. split; [by rewrite Hl|done].
Qed.
End LevelsProps.

(** For the integer positions of the black and white sliders the divisor
    is the integer [max(1, white - black)]. *)
Lemma levelsRange_sliders (b w : Z) :
  0 <= b <= 255 -> 0 <= w <= 255 ->
  levelsRange (Z2F b) (Z2F w) = Z2F (Z.max 1 (w - b)).
Proof.
  intros Hb Hw.
  assert (Hall : check_range 256 (fun b => check_range 256 (fun w =>
            Leibniz.eqb (levelsRange (Z2F b) (Z2F w)) (Z2F (Z.max 1 (w - b))))) = true)
    by (vm_compute; reflexivity).
  apply float_eqb_eq.
  apply (check_range_spec 256 _ (check_range_spec 256 _ Hall b ltac:(lia)) w). lia.
Qed.

(** C10.  [applyLevels] is total whatever the black and white points: the
    divisor of the LUT is [max(1, white - black)], which is at least one
    (so never zero) as soon as [white - black] is a number, and is one
    when [white - black] does not exceed one, in particular at the slider
    positions with [white <= black]; the LUT has 256 entries, each the
    byte the formula gives, in [0, 255]; and the filter returns a
    well-formed canvas of the same size. *)
Theorem levels_total `{JSMath} (black white gamma : float) :
  levelsRange black white = Math_max 1 (white - black)%float /\
  (is_nan (white - black)%float = false ->
     (1 <=? levelsRange black white)%float = true /\
     is_zero (levelsRange black white) = false) /\
  ((white - black <=? 1)%float = true -> levelsRange black white = 1%float) /\
  (forall b w : Z, 0 <= b <= 255 -> 0 <= w <= b ->
     levelsRange (Z2F b) (Z2F w) = 1%float) /\
  length (levelsLUT black white gamma) = 256%nat /\
  (forall i, 0 <= i < 256 ->
     byte_at (levelsLUT black white gamma) i =
     Some (ToUintN 8 (Math_round
       (Math_pow (Math_max 0 (Math_min 1
                   ((Z2F i - black) / Math_max 1 (white - black))%float))
                 (1 / gamma)%float * 255)%float))) /\
  Forall (fun v => 0 <= v <= 255) (levelsLUT black white gamma) /\
  (forall c mono, wf_canvas c ->
     wf_canvas (applyLevels c black white gamma mono) /\
     width (applyLevels c black white gamma mono) = width c /\
     height (applyLevels c black white gamma mono) = height c).
Proof.
  split; [reflexivity|]. split.
  { intros Hn. unfold levelsRange.
    pose proof (Math_max_one_lower _ Hn) as Hle. split; [done|].
    by apply one_leb_nonzero. }
  split; [apply Math_max_one_small|]. split.
  { intros b w Hb Hw. rewrite levelsRange_sliders by lia.
    replace (Z.max 1 (w - b)) with 1 by lia. reflexivity. }
  destruct (levelsLUT_spec black white gamma) as [Hl Hi].
  split; [done|]. split; [exact Hi|]. split; [apply levelsLUT_bytes|].
  intros c mono Hwf. split; [by apply applyLevels_wf|].
  unfold applyLevels, putImageData. cbn [width height]. split; reflexivity.
Qed.

Lemma levels_total_witness :
  levelsRange 100 100 = 1%float /\
  wf_canvas (applyLevels (H := RefMath) (mkCanvas 1 1 [10; 20; 30; 255]) 100 100 1 false).
Proof.
  destruct (levels_total (H := RefMath) 100 100 1) as (_ & _ & H1 & _ & _ & _ & _ & Hwf).
  split.
  - apply H1. vm_compute. reflexivity.
  - apply Hwf. unfold wf_canvas. cbn. repeat split; try lia.
    repeat constructor; lia.
Defined.


(** ** Row-major pixel loops *)

Lemma for_to_iter {S : Type} lo hi (body : Z -> S -> S) s :
  for_to lo hi body s = iter_n (Z.to_nat (hi - lo)) lo 1 body s.
Proof.
  unfold for_to, for_range. f_equal. rewrite Z.div_1_r. f_equal. lia.
Qed.

(** [for y < h, for x < w] visits the pixels [p = y * w + x] in order. *)
Lemma pixel_loop_2d {S : Type} (w h : Z) (body : Z -> Z -> S -> S) s :
  0 < w -> 0 <= h ->
  for_to 0 h (fun y s => for_to 0 w (fun x s => body y x s) s) s =
  iter_n (Z.to_nat (w * h)) 0 1 (fun p => body (p / w) (p mod w)) s.
Proof.
  intros Hw Hh. rewrite for_to_iter, Z.sub_0_r.
  rewrite (iter_n_ext _ _ _ _
             (fun y => iter_n (Z.to_nat w) 0 1 (fun x => body y x))).
  2: { intros k s' _. rewrite for_to_iter. by rewrite Z.sub_0_r. }
  rewrite (nested_loop_flat (Z.to_nat h) (Z.to_nat w) body s).
  rewrite Z2Nat.id by lia.
  f_equal. lia.
Qed.

(** The pixel number and the coordinates determine one another. *)
Lemma pixel_div_mod (w x y : Z) :
  0 <= x < w -> (y * w + x) / w = y /\ (y * w + x) mod w = x.
Proof.
  intros Hx. split.
  - rewrite Z.add_comm, Z.div_add by lia. rewrite Z.div_small by lia. lia.
  - rewrite Z.add_comm, Z.mod_add by lia. apply Z.mod_small. lia.
Qed.

(** ** Gradient fade *)

(** The loop body of [applyGradientFade] at pixel number [p]. *)
Definition fadeBody (direction strength : float) (w h : Z) (p : Z) (data : list Z) : list Z :=
  let t := fadePosition direction w h (p mod w) (p / w) in
  let fade := (1 - t * strength)%float in
  wr data (4 * p + 3) (Math_round (rd data (4 * p + 3) * Math_max 0 fade)%float).

Lemma fadeBody_local direction strength w h :
  pixel_local (fadeBody direction strength w h).
Proof.
  unfold fadeBody. split; [|split].
  - intros. by rewrite length_wr.
  - intros p d j Hj. by rewrite byte_at_wr_ne by lia.
  - intros p d d' Hag c Hc.
    pose proof (Hag 3 ltac:(lia)) as Hag3.
    rewrite !byte_at_wr, !rd_byte_at, Hag3.
    destruct (Z.eqb_spec (4 * p + 3) (4 * p + c)); [reflexivity|].
    apply Hag; lia.
Qed.

Lemma applyGradientFade_loop (c : Canvas) (direction amount : float) :
  0 < width c -> 0 <= height c ->
  data (applyGradientFade c direction amount) =
  iter_n (Z.to_nat (width c * height c)) 0 1
    (fadeBody direction (amount / 100)%float (width c) (height c)) (data c).
Proof.
  intros Hw Hh. unfold applyGradientFade, putImageData. cbn [data].
  rewrite (pixel_loop_2d (width c) (height c)
             (fun y x data =>
                wr data ((y * width c + x) * 4 + 3)
                  (Math_round (rd data ((y * width c + x) * 4 + 3)
                     * Math_max 0 (1 - fadePosition direction (width c) (height c) x y
                                       * (amount / 100)))%float))) by lia.
  apply iter_n_ext. intros k s' _. unfold fadeBody. cbn zeta.
  replace ((((0 + 1 * Z.of_nat k) / width c) * width c
            + (0 + 1 * Z.of_nat k) mod width c) * 4 + 3)
    with (4 * (0 + 1 * Z.of_nat k) + 3); [reflexivity|].
  pose proof (Z.div_mod (0 + 1 * Z.of_nat k) (width c) ltac:(lia)). lia.
Qed.

(** What the filter does to pixel [(x, y)]: the colour bytes stay, the
    alpha byte is scaled by [max(0, 1 - t * amount / 100)] and rounded. *)
Lemma applyGradientFade_pixel (c : Canvas) (direction amount : float) (x y a : Z) :
  wf_canvas c -> 0 <= x < width c -> 0 <= y < height c ->
  byte_at (data c) ((y * width c + x) * 4 + 3) = Some a ->
  let out := data (applyGradientFade c direction amount) in
  byte_at out ((y * width c + x) * 4 + 3)
  = Some (ToUint8Clamp (Math_round
      (Z2F a * Math_max 0 (1 - fadePosition direction (width c) (height c) x y
                               * (amount / 100)))%float)) /\
  forall k, 0 <= k < 3 ->
    byte_at out ((y * width c + x) * 4 + k) = byte_at (data c) ((y * width c + x) * 4 + k).
Proof.
  intros (Hw & Hh & Hlen & Hb) Hx Hy Ha out. unfold out.
  rewrite applyGradientFade_loop by lia.
  destruct (pixel_loop_spec _ (Z.to_nat (width c * height c)) (data c)
              (fadeBody_local direction (amount / 100)%float (width c) (height c)))
    as (_ & Hpix & _).
  set (p := y * width c + x).
  assert (Hp : 0 <= p < Z.of_nat (Z.to_nat (width c * height c))) by (unfold p; nia).
  destruct (pixel_div_mod (width c) x y Hx) as [Hdiv Hmod]. fold p in Hdiv, Hmod.
  assert (Ha' : byte_at (data c) (4 * p + 3) = Some a).
  { rewrite <- Ha. f_equal. unfold p. lia. }
  split.
  - replace (p * 4 + 3) with (4 * p + 3) by lia.
    rewrite (Hpix p 3 Hp ltac:(lia)). unfold fadeBody.
    rewrite byte_at_wr, Z.eqb_refl, rd_byte_at, Ha', Hdiv, Hmod. reflexivity.
  - intros k Hk. replace (p * 4 + k) with (4 * p + k) by lia.
    rewrite (Hpix p k Hp ltac:(lia)). unfold fadeBody.
    by rewrite byte_at_wr_ne by lia.
Qed.

(** The two alpha values of the claim, for every width a canvas can have. *)
Definition fadeAlphaLeft (w : Z) : Z :=
  ToUint8Clamp (Math_round (255 * Math_max 0 (1 - Z2F 0 / Z2F w * (100 / 100)))%float).

Definition fadeAlphaRight (w : Z) : Z :=
  ToUint8Clamp (Math_round (255 * Math_max 0 (1 - Z2F (w - 1) / Z2F w * (100 / 100)))%float).

Lemma fadeAlpha_checked (w : Z) :
  0 < w <= 65535 ->
  fadeAlphaLeft w = 255 /\ (fadeAlphaRight w =? 0) = (510 <=? w).
Proof.
  intros Hw.
  assert (Hall : check_range 65536 (fun w =>
            (w =? 0) || ((fadeAlphaLeft w =? 255)
                         && Bool.eqb (fadeAlphaRight w =? 0) (510 <=? w))) = true)
    by (vm_compute; reflexivity).
  pose proof (check_range_spec _ _ Hall w ltac:(lia)) as Hc. cbn beta in Hc.
  destruct (Z.eqb_spec w 0); [lia|]. cbn [orb] in Hc.
  apply andb_true_iff in Hc as [H1 H2].
  split; [by apply Z.eqb_eq|]. by apply Bool.eqb_prop.
Qed.

(** C7 (amended).  With direction 0 and amount 100 on a fully opaque
    buffer, every pixel of the leftmost column keeps alpha 255, and every
    pixel of the rightmost column gets alpha
    [round(255 * max(0, 1 - ((w-1)/w) * 1))]: the gradient position is
    [x / w], which stops short of 1, so the alpha is 0 only from width 510
    on. *)
Theorem gradient_fade_left_right (c : Canvas) (y : Z) :
  wf_canvas c -> width c <= 65535 -> 0 <= y < height c ->
  (forall p, 0 <= p < width c * height c -> byte_at (data c) (4 * p + 3) = Some 255) ->
  let w := width c in
  let out := data (applyGradientFade c 0 100) in
  byte_at out ((y * w + 0) * 4 + 3) = Some 255 /\
  byte_at out ((y * w + (w - 1)) * 4 + 3)
  = Some (ToUint8Clamp
            (Math_round (255 * Math_max 0 (1 - Z2F (w - 1) / Z2F w * (100 / 100)))%float)) /\
  (byte_at out ((y * w + (w - 1)) * 4 + 3) = Some 0 <-> 510 <= w).
Proof.
  intros Hwf Hmax Hy Hop w out. unfold w, out. clear w out.
  pose proof Hwf as (Hw & Hh & _).
  destruct (fadeAlpha_checked (width c) ltac:(lia)) as [Hl Hr].
  assert (Ha : forall x, 0 <= x < width c ->
            byte_at (data c) ((y * width c + x) * 4 + 3) = Some 255).
  { intros x Hx. replace ((y * width c + x) * 4 + 3) with (4 * (y * width c + x) + 3) by lia.
    apply Hop. nia. }
  destruct (applyGradientFade_pixel c 0 100 0 y 255 Hwf ltac:(lia) Hy (Ha 0 ltac:(lia)))
    as [H0 _].
  destruct (applyGradientFade_pixel c 0 100 (width c - 1) y 255 Hwf ltac:(lia) Hy
              (Ha (width c - 1) ltac:(lia))) as [H1 _].
  change (fadePosition 0 (width c) (height c) 0 y) with (Z2F 0 / Z2F (width c))%float in H0.
  change (fadePosition 0 (width c) (height c) (width c - 1) y)
    with (Z2F (width c - 1) / Z2F (width c))%float in H1.
  change (Z2F 255) with 255%float in H0, H1.
  split; [|split].
  - rewrite H0. f_equal. exact Hl.
  - exact H1.
  - rewrite H1. fold (fadeAlphaRight (width c)). split.
    + intros [= Hz]. apply Z.leb_le. rewrite <- Hr. by apply Z.eqb_eq.
    + intros Hge. f_equal. apply Z.eqb_eq. rewrite Hr. by apply Z.leb_le.
Qed.

Lemma red4x4_wf : wf_canvas red4x4.
Proof.
  unfold wf_canvas. cbn. repeat split; try lia.
  repeat (constructor; [lia|]). constructor.
Qed.

Lemma red4x4_opaque p :
  0 <= p < width red4x4 * height red4x4 -> byte_at (data red4x4) (4 * p + 3) = Some 255.
Proof.
  intros Hp. change (width red4x4 * height red4x4) with 16 in Hp.
  assert (p = 0 \/ p = 1 \/ p = 2 \/ p = 3 \/ p = 4 \/ p = 5 \/ p = 6 \/ p = 7 \/ p = 8 \/
          p = 9 \/ p = 10 \/ p = 11 \/ p = 12 \/ p = 13 \/ p = 14 \/ p = 15) as Hcase by lia.
  repeat destruct Hcase as [->|Hcase]; try subst p; reflexivity.
Qed.

Lemma gradient_fade_left_right_witness :
  byte_at (data (applyGradientFade red4x4 0 100)) ((1 * 4 + 0) * 4 + 3) = Some 255 /\
  byte_at (data (applyGradientFade red4x4 0 100)) ((1 * 4 + (4 - 1)) * 4 + 3) = Some 64.
Proof.
  destruct (gradient_fade_left_right red4x4 1 red4x4_wf ltac:(cbn; lia) ltac:(cbn; lia)
              red4x4_opaque) as (Hl & Hr & _).
  split; [exact Hl|]. refine (eq_trans Hr _). vm_compute. reflexivity.
Defined.

(** C7 as stated fails: on the opaque 4x4 buffer the rightmost column ends
    with alpha 64, not 0. *)
Lemma gradient_fade_right_column_counterexample :
  wf_canvas red4x4 /\
  (forall p, 0 <= p < width red4x4 * height red4x4 ->
             byte_at (data red4x4) (4 * p + 3) = Some 255) /\
  byte_at (data (applyGradientFade red4x4 0 100)) ((0 * 4 + 3) * 4 + 3) = Some 64 /\
  byte_at (data (applyGradientFade red4x4 0 100)) ((0 * 4 + 3) * 4 + 3) <> Some 0.
Proof.
  split; [apply red4x4_wf|]. split; [apply red4x4_opaque|].
  assert (H : byte_at (data (applyGradientFade red4x4 0 100)) ((0 * 4 + 3) * 4 + 3) = Some 64)
    by (vm_compute; reflexivity).
  split; [exact H|]. rewrite H. discriminate.
Qed.


(** ** The pipeline *)

(** The two per-layer adjustments that end [processFiltersFromCanvas] and
    [processLayerFilters]. *)
Definition layerAdjustments (globalHueRotate layerSaturation : option float)
    (st : Canvas * nat) : Canvas * nat :=
  let st := if truthy_num globalHueRotate && negb (default nan globalHueRotate =? 0)%float
            then (applyGlobalHueRotate (fst st) (default nan globalHueRotate), snd st)
            else st in
  if match layerSaturation with
     | Some s => negb (s =? 100)%float
     | None => false
     end
  then (applyLayerSaturation (fst st) (default nan layerSaturation), snd st)
  else st.

(** C1.  With the all-default parameter record every gate of the pipeline
    is closed: [applyFilters] returns the canvas [imgToCanvas] rasterised,
    byte for byte, and draws no random number; without [maxSize] that
    canvas is the image drawn at its own size. *)
Theorem applyFilters_default_identity `{JSMath} `{Canvas2D} `{RasterFilters}
    (img : Canvas) (maxSize : option float) (rng : nat) :
  applyFilters img defaultFilters maxSize rng = (imgToCanvas img maxSize, rng) /\
  applyFilters img defaultFilters None rng = (rasterize img (width img) (height img), rng) /\
  data (fst (applyFilters img defaultFilters None rng))
  = data (rasterize img (width img) (height img)).
Proof.
  split; [reflexivity|]. split; reflexivity.
Qed.

(** C9 (amended).  [processFiltersFromCanvas] runs the steps of
    [applyFilters] in the same order on the same rasterised source and
    then the two per-layer adjustments; with the adjustments off (hue
    rotation omitted or 0, saturation omitted or 100) the two entry points
    return the same canvas from the same source and random stream. *)
Theorem processFiltersFromCanvas_applyFilters `{JSMath} `{Canvas2D} `{RasterFilters}
    (src : Canvas) (filters : LayerFilters) (maxSize : option float) (rng : nat) :
  (forall globalHueRotate layerSaturation,
     processFiltersFromCanvas src filters maxSize globalHueRotate layerSaturation rng
     = layerAdjustments globalHueRotate layerSaturation
         (applyFilters src filters maxSize rng)) /\
  processFiltersFromCanvas src filters maxSize None None rng
  = applyFilters src filters maxSize rng /\
  processFiltersFromCanvas src filters maxSize (Some 0%float) (Some 100%float) rng
  = applyFilters src filters maxSize rng.
Proof.
  assert (Hgen : forall globalHueRotate layerSaturation,
     processFiltersFromCanvas src filters maxSize globalHueRotate layerSaturation rng
     = layerAdjustments globalHueRotate layerSaturation
         (applyFilters src filters maxSize rng)).
  { intros ghr ls. unfold processFiltersFromCanvas, applyFilters, imgToCanvas.
    destruct (fitSize (width src) (height src) maxSize) as [w h].
    reflexivity. }
  split; [exact Hgen|]. split.
  - rewrite Hgen. reflexivity.
  - rewrite Hgen. reflexivity.
Qed.

(** Whatever the browser and the random source: with the default filters
    and saturation 0, [processFiltersFromCanvas] desaturates the canvas
    that [applyFilters] returns unchanged. *)
Lemma processFiltersFromCanvas_saturation `{JSMath} `{Canvas2D} `{RasterFilters}
    (src : Canvas) (hue : option float) (rng : nat) :
  truthy_num hue = false ->
  processFiltersFromCanvas src defaultFilters None hue (Some 0%float) rng
  = (applyLayerSaturation (fst (applyFilters src defaultFilters None rng)) 0, rng).
Proof.
  intros Hhue. unfold processFiltersFromCanvas, applyFilters, imgToCanvas.
  cbn [fitSize]. unfold when_ at 23. rewrite Hhue. reflexivity.
Qed.

(** C9 as stated fails: called as the application calls it, with the
    layer's saturation (here 0) after the filter set, on the opaque red
    4x4 buffer and the default filters, [processFiltersFromCanvas] returns
    grey pixels where [applyFilters] returns the red ones. *)
Lemma processFiltersFromCanvas_counterexample :
  data (fst (processFiltersFromCanvas red4x4 defaultFilters None (Some 0%float)
               (Some 0%float) 0))
  = concat (replicate 16 [76; 76; 76; 255]) /\
  data (fst (applyFilters red4x4 defaultFilters None 0))
  = concat (replicate 16 [255; 0; 0; 255]) /\
  fst (processFiltersFromCanvas red4x4 defaultFilters None (Some 0%float) (Some 0%float) 0)
  <> fst (applyFilters red4x4 defaultFilters None 0).
Proof.
  assert (H1 : data (fst (processFiltersFromCanvas red4x4 defaultFilters None (Some 0%float)
               (Some 0%float) 0)) = concat (replicate 16 [76; 76; 76; 255]))
    by (vm_compute; reflexivity).
  assert (H2 : data (fst (applyFilters red4x4 defaultFilters None 0))
               = concat (replicate 16 [255; 0; 0; 255]))
    by (vm_compute; reflexivity).
  split; [exact H1|]. split; [exact H2|].
  intros Heq. rewrite Heq, H2 in H1. discriminate H1.
Qed.


(** ** Perspective transform *)

(** The system is singular at column [k]: the elimination gets through
    the columns before [k], and the largest pivot candidate of column [k]
    is below the threshold. *)
Definition singularAt (A : Matrix) (B : list float) (k : nat) : Prop :=
  let n := Z.of_nat (length B) in
  (k < length B)%nat /\
  exists M, eliminate k (augment A B) n 0 = Some M /\
            (fst (findPivot M n (Z.of_nat k)) <? singularThreshold)%float = true.

Lemma eliminate_app (k j : nat) (M : Matrix) (n col : Z) :
  eliminate (k + j) M n col =
  match eliminate k M n col with
  | None => None
  | Some M' => eliminate j M' n (col + Z.of_nat k)
  end.
Proof.
  revert M col. induction k as [|k IH]; intros M col.
  - cbn [eliminate Nat.add]. f_equal. lia.
  - cbn [eliminate Nat.add]. destruct (findPivot M n col) as [maxVal maxRow].
    destruct (maxVal <? singularThreshold)%float; [reflexivity|].
    rewrite IH. destruct (eliminate k _ n (col + 1)); [|reflexivity].
    f_equal. lia.
Qed.

Lemma eliminate_None (fuel : nat) (M : Matrix) (n col : Z) :
  eliminate fuel M n col = None <->
  exists k M', (k < fuel)%nat /\ eliminate k M n col = Some M' /\
               (fst (findPivot M' n (col + Z.of_nat k)) <? singularThreshold)%float = true.
Proof.
  split.
  - revert M col. induction fuel as [|fuel IH]; intros M col Hn; [discriminate|].
    cbn [eliminate] in Hn. destruct (findPivot M n col) as [maxVal maxRow] eqn:Hp.
    destruct (maxVal <? singularThreshold)%float eqn:Hlt.
    + exists O, M. split; [lia|]. split; [reflexivity|].
      rewrite Z.add_0_r, Hp. exact Hlt.
    + destruct (IH _ _ Hn) as (k & M' & Hk & He & Hs).
      exists (Datatypes.S k), M'. split; [lia|]. split.
      * cbn [eliminate]. rewrite Hp, Hlt. exact He.
      * rewrite <- Hs. do 3 f_equal. lia.
  - intros (k & M' & Hk & He & Hs).
    replace fuel with (k + Datatypes.S (fuel - k - 1))%nat by lia.
    rewrite eliminate_app, He. cbn [eliminate].
    destruct (findPivot M' n (col + Z.of_nat k)) as [maxVal maxRow].
    cbn [fst] in Hs. by rewrite Hs.
Qed.

Lemma solveLinearSystem_None (A : Matrix) (B : list float) :
  solveLinearSystem A B = None <-> exists k, singularAt A B k.
Proof.
  unfold solveLinearSystem, singularAt. cbn zeta.
  rewrite Nat2Z.id. split.
  - destruct (eliminate _ _ _ 0) eqn:He; [discriminate|]. intros _.
    apply eliminate_None in He as (k & M' & Hk & He & Hs).
    exists k. split; [done|]. exists M'. by rewrite Z.add_0_l in Hs.
  - intros (k & Hk & M' & He & Hs).
    assert (Hn : eliminate (length B) (augment A B) (Z.of_nat (length B)) 0 = None).
    { apply eliminate_None. exists k, M'. by rewrite Z.add_0_l. }
    by rewrite Hn.
Qed.

Lemma backSubstitute_length (M : Matrix) (n : Z) :
  length (backSubstitute M n) = Z.to_nat n.
Proof.
  unfold backSubstitute.
  apply (iter_n_inv (fun _ x => length x = Z.to_nat n)).
  - apply length_replicate.
  - intros k x _ Hx. by rewrite length_insert.
Qed.

Lemma perspectiveSystem_total (src dst : list Point) :
  (4 <= length src)%nat -> (4 <= length dst)%nat ->
  exists A B, perspectiveSystem src dst = Some (A, B) /\ length B = 8%nat.
Proof.
  intros Hs Hd. unfold perspectiveSystem. cbn [foldr].
  destruct (lookup_lt_is_Some_2 src 0) as [s0 ->]; [lia|].
  destruct (lookup_lt_is_Some_2 src 1) as [s1 ->]; [lia|].
  destruct (lookup_lt_is_Some_2 src 2) as [s2 ->]; [lia|].
  destruct (lookup_lt_is_Some_2 src 3) as [s3 ->]; [lia|].
  destruct (lookup_lt_is_Some_2 dst 0) as [d0 ->]; [lia|].
  destruct (lookup_lt_is_Some_2 dst 1) as [d1 ->]; [lia|].
  destruct (lookup_lt_is_Some_2 dst 2) as [d2 ->]; [lia|].
  destruct (lookup_lt_is_Some_2 dst 3) as [d3 ->]; [lia|].
  eexists _, _. split; reflexivity.
Qed.

(** A quadrilateral collapsed to a point, and the square of side 10. *)
Definition collapsedQuad : list Point :=
  [mkPoint 3 3; mkPoint 3 3; mkPoint 3 3; mkPoint 3 3].

Definition square10 : list Point :=
  [mkPoint 0 0; mkPoint 10 0; mkPoint 10 10; mkPoint 0 10].

(** C4.  Given four source and four destination points,
    [computePerspectiveTransform] always returns a matrix of nine entries
    (no exception reaches the caller); the solver reports a singular
    system exactly when, at some column, the partial-pivoting search finds
    no pivot of magnitude 1e-10 or more, and then the matrix returned is
    the identity [1,0,0,0,1,0,0,0,1]. *)
Theorem perspective_singular_identity (src dst : list Point) :
  (4 <= length src)%nat -> (4 <= length dst)%nat ->
  exists A B,
    perspectiveSystem src dst = Some (A, B) /\ length B = 8%nat /\
    (exists m, computePerspectiveTransform src dst = Some m /\ length m = 9%nat) /\
    (solveLinearSystem A B = None <-> exists k, singularAt A B k) /\
    ((exists k, singularAt A B k) ->
     computePerspectiveTransform src dst = Some [1; 0; 0; 0; 1; 0; 0; 0; 1]%float).
Proof.
  intros Hs Hd. destruct (perspectiveSystem_total src dst Hs Hd) as (A & B & Hsys & HB).
  exists A, B. split; [done|]. split; [done|].
  split; [|split; [apply solveLinearSystem_None|]].
  - unfold computePerspectiveTransform. rewrite Hsys.
    destruct (solveLinearSystem A B) as [result|] eqn:Hsolve.
    + eexists. split; [reflexivity|]. rewrite length_app. cbn [length].
      unfold solveLinearSystem in Hsolve.
      destruct (eliminate _ _ _ 0) as [M|]; [|discriminate].
      injection Hsolve as <-. rewrite backSubstitute_length, Nat2Z.id, HB. reflexivity.
    + eexists. split; reflexivity.
  - intros Hsing. apply solveLinearSystem_None in Hsing.
    unfold computePerspectiveTransform. by rewrite Hsys, Hsing.
Qed.

Lemma perspective_singular_identity_witness :
  computePerspectiveTransform collapsedQuad square10 = Some identity3x3.
Proof.
  destruct (perspective_singular_identity collapsedQuad square10
              ltac:(cbn; lia) ltac:(cbn; lia))
    as (A & B & Hsys & _ & _ & _ & Hid).
  apply Hid. injection Hsys as <- <-.
  exists 1%nat. split; [cbn; lia|]. eexists. split; [vm_compute; reflexivity|].
  vm_compute. reflexivity.
Defined.


(** ** Motion blur *)







(** Between slider positions the bound [-radius/N <= t] can fail by one
    rounding: at radius 2.9 the first offset is just below [-(2.9 / 6)].
    The span is therefore stated at the slider positions. *)
Lemma motion_span_rounding :
  motionSteps 2.9 = 6%float /\
  (motionT 2.9 0 <? - (2.9 / 6))%float = true.
Proof. vm_compute. split; reflexivity. Qed.







(** ** Warp mesh *)

(** Bilinear interpolation of the four corner positions at [(tx, ty)], as
    the specification words it: along the top and bottom edges at [tx],
    then between the two at [ty], for both coordinates. *)
Definition bilinear_spec (tx ty : float) (p00 p10 p01 p11 : Point) : Point :=
  let x0 := (pt_x p00 * (1 - tx) + pt_x p10 * tx)%float in
  let x1 := (pt_x p01 * (1 - tx) + pt_x p11 * tx)%float in
  let y0 := (pt_y p00 * (1 - tx) + pt_y p10 * tx)%float in
  let y1 := (pt_y p01 * (1 - tx) + pt_y p11 * tx)%float in
  mkPoint (x0 * (1 - ty) + x1 * ty)%float (y0 * (1 - ty) + y1 * ty)%float.

(** The x coordinate of the source's [bilinear] is the bilinear one; its y
    coordinate interpolates the edges at [ty] instead of [tx]. *)
Lemma bilinear_x_agrees tx ty p00 p10 p01 p11 :
  pt_x (bilinear tx ty p00 p10 p01 p11) = pt_x (bilinear_spec tx ty p00 p10 p01 p11) /\
  pt_y (bilinear tx ty p00 p10 p01 p11) = pt_y (bilinear_spec ty ty p00 p10 p01 p11).
Proof. split; reflexivity. Qed.

(** The loop body of [applyWarpMesh] at pixel number [p]. *)
Definition warpBody (mesh : Mesh) (w h : Z) (src : list Z) (p : Z) (dst : list Z) : list Z :=
  let '(sx, sy) := meshSample mesh w h (p mod w) (p / w) in
  if (0 <=? sx)%float && (sx <? Z2F w)%float && (0 <=? sy)%float && (sy <? Z2F h)%float
  then
    let si := ((sy * Z2F w + sx) * 4)%float in
    let dst := wr dst (4 * p) (rdF src si) in
    let dst := wr dst (4 * p + 1) (rdF src (si + 1)%float) in
    let dst := wr dst (4 * p + 2) (rdF src (si + 2)%float) in
    wr dst (4 * p + 3) (rdF src (si + 3)%float)
  else wr dst (4 * p + 3) 0.

Lemma warpBody_local mesh w h src : pixel_local (warpBody mesh w h src).
Proof.
  unfold warpBody. split; [|split].
  - intros p d. destruct (meshSample _ _ _ _ _) as [sx sy].
    destruct (_ && _); by rewrite ?length_wr.
  - intros p d j Hj. destruct (meshSample _ _ _ _ _) as [sx sy].
    destruct (_ && _); by rewrite ?byte_at_wr_ne by lia.
  - intros p d d' Hag c Hc. destruct (meshSample _ _ _ _ _) as [sx sy].
    pose proof (Hag 0 ltac:(lia)) as Hag0; pose proof (Hag 1 ltac:(lia)) as Hag1;
    pose proof (Hag 2 ltac:(lia)) as Hag2; pose proof (Hag 3 ltac:(lia)) as Hag3.
    rewrite ?Z.add_0_r in *.
    assert (c = 0 \/ c = 1 \/ c = 2 \/ c = 3) as [->|[->|[->| ->]]] by lia;
      rewrite ?Z.add_0_r;
      destruct (_ && _); rewrite ?byte_at_wr; simpl_eqb;
      rewrite ?Hag0, ?Hag1, ?Hag2, ?Hag3; reflexivity.
Qed.

Lemma applyWarpMesh_loop (c : Canvas) (mesh : Mesh) :
  0 < width c -> 0 <= height c ->
  data (applyWarpMesh c mesh) =
  iter_n (Z.to_nat (width c * height c)) 0 1
    (warpBody mesh (width c) (height c) (data c)) (zeros (len (data c))).
Proof.
  intros Hw Hh. unfold applyWarpMesh. cbn [data].
  rewrite (pixel_loop_2d (width c) (height c)
     (fun dy dx dst =>
        let '(sx, sy) := meshSample mesh (width c) (height c) dx dy in
        let di := (dy * width c + dx) * 4 in
        if (0 <=? sx)%float && (sx <? Z2F (width c))%float
           && (0 <=? sy)%float && (sy <? Z2F (height c))%float
        then
          let si := ((sy * Z2F (width c) + sx) * 4)%float in
          let dst := wr dst di (rdF (data c) si) in
          let dst := wr dst (di + 1) (rdF (data c) (si + 1)%float) in
          let dst := wr dst (di + 2) (rdF (data c) (si + 2)%float) in
          wr dst (di + 3) (rdF (data c) (si + 3)%float)
        else wr dst (di + 3) 0)) by lia.
  apply iter_n_ext. intros k s' _. unfold warpBody.
  set (p := 0 + 1 * Z.of_nat k).
  replace ((p / width c * width c + p mod width c) * 4) with (4 * p); [reflexivity|].
  pose proof (Z.div_mod p (width c) ltac:(lia)). lia.
Qed.

Lemma byte_at_zeros n j : 0 <= j < n -> byte_at (zeros n) j = Some 0.
Proof.
  intros Hj. unfold byte_at, zeros. destruct (Z.ltb_spec j 0); [lia|].
  apply lookup_replicate_2. lia.
Qed.

(** What [applyWarpMesh] does at destination pixel [(dx, dy)]: it copies
    the four bytes found at the rounded sample coordinate when that lies
    in the buffer, and leaves the pixel fully transparent otherwise. *)
Lemma applyWarpMesh_pixel (c : Canvas) (mesh : Mesh) (dx dy : Z) :
  wf_canvas c -> 0 <= dx < width c -> 0 <= dy < height c ->
  let w := width c in
  let h := height c in
  let out := data (applyWarpMesh c mesh) in
  let di := (dy * w + dx) * 4 in
  let '(sx, sy) := meshSample mesh w h dx dy in
  let si := ((sy * Z2F w + sx) * 4)%float in
  if (0 <=? sx)%float && (sx <? Z2F w)%float && (0 <=? sy)%float && (sy <? Z2F h)%float
  then
    byte_at out di = Some (ToUint8Clamp (rdF (data c) si)) /\
    byte_at out (di + 1) = Some (ToUint8Clamp (rdF (data c) (si + 1)%float)) /\
    byte_at out (di + 2) = Some (ToUint8Clamp (rdF (data c) (si + 2)%float)) /\
    byte_at out (di + 3) = Some (ToUint8Clamp (rdF (data c) (si + 3)%float))
  else
    byte_at out di = Some 0 /\ byte_at out (di + 1) = Some 0 /\
    byte_at out (di + 2) = Some 0 /\ byte_at out (di + 3) = Some 0.
Proof.
  intros (Hw & Hh & Hlen & Hb) Hx Hy. cbn zeta.
  rewrite applyWarpMesh_loop by lia.
  destruct (pixel_loop_spec _ (Z.to_nat (width c * height c)) (zeros (len (data c)))
              (warpBody_local mesh (width c) (height c) (data c))) as (_ & Hpix & _).
  set (p := dy * width c + dx).
  assert (Hp : 0 <= p < Z.of_nat (Z.to_nat (width c * height c))) by (unfold p; nia).
  destruct (pixel_div_mod (width c) dx dy Hx) as [Hdiv Hmod]. fold p in Hdiv, Hmod.
  destruct (meshSample mesh (width c) (height c) dx dy) as [sx sy] eqn:Hs.
  assert (Hz : forall j, 0 <= j < 4 -> byte_at (zeros (len (data c))) (4 * p + j) = Some 0).
  { intros j Hj. apply byte_at_zeros. unfold p. nia. }
  pose proof (Hz 0 ltac:(lia)) as Hz0. rewrite Z.add_0_r in Hz0.
  pose proof (Hpix p 0 Hp ltac:(lia)) as H0. rewrite Z.add_0_r in H0.
  pose proof (Hpix p 1 Hp ltac:(lia)) as H1.
  pose proof (Hpix p 2 Hp ltac:(lia)) as H2.
  pose proof (Hpix p 3 Hp ltac:(lia)) as H3.
  replace (p * 4) with (4 * p) by lia.
  rewrite H0, H1, H2, H3. unfold warpBody. rewrite Hdiv, Hmod, Hs.
  destruct (_ && _); rewrite ?byte_at_wr; simpl_eqb;
    rewrite ?Hz0, ?(Hz 1), ?(Hz 2), ?(Hz 3) by lia; repeat split; reflexivity.
Qed.

(** The four bytes of pixel [(x, y)]. *)
Definition pixel_at (c : Canvas) (x y : Z) : list (option Z) :=
  map (fun k => byte_at (data c) ((y * width c + x) * 4 + k)) [0; 1; 2; 3].

(** An example.  On the 4x4 buffer with the 2x2 mesh whose top-right control point
    is pulled down to [(4, 2)], destination pixel [(2, 0)] lies in cell
    [(0, 0)] at fractional position [(0.5, 0)].  Bilinear interpolation of
    the four corner positions there is [(2, 1)]; the source's [bilinear]
    interpolates the y coordinate of the edges at [ty] instead of [tx] and
    returns [(2, 0)], so [applyWarpMesh] copies source pixel [(2, 0)] where
    the bilinear patch samples [(2, 1)]. *)
Theorem warp_mesh_bilinear_divergence :
  meshCell skewMesh 4 4 2 0 = (0, 0, 0.5, 0)%float /\
  bilinear_spec 0.5 0 (mkPoint 0 0) (mkPoint 4 2) (mkPoint 0 4) (mkPoint 4 4) = mkPoint 2 1 /\
  bilinear 0.5 0 (mkPoint 0 0) (mkPoint 4 2) (mkPoint 0 4) (mkPoint 4 4) = mkPoint 2 0 /\
  meshSample skewMesh 4 4 2 0 = (2, 0)%float /\
  pixel_at (applyWarpMesh grid4x4 skewMesh) 2 0 = [Some 20; Some 0; Some 7; Some 255] /\
  pixel_at grid4x4 2 0 = [Some 20; Some 0; Some 7; Some 255] /\
  pixel_at grid4x4 2 1 = [Some 20; Some 10; Some 7; Some 255].
Proof. vm_compute. repeat split. Qed.

(** C8.  [applyWarpMesh] finds the cell and the fractional position of
    the pixel as stated, but its [bilinear] is not the bilinear
    interpolation of the four corner positions: the y coordinate of the
    top and bottom edges is interpolated at [ty] where it should be at
    [tx].  On the 6x6 buffer under the editor's 4x4 mesh with one control
    point dragged down, destination pixel [(1, 0)] lies in cell [(0, 0)]
    at fractional position [(0.5, 0)]; bilinear interpolation of the
    corners there is [(1, 1)], the source's [bilinear] returns [(1, 0)],
    and [applyWarpMesh] copies source pixel [(1, 0)] where the bilinear
    patch samples [(1, 1)]. *)
Theorem warp_mesh_not_bilinear :
  meshCell draggedMesh 6 6 1 0 = (0, 0, 0.5, 0)%float /\
  bilinear_spec 0.5 0 (mkPoint 0 0) (mkPoint 2 2) (mkPoint 0 2) (mkPoint 2 2) = mkPoint 1 1 /\
  bilinear 0.5 0 (mkPoint 0 0) (mkPoint 2 2) (mkPoint 0 2) (mkPoint 2 2) = mkPoint 1 0 /\
  meshSample draggedMesh 6 6 1 0 = (1, 0)%float /\
  pixel_at (applyWarpMesh grid6x6 draggedMesh) 1 0 = [Some 10; Some 0; Some 7; Some 255] /\
  pixel_at grid6x6 1 0 = [Some 10; Some 0; Some 7; Some 255] /\
  pixel_at grid6x6 1 1 = [Some 10; Some 10; Some 7; Some 255].
Proof. vm_compute. repeat split. Qed.


(** ** Stroke *)

(** *** Masks *)

Lemma mask_at_set m i j v :
  mask_at (mask_set m i v) j =
  if i =? j then match mask_at m i with
                 | Some _ => Some v
                 | None => None
                 end
  else mask_at m j.
Proof.
  unfold mask_at, mask_set.
  destruct (Z.eqb_spec i j) as [->|Hne].
  - destruct (Z.ltb_spec j 0); [done|].
    destruct (m !! Z.to_nat j) eqn:Hl.
    + apply list_lookup_insert_eq. by apply lookup_lt_Some in Hl.
    + rewrite list_insert_ge; [done|]. by apply lookup_ge_None.
  - destruct (Z.ltb_spec j 0); [done|].
    destruct (Z.ltb_spec i 0); [done|].
    apply list_lookup_insert_ne. lia.
Qed.

Lemma length_mask_set m i v : length (mask_set m i v) = length m.
Proof. unfold mask_set. destruct (i <? 0); [done|]. by rewrite length_insert. Qed.

Lemma mask_at_zeros n j : mask_at (zeros n) j = if (0 <=? j) && (j <? n) then Some 0 else None.
Proof.
  unfold mask_at, zeros.
  destruct (Z.ltb_spec j 0); [by destruct (Z.leb_spec 0 j); [lia|]|].
  destruct (Z.leb_spec 0 j); [|lia]. cbn [andb].
  destruct (Z.ltb_spec j n).
  - apply lookup_replicate_2. lia.
  - apply lookup_replicate_None. lia.
Qed.

Lemma mask_at_Some_range m i v : mask_at m i = Some v -> 0 <= i < Z.of_nat (length m).
Proof.
  unfold mask_at. destruct (Z.ltb_spec i 0); [done|].
  intros Hl. apply lookup_lt_Some in Hl. lia.
Qed.

Lemma mask_at_in_range m i :
  0 <= i < Z.of_nat (length m) -> exists v, mask_at m i = Some v.
Proof.
  intros Hi. unfold mask_at. destruct (Z.ltb_spec i 0); [lia|].
  destruct (lookup_lt_is_Some_2 m (Z.to_nat i)) as [v Hv]; [lia|]. eauto.
Qed.

Lemma truthy_Some_range m i : truthy (mask_at m i) = true -> 0 <= i < Z.of_nat (length m).
Proof.
  destruct (mask_at m i) eqn:Hm; [|done]. intros _. by apply mask_at_Some_range in Hm.
Qed.

(** Loops whose rounds know their index. *)
Lemma for_to_inv_idx {S : Type} (P : S -> Prop) lo hi (body : Z -> S -> S) s :
  P s -> (forall i s', lo <= i < hi -> P s' -> P (body i s')) -> P (for_to lo hi body s).
Proof.
  intros H0 Hstep. rewrite for_to_iter.
  apply (iter_n_inv (fun _ => P)); [done|].
  intros k s' Hk HP. apply Hstep; [lia|done].
Qed.

(** *** Pixels, opacity, distance *)

(** The alpha byte of pixel number [i] is above the threshold 128. *)
Definition opaque_px (c : Canvas) (i : Z) : Prop :=
  exists a, byte_at (data c) (i * 4 + 3) = Some a /\ 128 < a.

Definition transparent_px (c : Canvas) (i : Z) : Prop :=
  exists a, byte_at (data c) (i * 4 + 3) = Some a /\ a <= 128.

Definition in_grid (w h : Z) (p : Z * Z) : Prop :=
  0 <= fst p < w /\ 0 <= snd p < h.

(** 4-neighbours. *)
Definition adj4 (p q : Z * Z) : Prop :=
  (fst q = fst p - 1 /\ snd q = snd p) \/ (fst q = fst p + 1 /\ snd q = snd p) \/
  (fst q = fst p /\ snd q = snd p - 1) \/ (fst q = fst p /\ snd q = snd p + 1).

(** [within4 w h k p q]: a 4-connected path of at most [k] steps leads
    from [p] to [q] inside the [w] by [h] grid. *)
Inductive within4 (w h : Z) : nat -> Z * Z -> Z * Z -> Prop :=
| within4_here k p : in_grid w h p -> within4 w h k p p
| within4_step k p q r :
    in_grid w h p -> adj4 p q -> within4 w h k q r -> within4 w h (Datatypes.S k) p r.

Lemma within4_mono w h k p q : within4 w h k p q -> within4 w h (Datatypes.S k) p q.
Proof.
  induction 1 as [k p Hp|k p q r Hp Hadj Hq IH].
  - by apply within4_here.
  - by apply (within4_step w h _ p q r).
Qed.

Lemma within4_le w h k k' p q : (k <= k')%nat -> within4 w h k p q -> within4 w h k' p q.
Proof.
  induction 1 as [|k' Hle IH]; [done|]. intros Hk. by apply within4_mono, IH.
Qed.

(** Such a path bounds the city-block distance. *)
Lemma within4_manhattan w h k p q :
  within4 w h k p q ->
  Z.abs (fst p - fst q) + Z.abs (snd p - snd q) <= Z.of_nat k.
Proof.
  induction 1 as [k p Hp|k p q r Hp Hadj Hq IH]; [lia|].
  destruct p as [px py], q as [qx qy], r as [rx ry]. unfold adj4 in Hadj. cbn in *. lia.
Qed.

(** Pixel [(x, y)] is within [k] steps of a pixel whose number is in [T]. *)
Definition near_xy (w h : Z) (T : Z -> Prop) (k : nat) (x y : Z) : Prop :=
  in_grid w h (x, y) /\
  exists x' y', in_grid w h (x', y') /\ T (y' * w + x') /\ within4 w h k (x, y) (x', y').

(** The same of pixel number [i]. *)
Definition near (w h : Z) (T : Z -> Prop) (k : nat) (i : Z) : Prop :=
  exists x y, i = y * w + x /\ near_xy w h T k x y.

Lemma near_xy_le w h T k k' x y :
  (k <= k')%nat -> near_xy w h T k x y -> near_xy w h T k' x y.
Proof.
  intros Hle (Hg & x' & y' & Hg' & HT & Hw).
  split; [done|]. exists x', y'. split; [done|]. split; [done|].
  by apply (within4_le _ _ k).
Qed.

Lemma near_le w h T k k' i : (k <= k')%nat -> near w h T k i -> near w h T k' i.
Proof.
  intros Hle (x & y & Hi & Hn). exists x, y. split; [done|]. by apply (near_xy_le _ _ _ k).
Qed.

Lemma near_xy_step w h T k x y nx ny :
  near_xy w h T k x y -> in_grid w h (nx, ny) -> adj4 (nx, ny) (x, y) ->
  near_xy w h T (Datatypes.S k) nx ny.
Proof.
  intros (Hg & x' & y' & Hg' & HT & Hw) Hn Hadj.
  split; [done|]. exists x', y'. split; [done|]. split; [done|].
  by apply (within4_step _ _ _ (nx, ny) (x, y)).
Qed.

(** A pixel of [T] is near [T] at distance 0; its neighbours at 1. *)
Lemma near_xy_here w h (T : Z -> Prop) k x y :
  in_grid w h (x, y) -> T (y * w + x) -> near_xy w h T k x y.
Proof.
  intros Hg HT. split; [done|]. exists x, y. split; [done|]. split; [done|].
  by apply within4_here.
Qed.

Lemma near_at w h T k x y :
  0 <= x < w -> near w h T k (y * w + x) -> near_xy w h T k x y.
Proof.
  intros Hx (x0 & y0 & Hi & Hn). pose proof Hn as ([Hx0 _] & _). cbn [fst] in Hx0.
  destruct (pixel_div_mod w x y Hx) as [Hd Hm].
  destruct (pixel_div_mod w x0 y0 Hx0) as [Hd0 Hm0].
  rewrite Hi in Hd, Hm. assert (Hy : y = y0) by lia. assert (Hxx : x = x0) by lia.
  rewrite Hy, Hxx. exact Hn.
Qed.

(** *** The alpha mask *)

Lemma byte_gt128 b : 0 <= b <= 255 -> (128 <? Z2F b)%float = (128 <? b).
Proof.
  intros Hb.
  assert (Hall : check_range 256 (fun b => Bool.eqb (128 <? Z2F b)%float (128 <? b)) = true)
    by (vm_compute; reflexivity).
  apply Bool.eqb_prop. apply (check_range_spec _ _ Hall). lia.
Qed.

Lemma wf_byte c i :
  wf_canvas c -> 0 <= i < 4 * (width c * height c) ->
  exists a, byte_at (data c) i = Some a /\ 0 <= a <= 255.
Proof.
  intros (Hw & Hh & Hlen & Hb) Hi.
  destruct (byte_at_Some (data c) i) as [a Ha]; [lia|].
  exists a. split; [done|].
  unfold byte_at in Ha. destruct (Z.ltb_spec i 0); [lia|].
  exact (Forall_lookup_1 _ _ _ _ Hb Ha).
Qed.

(** The mask holds 1 exactly at the opaque pixels. *)
Definition mask_of (c : Canvas) (alpha : list Z) : Prop :=
  length alpha = Z.to_nat (width c * height c) /\
  forall i, 0 <= i < width c * height c ->
    (mask_at alpha i = Some 1 /\ opaque_px c i) \/
    (mask_at alpha i = Some 0 /\ transparent_px c i).

Lemma alphaMask_spec (c : Canvas) :
  wf_canvas c -> mask_of c (fst (alphaMask c)).
Proof.
  intros Hwf. pose proof Hwf as (Hw & Hh & Hlen & Hb).
  unfold alphaMask. set (total := width c * height c).
  rewrite for_to_iter, Z.sub_0_r.
  assert (Hinv :
    let st := iter_n (Z.to_nat total) 0 1
      (fun i '(alpha, hasTransparency) =>
         let a := if (128 <? rd (data c) (i * 4 + 3))%float then 1 else 0 in
         let alpha := mask_set alpha i a in
         if negb (truthy (mask_at alpha i)) && (0 <? Z.rem i (width c))
            && (Z.rem i (width c) <? width c - 1)
            && (0 <? i / width c) && (i / width c <? height c - 1)
         then (alpha, true) else (alpha, hasTransparency))
      (zeros total, false) in
    length (fst st) = Z.to_nat total /\
    forall i, 0 <= i < Z.of_nat (Z.to_nat total) ->
      (mask_at (fst st) i = Some 1 /\ opaque_px c i) \/
      (mask_at (fst st) i = Some 0 /\ transparent_px c i)).
  { cbn zeta.
    apply (iter_n_inv (fun k st =>
      length (fst st) = Z.to_nat total /\
      forall i, 0 <= i < Z.of_nat k ->
        (mask_at (fst st) i = Some 1 /\ opaque_px c i) \/
        (mask_at (fst st) i = Some 0 /\ transparent_px c i))).
    - cbn [fst]. split; [apply length_zeros|]. intros; lia.
    - intros k [alpha flag] Hk [IHl IHi]. cbn [fst] in IHl, IHi.
      replace (0 + 1 * Z.of_nat k) with (Z.of_nat k) by lia.
      set (i0 := Z.of_nat k). cbn zeta.
      set (a := if (128 <? rd (data c) (i0 * 4 + 3))%float then 1 else 0).
      assert (Hfst : forall b1 b2 : bool,
                fst (if b1 then (mask_set alpha i0 a, true)
                     else (mask_set alpha i0 a, b2)) = mask_set alpha i0 a)
        by (by intros [] ?).
      rewrite Hfst. split; [by rewrite length_mask_set|].
      intros i Hi. rewrite mask_at_set.
      destruct (Z.eqb_spec i0 i) as [<-|Hne]; [|apply IHi; lia].
      destruct (mask_at_in_range alpha i0) as [v ->]; [unfold i0; lia|].
      destruct (wf_byte c (i0 * 4 + 3) Hwf) as (b & Hbyte & Hrange);
        [unfold i0, total in *; lia|].
      unfold a. rewrite rd_byte_at, Hbyte, byte_gt128 by done.
      destruct (Z.ltb_spec 128 b).
      + left. split; [done|]. by exists b.
      + right. split; [done|]. by exists b. }
  cbn zeta in Hinv. destruct Hinv as [Hl Hi]. split; [exact Hl|].
  intros i Hrange. apply Hi. unfold total. lia.
Qed.

Lemma mask_truthy_opaque c alpha j :
  mask_of c alpha -> truthy (mask_at alpha j) = true ->
  0 <= j < width c * height c /\ opaque_px c j.
Proof.
  intros [Hl Hm] Ht. pose proof (truthy_Some_range _ _ Ht) as Hr.
  assert (Hj : 0 <= j < width c * height c) by lia.
  split; [done|]. destruct (Hm j Hj) as [[_ Ho]|[Hz _]]; [done|].
  by rewrite Hz in Ht.
Qed.

Lemma mask_falsy_transparent c alpha j :
  mask_of c alpha -> 0 <= j < width c * height c ->
  truthy (mask_at alpha j) = false -> transparent_px c j.
Proof.
  intros [Hl Hm] Hj Ht. destruct (Hm j Hj) as [[Ho _]|[_ Hz]]; [|done].
  by rewrite Ho in Ht.
Qed.

Lemma opaque_not_transparent c i : opaque_px c i -> transparent_px c i -> False.
Proof. intros (a & Ha & Hgt) (a' & Ha' & Hle). rewrite Ha in Ha'. injection Ha' as <-. lia. Qed.

(** *** The edge maps *)

(** Every marked pixel of [m] is within [k] steps of a pixel of [T]. *)
Definition marks_near (w h : Z) (T : Z -> Prop) (k : nat) (m : list Z) : Prop :=
  length m = Z.to_nat (w * h) /\
  forall i, truthy (mask_at m i) = true -> near w h T k i.

Lemma marks_near_le w h T k k' m :
  (k <= k')%nat -> marks_near w h T k m -> marks_near w h T k' m.
Proof.
  intros Hle [Hl Hm]. split; [done|]. intros i Hi. apply (near_le _ _ _ k); [done|].
  by apply Hm.
Qed.

Lemma marks_near_zeros w h T k : marks_near w h T k (zeros (w * h)).
Proof.
  split; [apply length_zeros|]. intros i. rewrite mask_at_zeros.
  by destruct (_ && _).
Qed.

Lemma marks_near_set w h T k m x y :
  marks_near w h T k m -> near_xy w h T k x y ->
  marks_near w h T k (mask_set m (y * w + x) 1).
Proof.
  intros [Hl Hm] Hn. split; [by rewrite length_mask_set|].
  intros i. rewrite mask_at_set. destruct (Z.eqb_spec (y * w + x) i) as [<-|Hne].
  - intros _. by exists x, y.
  - apply Hm.
Qed.

Section EdgeMaps.
Variable c : Canvas.
Variable alpha : list Z.
Hypothesis Hwf : wf_canvas c.
Hypothesis Hmask : mask_of c alpha.

Let w := width c.
Let h := height c.

(** An interior pixel with an opaque (or transparent) 4-neighbour. *)
Lemma neighbour_near (T : Z -> Prop) (x y : Z) :
  1 <= x < w - 1 -> 1 <= y < h - 1 ->
  T (y * w + x - 1) \/ T (y * w + x + 1) \/ T (y * w + x - w) \/ T (y * w + x + w) ->
  near_xy w h T 1 x y.
Proof.
  intros Hx Hy HT.
  assert (Hg : in_grid w h (x, y)) by (unfold in_grid; cbn; lia).
  assert (Hstep : forall x' y', in_grid w h (x', y') -> adj4 (x, y) (x', y') ->
                    T (y' * w + x') -> near_xy w h T 1 x y).
  { intros x' y' Hg' Hadj HT'. split; [done|]. exists x', y'.
    split; [done|]. split; [done|].
    apply (within4_step _ _ _ (x, y) (x', y')); [done|done|]. by apply within4_here. }
  destruct HT as [HT|[HT|[HT|HT]]].
  - apply (Hstep (x - 1) y); [unfold in_grid; cbn; lia|unfold adj4; cbn; lia|].
    by replace (y * w + (x - 1)) with (y * w + x - 1) by lia.
  - apply (Hstep (x + 1) y); [unfold in_grid; cbn; lia|unfold adj4; cbn; lia|].
    by replace (y * w + (x + 1)) with (y * w + x + 1) by lia.
  - apply (Hstep x (y - 1)); [unfold in_grid; cbn; lia|unfold adj4; cbn; lia|].
    by replace ((y - 1) * w + x) with (y * w + x - w) by lia.
  - apply (Hstep x (y + 1)); [unfold in_grid; cbn; lia|unfold adj4; cbn; lia|].
    by replace ((y + 1) * w + x) with (y * w + x + w) by lia.
Qed.

Lemma interior_range x y :
  1 <= x < w - 1 -> 1 <= y < h - 1 ->
  0 <= y * w + x - w /\ y * w + x + w < w * h.
Proof. intros Hx Hy. nia. Qed.

Lemma edgeMaps_spec :
  marks_near w h (transparent_px c) 1 (fst (edgeMaps w h alpha)) /\
  marks_near w h (opaque_px c) 1 (snd (edgeMaps w h alpha)).
Proof.
  unfold edgeMaps.
  apply (for_to_inv_idx (fun edges : list Z * list Z =>
           marks_near w h (transparent_px c) 1 (fst edges) /\
           marks_near w h (opaque_px c) 1 (snd edges))).
  { cbn [fst snd]. split; apply marks_near_zeros. }
  intros y edges Hy HP. cbn zeta.
  apply (for_to_inv_idx (fun edges : list Z * list Z =>
           marks_near w h (transparent_px c) 1 (fst edges) /\
           marks_near w h (opaque_px c) 1 (snd edges))); [done|].
  intros x [ie oe] Hx [Hi Ho]. cbn [fst snd] in Hi, Ho.
  pose proof (interior_range x y Hx Hy) as Hr.
  set (idx := y * w + x).
  destruct (truthy (mask_at alpha idx)) eqn:Ha.
  - destruct (_ || _) eqn:Hn; cbn [fst snd]; [|done].
    split; [|done]. apply marks_near_set; [done|].
    apply neighbour_near; [done|done|]. fold idx.
    rewrite !orb_true_iff, !negb_true_iff in Hn.
    destruct Hn as [[[Hn|Hn]|Hn]|Hn];
      [left|right; left|right; right; left|right; right; right];
      (apply (mask_falsy_transparent c alpha); [done|fold w h; unfold idx in *; lia|done]).
  - destruct (_ || _) eqn:Hn; cbn [fst snd]; [|done].
    split; [done|]. apply marks_near_set; [done|].
    apply neighbour_near; [done|done|]. fold idx.
    rewrite !orb_true_iff in Hn.
    destruct Hn as [[[Hn|Hn]|Hn]|Hn];
      [left|right; left|right; right; left|right; right; right];
      by apply (mask_truthy_opaque c alpha).
Qed.
End EdgeMaps.

(** *** The dilation *)

Lemma fold_left_inv {A B : Type} (P : A -> Prop) (f : A -> B -> A) (l : list B) (s : A) :
  P s -> (forall s' x, In x l -> P s' -> P (f s' x)) -> P (fold_left f l s).
Proof.
  revert s. induction l as [|x l IH]; intros s H0 Hstep; [done|].
  cbn [fold_left]. apply IH.
  - apply Hstep; [by left|done].
  - intros s' x' Hin. apply Hstep. by right.
Qed.

Section Dilate.
Variables w h : Z.
Variable T : Z -> Prop.
Variable mask : list Z.
Variable matchVal : Z.
Hypothesis Hw : 0 < w <= 65536.
Hypothesis Hh : 0 < h <= 65536.

(** Every pixel of the frontier is within [k] steps of [T]. *)
Definition frontier_near (k : nat) (frontier : list (Z * Z)) : Prop :=
  Forall (fun f => near_xy w h T k (fst f) (snd f)) frontier.

Lemma frontier_near_push k frontier x y :
  frontier_near k frontier -> near_xy w h T k x y ->
  frontier_near k (frontier ++ [(u16 x, u16 y)]).
Proof.
  intros Hf Hn. apply Forall_app. split; [done|]. apply Forall_singleton.
  pose proof Hn as ([Hx Hy] & _). cbn [fst snd] in *.
  unfold u16. by rewrite !Z.mod_small by lia.
Qed.

Lemma expandFrontier_spec k result frontier :
  marks_near w h T k result -> frontier_near k frontier ->
  marks_near w h T (Datatypes.S k) (fst (expandFrontier w h mask matchVal result frontier)) /\
  frontier_near (Datatypes.S k) (snd (expandFrontier w h mask matchVal result frontier)).
Proof.
  intros Hr Hf. unfold expandFrontier.
  apply (fold_left_inv (fun st : list Z * list (Z * Z) =>
           marks_near w h T (Datatypes.S k) (fst st) /\
           frontier_near (Datatypes.S k) (snd st))).
  { cbn [fst snd]. split; [by apply (marks_near_le _ _ _ k); [lia|]|]. apply Forall_nil_2. }
  intros [r nf] [fx fy] Hin HP.
  assert (Hfn : near_xy w h T k fx fy).
  { unfold frontier_near in Hf. rewrite List.Forall_forall in Hf. apply (Hf _ Hin). }
  pose proof Hfn as ([Hfx Hfy] & _). cbn [fst snd] in Hfx, Hfy.
  apply (fold_left_inv (fun st : list Z * list (Z * Z) =>
           marks_near w h T (Datatypes.S k) (fst st) /\
           frontier_near (Datatypes.S k) (snd st))); [exact HP|].
  intros [r2 nf2] [nx ny] Hin2 [Hr2 Hf2]. cbn [fst snd] in Hr2, Hf2.
  destruct ((0 <=? nx) && (nx <? w) && (0 <=? ny) && (ny <? h)) eqn:Hb; [|done].
  cbn zeta.
  destruct (negb (truthy (mask_at r2 (ny * w + nx))) && mask_is mask (ny * w + nx) matchVal);
    [|done].
  rewrite !andb_true_iff in Hb. destruct Hb as [[[Hb1 Hb2] Hb3] Hb4].
  assert (Hn : near_xy w h T (Datatypes.S k) nx ny).
  { apply (near_xy_step _ _ _ _ fx fy); [done|unfold in_grid; cbn; lia|].
    unfold adj4. cbn [fst snd].
    destruct Hin2 as [E|[E|[E|[E|[]]]]]; injection E as <- <-; lia. }
  cbn [fst snd]. split; [by apply marks_near_set|by apply frontier_near_push].
Qed.

Lemma dilateRounds_spec n k result frontier :
  marks_near w h T k result -> frontier_near k frontier ->
  marks_near w h T (k + n) (dilateRounds n w h mask matchVal result frontier).
Proof.
  revert k result frontier. induction n as [|n IH]; intros k result frontier Hr Hf.
  - cbn [dilateRounds]. by rewrite Nat.add_0_r.
  - cbn [dilateRounds].
    destruct (expandFrontier_spec k result frontier Hr Hf) as [Hr' Hf'].
    destruct (expandFrontier w h mask matchVal result frontier) as [r' f'].
    cbn [fst snd] in Hr', Hf'.
    destruct f' as [|f0 f'].
    + apply (marks_near_le _ _ _ (Datatypes.S k)); [lia|done].
    + replace (k + Datatypes.S n)%nat with (Datatypes.S k + n)%nat by lia.
      by apply IH.
Qed.

Lemma dilate_spec width edge :
  marks_near w h T 1 edge ->
  marks_near w h T (1 + strokeRounds width (w * h)) (dilate w h width edge mask matchVal).
Proof.
  intros He. unfold dilate. cbn zeta.
  apply dilateRounds_spec; [done|].
  apply (for_to_inv_idx (frontier_near 1)); [apply Forall_nil_2|].
  intros y fr Hy Hfr.
  apply (for_to_inv_idx (frontier_near 1)); [done|].
  intros x fr' Hx Hfr'.
  destruct (truthy (mask_at edge (y * w + x))) eqn:Ht; [|done].
  apply frontier_near_push; [done|].
  apply near_at; [lia|]. destruct He as [_ He]. by apply He.
Qed.
End Dilate.


(** ** Colour maps *)

Lemma byte_at_None d j : j < 0 \/ len d <= j -> byte_at d j = None.
Proof.
  intros Hj. unfold byte_at, len in *. destruct (Z.ltb_spec j 0); [done|].
  apply lookup_ge_None. lia.
Qed.

Lemma byte_at_ext d d' : (forall j, byte_at d j = byte_at d' j) -> d = d'.
Proof.
  intros Hb. apply list_eq. intros i. specialize (Hb (Z.of_nat i)).
  unfold byte_at in Hb. destruct (Z.ltb_spec (Z.of_nat i) 0); [lia|].
  by rewrite Nat2Z.id in Hb.
Qed.

Lemma putImageData_data c : putImageData c (data c) = c.
Proof. by destruct c. Qed.

(** The shape of most filters of the catalogue: the three colour bytes of
    a pixel are replaced by a function of themselves. *)
Definition colourBody (f : float -> float -> float -> float * float * float)
    (i : Z) (data : list Z) : list Z :=
  let '(r, g, b) := f (rd data i) (rd data (i + 1)) (rd data (i + 2)) in
  wr (wr (wr data i r) (i + 1) g) (i + 2) b.

Lemma colourBody_local f : pixel_local (fun p => colourBody f (4 * p)).
Proof.
  unfold colourBody. split; [|split].
  - intros p d. destruct (f _ _ _) as [[r g] b]. by rewrite !length_wr.
  - intros p d j Hj. destruct (f _ _ _) as [[r g] b].
    by rewrite !byte_at_wr_ne by lia.
  - intros p d d' Hag c Hc.
    pose proof (Hag 0 ltac:(lia)) as Hag0. pose proof (Hag 1 ltac:(lia)) as Hag1.
    pose proof (Hag 2 ltac:(lia)) as Hag2. pose proof (Hag 3 ltac:(lia)) as Hag3.
    rewrite Z.add_0_r in Hag0.
    rewrite (rd_ext d d' (4 * p) Hag0), (rd_ext d d' (4 * p + 1) Hag1),
      (rd_ext d d' (4 * p + 2) Hag2).
    destruct (f _ _ _) as [[r g] b].
    rewrite !byte_at_wr.
    assert (c = 0 \/ c = 1 \/ c = 2 \/ c = 3) as [->|[->|[->| ->]]] by lia;
      rewrite ?Z.add_0_r; simpl_eqb;
      rewrite ?byte_at_wr; simpl_eqb; rewrite ?byte_at_wr; simpl_eqb;
      rewrite ?Hag0, ?Hag1, ?Hag2, ?Hag3; reflexivity.
Qed.

(** What a colour map does to a buffer: the length and every alpha byte
    stay, and the colour bytes of a whole pixel are the stored values of
    [f] at that pixel. *)
Lemma colour_loop_spec f d :
  let d' := for_range 0 (len d) 4 (colourBody f) d in
  length d' = length d /\
  (forall j, j mod 4 = 3 -> byte_at d' j = byte_at d j) /\
  (forall p, 0 <= p -> 4 * p + 2 < len d ->
     byte_at d' (4 * p) =
       Some (ToUint8Clamp (f (rd d (4 * p)) (rd d (4 * p + 1)) (rd d (4 * p + 2))).1.1) /\
     byte_at d' (4 * p + 1) =
       Some (ToUint8Clamp (f (rd d (4 * p)) (rd d (4 * p + 1)) (rd d (4 * p + 2))).1.2) /\
     byte_at d' (4 * p + 2) =
       Some (ToUint8Clamp (f (rd d (4 * p)) (rd d (4 * p + 1)) (rd d (4 * p + 2))).2)).
Proof.
  destruct (data_loop_spec (colourBody f) d (colourBody_local f)) as [Hl Hp].
  cbn zeta in *. split; [exact Hl|]. split.
  - intros j Hj.
    destruct (Z.lt_ge_cases j 0) as [Hneg|Hpos].
    { by rewrite !byte_at_None by lia. }
    set (p := j / 4).
    assert (Hjp : j = 4 * p + 3) by (pose proof (Z.div_mod j 4 ltac:(lia)); lia).
    assert (Hp0 : 0 <= p) by (apply Z.div_pos; lia).
    clearbody p. subst j.
    destruct (Z.lt_ge_cases (4 * p) (len d)) as [Hin|Hout].
    + rewrite Hp by lia.
      unfold colourBody. destruct (f _ _ _) as [[r g] b].
      by rewrite !byte_at_wr_ne by lia.
    + rewrite !byte_at_None; [done|right; lia|]. right. unfold len in *. lia.
  - intros p Hp0 Hlt.
    replace (4 * p) with (4 * p + 0) at 1 by lia.
    rewrite !Hp by lia. rewrite Z.add_0_r.
    unfold colourBody. destruct (f _ _ _) as [[r g] b]. cbn [fst snd].
    destruct (byte_at_Some d (4 * p)) as [b0 Hb0]; [lia|].
    destruct (byte_at_Some d (4 * p + 1)) as [b1 Hb1]; [lia|].
    destruct (byte_at_Some d (4 * p + 2)) as [b2 Hb2]; [lia|].
    rewrite !byte_at_wr. simpl_eqb. by rewrite Hb0, Hb1, Hb2.
Qed.

(** A loop body that is a colour map in disguise. *)
Lemma colour_loop_ext f (body : Z -> list Z -> list Z) d :
  (forall i s, body i s = colourBody f i s) ->
  for_range 0 (len d) 4 body d = for_range 0 (len d) 4 (colourBody f) d.
Proof. intros Hb. unfold for_range. apply iter_n_ext. intros k s _. apply Hb. Qed.

(** *** The filters as colour maps *)

Definition invertMap (r g b : float) : float * float * float :=
  ((255 - r)%float, (255 - g)%float, (255 - b)%float).

Lemma applyInvert_map c :
  applyInvert c = putImageData c (for_range 0 (len (data c)) 4 (colourBody invertMap) (data c)).
Proof.
  unfold applyInvert. f_equal. apply colour_loop_ext. intros i s.
  unfold colourBody, invertMap. by rewrite !rd_wr_ne by lia.
Qed.

Definition brightnessContrastMap (brightness contrast : float) (r g b : float) :=
  let f := contrastFactor contrast in
  (clamp255 (f * (r - 128) + 128 + brightness)%float,
   clamp255 (f * (g - 128) + 128 + brightness)%float,
   clamp255 (f * (b - 128) + 128 + brightness)%float).

Lemma applyBrightnessContrast_map c brightness contrast :
  applyBrightnessContrast c brightness contrast =
  putImageData c (for_range 0 (len (data c)) 4
                    (colourBody (brightnessContrastMap brightness contrast)) (data c)).
Proof.
  unfold applyBrightnessContrast. cbn zeta. f_equal. apply colour_loop_ext. intros i s.
  unfold colourBody, brightnessContrastMap. cbn zeta. by rewrite !rd_wr_ne by lia.
Qed.

Definition posterizeMap (levels : float) (r g b : float) :=
  let step := (255 / (levels - 1))%float in
  (Math_round (Math_round (r / step) * step)%float,
   Math_round (Math_round (g / step) * step)%float,
   Math_round (Math_round (b / step) * step)%float).

Lemma applyPosterize_map c levels :
  applyPosterize c levels =
  putImageData c (for_range 0 (len (data c)) 4 (colourBody (posterizeMap levels)) (data c)).
Proof.
  unfold applyPosterize. cbn zeta. f_equal. apply colour_loop_ext. intros i s.
  unfold colourBody, posterizeMap. cbn zeta. by rewrite !rd_wr_ne by lia.
Qed.

Definition hueSatTempMap (hueShift satShift tempShift : float) (r g b : float) :=
  let sF := (1 + satShift / 100)%float in
  let '(r, b) :=
    if negb (tempShift =? 0)%float then
      (clamp255 (r + tempShift * 0.8)%float, clamp255 (b - tempShift * 0.8)%float)
    else (r, b) in
  let '(h, s, l) := rgbToHsl r g b in
  let newH := (h + hueShift)%float in
  let newS := Math_max 0 (Math_min 1 (s * sF)%float) in
  hslToRgb newH newS l.

Lemma applyHueSatTemp_map c hueShift satShift tempShift :
  applyHueSatTemp c hueShift satShift tempShift =
  putImageData c (for_range 0 (len (data c)) 4
                    (colourBody (hueSatTempMap hueShift satShift tempShift)) (data c)).
Proof.
  unfold applyHueSatTemp. cbn zeta. f_equal. apply colour_loop_ext. intros i s.
  unfold colourBody, hueSatTempMap. cbn zeta.
  destruct (if negb (tempShift =? 0)%float then _ else _) as [r b].
  destruct (rgbToHsl _ _ _) as [[h sat] l]. reflexivity.
Qed.

Section LevelsMap.
Context `{JSMath}.

Definition levelsMap (black white gamma : float) (mono : bool) (r g b : float) :=
  let lut := levelsLUT black white gamma in
  if mono then
    let gray := Math_round (r * 0.299 + g * 0.587 + b * 0.114)%float in
    let v := rd_at lut gray in (v, v, v)
  else (rd_at lut r, rd_at lut g, rd_at lut b).

Lemma applyLevels_map c black white gamma mono :
  applyLevels c black white gamma mono =
  putImageData c (for_range 0 (len (data c)) 4
                    (colourBody (levelsMap black white gamma mono)) (data c)).
Proof.
  unfold applyLevels. cbn zeta. f_equal. apply colour_loop_ext. intros i s.
  unfold colourBody, levelsMap. cbn zeta. destruct mono; [reflexivity|].
  by rewrite !rd_wr_ne by lia.
Qed.
End LevelsMap.

Definition layerSaturationMap (saturation : float) (r g b : float) :=
  let factor := (saturation / 100)%float in
  let gray := (0.299 * r + 0.587 * g + 0.114 * b)%float in
  (clamp255 (gray + (r - gray) * factor)%float,
   clamp255 (gray + (g - gray) * factor)%float,
   clamp255 (gray + (b - gray) * factor)%float).

Lemma applyLayerSaturation_map c saturation :
  (saturation =? 100)%float = false ->
  applyLayerSaturation c saturation =
  putImageData c (for_range 0 (len (data c)) 4
                    (colourBody (layerSaturationMap saturation)) (data c)).
Proof.
  intros Hs. unfold applyLayerSaturation. rewrite Hs. reflexivity.
Qed.

Definition globalHueRotateMap (degrees : float) (r g b : float) :=
  let '(h, s, l) := rgbToHsl r g b in
  hslToRgb (h + degrees)%float s l.

Lemma applyGlobalHueRotate_map c degrees :
  (degrees =? 0)%float = false ->
  applyGlobalHueRotate c degrees =
  putImageData c (for_range 0 (len (data c)) 4
                    (colourBody (globalHueRotateMap degrees)) (data c)).
Proof.
  intros Hs. unfold applyGlobalHueRotate. rewrite Hs. f_equal.
  apply colour_loop_ext. intros i s. unfold colourBody, globalHueRotateMap.
  destruct (rgbToHsl _ _ _) as [[h sat] l]. reflexivity.
Qed.

Definition colorSeparationMap (levR levG levB mix : float) (r g b : float) :=
  let stepR := (255 / (levR - 1))%float in
  let stepG := (255 / (levG - 1))%float in
  let stepB := (255 / (levB - 1))%float in
  let m := mix in
  let m1 := (1 - m)%float in
  let sr := Math_round (Math_round (r / stepR) * stepR)%float in
  let sg := Math_round (Math_round (g / stepG) * stepG)%float in
  let sb := Math_round (Math_round (b / stepB) * stepB)%float in
  (Math_round (r * m1 + sr * m)%float, Math_round (g * m1 + sg * m)%float,
   Math_round (b * m1 + sb * m)%float).

Lemma applyColorSeparation_map c levR levG levB mix :
  (mix <=? 0)%float = false ->
  applyColorSeparation c levR levG levB mix =
  putImageData c (for_range 0 (len (data c)) 4
                    (colourBody (colorSeparationMap levR levG levB mix)) (data c)).
Proof.
  intros Hs. unfold applyColorSeparation. rewrite Hs. cbn zeta. f_equal.
  apply colour_loop_ext. intros i s. unfold colourBody, colorSeparationMap. cbn zeta.
  by rewrite !rd_wr_ne by lia.
Qed.

Definition channelShiftsMap (rg yb pc : float) (r g b : float) :=
  let '(r, g) :=
    if negb (rg =? 0)%float then
      let shift := (rg * 1.27)%float in
      (clamp255 (r + shift)%float, clamp255 (g - shift)%float)
    else (r, g) in
  let '(r, g, b) :=
    if negb (yb =? 0)%float then
      let shift := (yb * 1.27)%float in
      (clamp255 (r + shift * 0.5)%float, clamp255 (g + shift * 0.5)%float,
       clamp255 (b - shift)%float)
    else (r, g, b) in
  if negb (pc =? 0)%float then
    let shift := (pc * 1.27)%float in
    (clamp255 (r + shift * 0.5)%float, clamp255 (g - shift)%float,
     clamp255 (b + shift * 0.5)%float)
  else (r, g, b).

Lemma applyChannelShifts_map c rg yb pc :
  (rg =? 0)%float && (yb =? 0)%float && (pc =? 0)%float = false ->
  applyChannelShifts c rg yb pc =
  putImageData c (for_range 0 (len (data c)) 4
                    (colourBody (channelShiftsMap rg yb pc)) (data c)).
Proof.
  intros Hs. unfold applyChannelShifts. rewrite Hs. f_equal.
  apply colour_loop_ext. intros i s. unfold colourBody, channelShiftsMap. cbn zeta.
  destruct (if negb (rg =? 0)%float then _ else _) as [r g].
  destruct (if negb (yb =? 0)%float then _ else _) as [[r' g'] b'].
  destruct (if negb (pc =? 0)%float then _ else _) as [[r'' g''] b'']. reflexivity.
Qed.


(** ** Pixels of a well-formed canvas *)

(** The four bytes of pixel number [p]. *)
Definition rgba (c : Canvas) (p : Z) : option (Z * Z * Z * Z) :=
  match byte_at (data c) (4 * p), byte_at (data c) (4 * p + 1),
        byte_at (data c) (4 * p + 2), byte_at (data c) (4 * p + 3) with
  | Some r, Some g, Some b, Some a => Some (r, g, b, a)
  | _, _, _, _ => None
  end.

(** [c'] has the size and the alpha channel of [c]. *)
Definition same_alpha (c c' : Canvas) : Prop :=
  width c' = width c /\ height c' = height c /\
  length (data c') = length (data c) /\
  forall j, j mod 4 = 3 -> byte_at (data c') j = byte_at (data c) j.

Definition colourMapped (f : float -> float -> float -> float * float * float)
    (c : Canvas) : Canvas :=
  putImageData c (for_range 0 (len (data c)) 4 (colourBody f) (data c)).

(** What a colour map makes of a pixel. *)
Definition mapPixel (f : float -> float -> float -> float * float * float)
    (q : Z * Z * Z * Z) : Z * Z * Z * Z :=
  let '(r, g, b, a) := q in
  let '(r', g', b') := f (Z2F r) (Z2F g) (Z2F b) in
  (ToUint8Clamp r', ToUint8Clamp g', ToUint8Clamp b', a).

Lemma same_alpha_refl c : same_alpha c c.
Proof. by unfold same_alpha. Qed.

Lemma colourMapped_same_alpha f c : same_alpha c (colourMapped f c).
Proof.
  destruct (colour_loop_spec f (data c)) as (Hl & Ha & _). cbn zeta in *.
  unfold same_alpha, colourMapped, putImageData. cbn [width height data].
  split; [done|]. split; [done|]. split; [exact Hl|exact Ha].
Qed.

Lemma colourMapped_wf f c : wf_canvas c -> wf_canvas (colourMapped f c).
Proof.
  intros (Hw & Hh & Hlen & Hb).
  destruct (colour_loop_spec f (data c)) as (Hl & _ & _). cbn zeta in *.
  unfold wf_canvas, colourMapped, putImageData. cbn [width height data].
  split; [done|]. split; [done|]. split.
  - unfold len in *. by rewrite Hl.
  - apply (for_range_inv bytes); [done|]. intros i s Hs. unfold colourBody.
    destruct (f _ _ _) as [[r g] b]. by repeat apply bytes_wr.
Qed.

Lemma wf_rgba c p :
  wf_canvas c -> 0 <= p < width c * height c ->
  exists r g b a, rgba c p = Some (r, g, b, a) /\
    0 <= r <= 255 /\ 0 <= g <= 255 /\ 0 <= b <= 255 /\ 0 <= a <= 255.
Proof.
  intros Hwf Hp. unfold rgba.
  destruct (wf_byte c (4 * p) Hwf) as (r & -> & Hr); [lia|].
  destruct (wf_byte c (4 * p + 1) Hwf) as (g & -> & Hg); [lia|].
  destruct (wf_byte c (4 * p + 2) Hwf) as (b & -> & Hb); [lia|].
  destruct (wf_byte c (4 * p + 3) Hwf) as (a & -> & Ha); [lia|].
  by exists r, g, b, a.
Qed.

Lemma rgba_Some c p r g b a :
  rgba c p = Some (r, g, b, a) ->
  byte_at (data c) (4 * p) = Some r /\ byte_at (data c) (4 * p + 1) = Some g /\
  byte_at (data c) (4 * p + 2) = Some b /\ byte_at (data c) (4 * p + 3) = Some a.
Proof.
  unfold rgba.
  destruct (byte_at _ (4 * p)); [|done]. destruct (byte_at _ (4 * p + 1)); [|done].
  destruct (byte_at _ (4 * p + 2)); [|done]. destruct (byte_at _ (4 * p + 3)); [|done].
  by intros [= -> -> -> ->].
Qed.

Lemma colourMapped_rgba f c p q :
  0 <= p -> rgba c p = Some q -> rgba (colourMapped f c) p = Some (mapPixel f q).
Proof.
  intros Hp Hq. destruct q as [[[r g] b] a].
  apply rgba_Some in Hq as (Hr & Hg & Hb & Ha).
  destruct (colour_loop_spec f (data c)) as (_ & Halpha & Hcol). cbn zeta in *.
  pose proof (byte_at_range _ _ _ Hb) as Hrange.
  destruct (Hcol p Hp ltac:(lia)) as (H0 & H1 & H2).
  unfold rgba, colourMapped, putImageData. cbn [data].
  rewrite H0, H1, H2, Halpha, Ha.
  2: { rewrite Z.add_comm, Z.mul_comm, Z.mod_add by lia. reflexivity. }
  rewrite !rd_byte_at, Hr, Hg, Hb. unfold mapPixel.
  clear. destruct (f _ _ _) as [[r' g'] b']. reflexivity.
Qed.

(** Two well-formed canvases of one size with the same pixels are equal. *)
Lemma canvas_ext c c' :
  wf_canvas c -> wf_canvas c' -> width c' = width c -> height c' = height c ->
  (forall p, 0 <= p < width c * height c -> rgba c' p = rgba c p) ->
  c' = c.
Proof.
  intros Hwf Hwf' Hw Hh Hpx.
  destruct c as [w h d], c' as [w' h' d']. cbn [width height] in *. subst w' h'.
  f_equal. apply byte_at_ext. intros j.
  pose proof Hwf as (Hw0 & Hh0 & Hlen & _). pose proof Hwf' as (_ & _ & Hlen' & _).
  cbn [width height data] in *.
  destruct (Z.lt_ge_cases j 0) as [Hneg|Hpos]; [by rewrite !byte_at_None by lia|].
  destruct (Z.lt_ge_cases j (4 * (w * h))) as [Hin|Hout];
    [|by rewrite !byte_at_None by lia].
  set (p := j / 4).
  assert (Hjp : j = 4 * p + j mod 4) by (apply Z.div_mod; lia).
  assert (Hp : 0 <= p < w * h)
    by (pose proof (Z.mod_pos_bound j 4 ltac:(lia)); lia).
  pose proof (Z.mod_pos_bound j 4 ltac:(lia)) as Hm.
  specialize (Hpx p Hp).
  destruct (wf_rgba (mkCanvas w h d) p Hwf Hp) as (r & g & b & a & Hq & _).
  rewrite Hq in Hpx.
  apply rgba_Some in Hq as (Hr & Hg & Hb & Ha).
  apply rgba_Some in Hpx as (Hr' & Hg' & Hb' & Ha').
  cbn [data] in *. rewrite Hjp.
  assert (j mod 4 = 0 \/ j mod 4 = 1 \/ j mod 4 = 2 \/ j mod 4 = 3)
    as [->|[->|[->| ->]]] by lia; rewrite ?Z.add_0_r; congruence.
Qed.

(** ** Conversions of bytes *)

Lemma byte_store_read b : 0 <= b <= 255 -> ToUint8Clamp (Z2F b) = b.
Proof.
  intros Hb.
  assert (Hall : check_range 256 (fun b => ToUint8Clamp (Z2F b) =? b) = true)
    by (vm_compute; reflexivity).
  apply Z.eqb_eq. apply (check_range_spec _ _ Hall). lia.
Qed.

(** Well-formedness, decided. *)
Definition wf_canvasb (c : Canvas) : bool :=
  (0 <? width c) && (0 <? height c) && (len (data c) =? 4 * (width c * height c))
  && forallb (fun b => (0 <=? b) && (b <=? 255)) (data c).

Lemma wf_canvasb_spec c : wf_canvasb c = true -> wf_canvas c.
Proof.
  unfold wf_canvasb, wf_canvas. rewrite !andb_true_iff.
  intros [[[Hw Hh] Hl] Hb]. split; [lia|]. split; [lia|]. split; [lia|].
  apply List.Forall_forall. intros b Hin.
  rewrite forallb_forall in Hb. specialize (Hb b Hin). lia.
Qed.

(** A colour map that treats the three channels alike and separately. *)
Lemma mapPixel_channelwise f (k : float -> float) r g b a :
  (forall x y z, f x y z = (k x, k y, k z)) ->
  mapPixel f (r, g, b, a) =
  (ToUint8Clamp (k (Z2F r)), ToUint8Clamp (k (Z2F g)), ToUint8Clamp (k (Z2F b)), a).
Proof. intros Hf. unfold mapPixel. by rewrite Hf. Qed.

Lemma applyInvert_mapped c : applyInvert c = colourMapped invertMap c.
Proof. apply applyInvert_map. Qed.

Lemma applyBrightnessContrast_mapped c brightness contrast :
  applyBrightnessContrast c brightness contrast
  = colourMapped (brightnessContrastMap brightness contrast) c.
Proof. apply applyBrightnessContrast_map. Qed.

Lemma applyPosterize_mapped c levels :
  applyPosterize c levels = colourMapped (posterizeMap levels) c.
Proof. apply applyPosterize_map. Qed.

Lemma applyLevels_mapped `{JSMath} c black white gamma mono :
  applyLevels c black white gamma mono = colourMapped (levelsMap black white gamma mono) c.
Proof. apply applyLevels_map. Qed.


(** ** The per-pixel filters *)

(** X1.  Brightness/contrast, posterize, invert and levels rewrite colour
    bytes only: whatever the parameters (NaN included) and whatever the
    buffer, the result has the size of the input and the same byte at
    every alpha position. *)
Theorem tonal_filters_keep_alpha `{JSMath} (c : Canvas)
    (brightness contrast levels black white gamma : float) (mono : bool) :
  same_alpha c (applyBrightnessContrast c brightness contrast) /\
  same_alpha c (applyPosterize c levels) /\
  same_alpha c (applyInvert c) /\
  same_alpha c (applyLevels c black white gamma mono).
Proof.
  rewrite applyBrightnessContrast_map, applyPosterize_map, applyInvert_map,
    applyLevels_map.
  split; [|split; [|split]]; apply colourMapped_same_alpha.
Qed.

(** X2.  Hue/saturation/temperature, layer saturation, global hue
    rotation, colour separation and the channel shifts likewise keep the
    size and every alpha byte, for all parameter values. *)
Theorem colour_filters_keep_alpha (c : Canvas)
    (hueShift satShift tempShift saturation degrees : float)
    (levR levG levB mix rg yb pc : float) :
  same_alpha c (applyHueSatTemp c hueShift satShift tempShift) /\
  same_alpha c (applyLayerSaturation c saturation) /\
  same_alpha c (applyGlobalHueRotate c degrees) /\
  same_alpha c (applyColorSeparation c levR levG levB mix) /\
  same_alpha c (applyChannelShifts c rg yb pc).
Proof.
  split; [|split; [|split; [|split]]].
  - rewrite applyHueSatTemp_map. apply colourMapped_same_alpha.
  - destruct (saturation =? 100)%float eqn:Hs.
    + unfold applyLayerSaturation. rewrite Hs. apply same_alpha_refl.
    + rewrite applyLayerSaturation_map by done. apply colourMapped_same_alpha.
  - destruct (degrees =? 0)%float eqn:Hs.
    + unfold applyGlobalHueRotate. rewrite Hs. apply same_alpha_refl.
    + rewrite applyGlobalHueRotate_map by done. apply colourMapped_same_alpha.
  - destruct (mix <=? 0)%float eqn:Hs.
    + unfold applyColorSeparation. rewrite Hs. apply same_alpha_refl.
    + rewrite applyColorSeparation_map by done. apply colourMapped_same_alpha.
  - destruct ((rg =? 0)%float && (yb =? 0)%float && (pc =? 0)%float) eqn:Hs.
    + unfold applyChannelShifts. rewrite Hs. apply same_alpha_refl.
    + rewrite applyChannelShifts_map by done. apply colourMapped_same_alpha.
Qed.

(** *** Invert *)

Lemma invert_byte_twice b :
  0 <= b <= 255 ->
  ToUint8Clamp (255 - Z2F (ToUint8Clamp (255 - Z2F b)))%float = b.
Proof.
  intros Hb.
  assert (Hall : check_range 256 (fun b =>
            ToUint8Clamp (255 - Z2F (ToUint8Clamp (255 - Z2F b)))%float =? b) = true)
    by (vm_compute; reflexivity).
  apply Z.eqb_eq. apply (check_range_spec _ _ Hall). lia.
Qed.

(** A colour map that fixes every pixel fixes the canvas. *)
Lemma colourMapped_fixed f c :
  wf_canvas c ->
  (forall r g b a, 0 <= r <= 255 -> 0 <= g <= 255 -> 0 <= b <= 255 ->
     mapPixel f (r, g, b, a) = (r, g, b, a)) ->
  colourMapped f c = c.
Proof.
  intros Hwf Hfix.
  apply canvas_ext; [done|by apply colourMapped_wf|done|done|].
  intros p Hp. destruct (wf_rgba c p Hwf Hp) as (r & g & b & a & Hq & Hr & Hg & Hb & _).
  rewrite (colourMapped_rgba f c p _ ltac:(lia) Hq), Hq. f_equal. by apply Hfix.
Qed.

(** Two colour maps in a row. *)
Lemma colourMapped_twice f g c :
  wf_canvas c ->
  (forall r gr b a, 0 <= r <= 255 -> 0 <= gr <= 255 -> 0 <= b <= 255 ->
     mapPixel g (mapPixel f (r, gr, b, a)) = mapPixel f (r, gr, b, a)) ->
  colourMapped g (colourMapped f c) = colourMapped f c.
Proof.
  intros Hwf Hfix.
  apply canvas_ext; [by apply colourMapped_wf|by do 2 apply colourMapped_wf|done|done|].
  intros p Hp. change (0 <= p < width c * height c) in Hp.
  destruct (wf_rgba c p Hwf Hp) as (r & gr & b & a & Hq & Hr & Hg & Hb & _).
  pose proof (colourMapped_rgba f c p _ ltac:(lia) Hq) as Hq1.
  rewrite (colourMapped_rgba g _ p _ ltac:(lia) Hq1), Hq1. f_equal. by apply Hfix.
Qed.

(** X3.  Inverting twice gives the buffer back, byte for byte. *)
Theorem invert_involution (c : Canvas) :
  wf_canvas c -> applyInvert (applyInvert c) = c.
Proof.
  intros Hwf. rewrite !applyInvert_mapped.
  apply canvas_ext; [done|by do 2 apply colourMapped_wf|done|done|].
  intros p Hp. destruct (wf_rgba c p Hwf Hp) as (r & g & b & a & Hq & Hr & Hg & Hb & _).
  pose proof (colourMapped_rgba invertMap c p _ ltac:(lia) Hq) as Hq1.
  rewrite (colourMapped_rgba invertMap _ p _ ltac:(lia) Hq1), Hq. f_equal.
  unfold mapPixel, invertMap. by rewrite !invert_byte_twice.
Qed.

Lemma invert_involution_witness : applyInvert (applyInvert grid4x4) = grid4x4.
Proof. apply invert_involution. apply wf_canvasb_spec. vm_compute. reflexivity. Defined.

(** *** Brightness / contrast *)

Lemma brightness_contrast_neutral_byte b :
  0 <= b <= 255 ->
  ToUint8Clamp (clamp255 (contrastFactor 0 * (Z2F b - 128) + 128 + 0)%float) = b.
Proof.
  intros Hb.
  assert (Hall : check_range 256 (fun b =>
            ToUint8Clamp (clamp255 (contrastFactor 0 * (Z2F b - 128) + 128 + 0)%float)
            =? b) = true)
    by (vm_compute; reflexivity).
  apply Z.eqb_eq. apply (check_range_spec _ _ Hall). lia.
Qed.

(** X4.  Brightness 0 with contrast 0 is the neutral adjustment: the
    contrast factor is exactly 1 and every byte is stored back as it
    was. *)
Theorem brightness_contrast_neutral (c : Canvas) :
  wf_canvas c -> applyBrightnessContrast c 0 0 = c.
Proof.
  intros Hwf. rewrite applyBrightnessContrast_mapped.
  apply (colourMapped_fixed (brightnessContrastMap 0 0) c Hwf).
  intros r g b a Hr Hg Hb. unfold mapPixel, brightnessContrastMap. cbn zeta.
  by rewrite !brightness_contrast_neutral_byte.
Qed.

Lemma brightness_contrast_neutral_witness : applyBrightnessContrast grid4x4 0 0 = grid4x4.
Proof.
  apply brightness_contrast_neutral. apply wf_canvasb_spec. vm_compute. reflexivity.
Defined.

(** *** Posterize *)

(** What posterize stores for the byte [b], and the [k]-th level. *)
Definition posterizeByte (levels : float) (b : Z) : Z :=
  let step := (255 / (levels - 1))%float in
  ToUint8Clamp (Math_round (Math_round (Z2F b / step) * step)%float).

Definition posterizeLevel (levels : float) (k : Z) : Z :=
  let step := (255 / (levels - 1))%float in
  ToUint8Clamp (Math_round (Z2F k * step)%float).

Lemma posterize_pixel levels r g b a :
  mapPixel (posterizeMap levels) (r, g, b, a) =
  (posterizeByte levels r, posterizeByte levels g, posterizeByte levels b, a).
Proof. reflexivity. Qed.

(** At every position [L = 2 .. 32] of the slider and for every byte:
    the stored byte is one of the [L] levels and is stored back as it
    is. *)
Definition posterizeOk (L : Z) : bool :=
  let lv := map (fun k => posterizeLevel (Z2F L) (Z.of_nat k)) (seq 0 (Z.to_nat L)) in
  check_range 256 (fun b =>
    let v := posterizeByte (Z2F L) b in
    existsb (Z.eqb v) lv && (posterizeByte (Z2F L) v =? v)).

Lemma posterize_checked L b :
  2 <= L <= 32 -> 0 <= b <= 255 ->
  (exists k, 0 <= k < L /\ posterizeByte (Z2F L) b = posterizeLevel (Z2F L) k) /\
  posterizeByte (Z2F L) (posterizeByte (Z2F L) b) = posterizeByte (Z2F L) b.
Proof.
  intros HL Hb.
  assert (Hall : check_range 33 (fun L => (L <? 2) || posterizeOk L) = true)
    by (vm_compute; reflexivity).
  pose proof (check_range_spec _ _ Hall L ltac:(lia)) as HcL. cbn beta in HcL.
  destruct (Z.ltb_spec L 2); [lia|]. cbn [orb] in HcL.
  unfold posterizeOk in HcL. cbn zeta in HcL.
  pose proof (check_range_spec _ _ HcL b ltac:(lia)) as Hcb. cbn beta in Hcb.
  apply andb_true_iff in Hcb as [Hex Hfix]. split; [|by apply Z.eqb_eq].
  apply existsb_exists in Hex as (v & Hin & Hv).
  apply in_map_iff in Hin as (k & <- & Hk). apply in_seq in Hk.
  exists (Z.of_nat k). split; [lia|]. by apply Z.eqb_eq.
Qed.

(** X5.  Posterize with [L] levels ([L = 2 .. 32], the slider's
    positions that posterize) leaves at most [L] values per channel:
    every colour byte of the result is [round(k * 255 / (L - 1))] for
    some [k] in [0, L), and alpha is kept. *)
Theorem posterize_level_set (c : Canvas) (L p : Z) :
  wf_canvas c -> 2 <= L <= 32 -> 0 <= p < width c * height c ->
  exists r g b a kr kg kb,
    rgba (applyPosterize c (Z2F L)) p = Some (r, g, b, a) /\
    byte_at (data c) (4 * p + 3) = Some a /\
    (0 <= kr < L /\ r = ToUint8Clamp (Math_round (Z2F kr * (255 / (Z2F L - 1)))%float)) /\
    (0 <= kg < L /\ g = ToUint8Clamp (Math_round (Z2F kg * (255 / (Z2F L - 1)))%float)) /\
    (0 <= kb < L /\ b = ToUint8Clamp (Math_round (Z2F kb * (255 / (Z2F L - 1)))%float)).
Proof.
  intros Hwf HL Hp.
  destruct (wf_rgba c p Hwf Hp) as (r & g & b & a & Hq & Hr & Hg & Hb & _).
  destruct (posterize_checked L r HL Hr) as [(kr & Hkr & Er) _].
  destruct (posterize_checked L g HL Hg) as [(kg & Hkg & Eg) _].
  destruct (posterize_checked L b HL Hb) as [(kb & Hkb & Eb) _].
  exists (posterizeByte (Z2F L) r), (posterizeByte (Z2F L) g), (posterizeByte (Z2F L) b),
    a, kr, kg, kb.
  split.
  { rewrite applyPosterize_mapped.
    rewrite (colourMapped_rgba (posterizeMap (Z2F L)) c p _ ltac:(lia) Hq).
    by rewrite posterize_pixel. }
  split; [by apply rgba_Some in Hq as (_ & _ & _ & Ha)|].
  split; [split; [done|exact Er]|]. split; [split; [done|exact Eg]|].
  split; [done|exact Eb].
Qed.

Lemma posterize_level_set_witness :
  exists r g b a kr kg kb,
    rgba (applyPosterize grid4x4 (Z2F 4)) 5 = Some (r, g, b, a) /\
    byte_at (data grid4x4) (4 * 5 + 3) = Some a /\
    (0 <= kr < 4 /\ r = ToUint8Clamp (Math_round (Z2F kr * (255 / (Z2F 4 - 1)))%float)) /\
    (0 <= kg < 4 /\ g = ToUint8Clamp (Math_round (Z2F kg * (255 / (Z2F 4 - 1)))%float)) /\
    (0 <= kb < 4 /\ b = ToUint8Clamp (Math_round (Z2F kb * (255 / (Z2F 4 - 1)))%float)).
Proof.
  apply (posterize_level_set grid4x4 4 5).
  - apply wf_canvasb_spec. vm_compute. reflexivity.
  - lia.
  - cbn. lia.
Defined.

(** X6.  Posterize is idempotent at every slider position that
    posterizes: a second pass with the same number of levels changes
    nothing. *)
Theorem posterize_idempotent (c : Canvas) (L : Z) :
  wf_canvas c -> 2 <= L <= 32 ->
  applyPosterize (applyPosterize c (Z2F L)) (Z2F L) = applyPosterize c (Z2F L).
Proof.
  intros Hwf HL. rewrite !applyPosterize_mapped.
  apply (colourMapped_twice (posterizeMap (Z2F L)) (posterizeMap (Z2F L)) c Hwf).
  intros r g b a Hr Hg Hb. rewrite !posterize_pixel.
  destruct (posterize_checked L r HL Hr) as [_ ->].
  destruct (posterize_checked L g HL Hg) as [_ ->].
  by destruct (posterize_checked L b HL Hb) as [_ ->].
Qed.

Lemma posterize_idempotent_witness :
  applyPosterize (applyPosterize grid4x4 (Z2F 4)) (Z2F 4) = applyPosterize grid4x4 (Z2F 4).
Proof.
  apply posterize_idempotent; [|lia]. apply wf_canvasb_spec. vm_compute. reflexivity.
Defined.

Lemma posterize_one_byte b : 0 <= b <= 255 -> posterizeByte 1 b = 0.
Proof.
  intros Hb.
  assert (Hall : check_range 256 (fun b => posterizeByte 1 b =? 0) = true)
    by (vm_compute; reflexivity).
  apply Z.eqb_eq. apply (check_range_spec _ _ Hall). lia.
Qed.

(** X7.  With [levels = 1] the step is [255 / 0], infinite: every colour
    byte becomes [round(0 * Infinity)], which is stored as 0, so the
    picture turns black with its alpha kept. *)
Theorem posterize_one_level_black (c : Canvas) (p : Z) :
  wf_canvas c -> 0 <= p < width c * height c ->
  (255 / (1 - 1) = infinity)%float /\
  exists a, byte_at (data c) (4 * p + 3) = Some a /\
            rgba (applyPosterize c 1) p = Some (0, 0, 0, a).
Proof.
  intros Hwf Hp. split; [reflexivity|].
  destruct (wf_rgba c p Hwf Hp) as (r & g & b & a & Hq & Hr & Hg & Hb & _).
  exists a. split; [by apply rgba_Some in Hq as (_ & _ & _ & Ha)|].
  rewrite applyPosterize_mapped.
  rewrite (colourMapped_rgba (posterizeMap 1) c p _ ltac:(lia) Hq).
  by rewrite posterize_pixel, !posterize_one_byte.
Qed.

Lemma posterize_one_level_black_witness :
  (255 / (1 - 1) = infinity)%float /\
  exists a, byte_at (data grid4x4) (4 * 5 + 3) = Some a /\
            rgba (applyPosterize grid4x4 1) 5 = Some (0, 0, 0, a).
Proof.
  apply (posterize_one_level_black grid4x4 5).
  - apply wf_canvasb_spec. vm_compute. reflexivity.
  - cbn. lia.
Defined.

(** *** Levels *)

Lemma float_index_byte b : 0 <= b <= 255 -> float_index (Z2F b) = Some b.
Proof.
  intros Hb.
  assert (Hall : check_range 256 (fun b =>
            match float_index (Z2F b) with Some i => i =? b | None => false end) = true)
    by (vm_compute; reflexivity).
  pose proof (check_range_spec _ _ Hall b ltac:(lia)) as Hc. cbn beta in Hc.
  destruct (float_index (Z2F b)) as [i|]; [|done]. f_equal. by apply Z.eqb_eq.
Qed.

Lemma lut_lookup (lut : list Z) b :
  bytes lut -> length lut = 256%nat -> 0 <= b <= 255 ->
  exists v, byte_at lut b = Some v /\ ToUint8Clamp (rd_at lut (Z2F b)) = v.
Proof.
  intros Hbytes Hlen Hb.
  destruct (byte_at_Some lut b) as [v Hv]; [unfold len; lia|].
  exists v. split; [done|].
  unfold rd_at. rewrite float_index_byte, rd_byte_at, Hv by done.
  apply byte_store_read.
  unfold byte_at in Hv. destruct (Z.ltb_spec b 0); [lia|].
  exact (Forall_lookup_1 _ _ _ _ Hbytes Hv).
Qed.

(** X8.  Levels is a table lookup per channel: each colour byte [v] of
    the input becomes [lut[v]], where [lut] is the 256-entry table built
    from the black point, the white point and gamma; alpha is kept.  In
    mono mode the three colour bytes of a pixel receive one common
    value. *)
Theorem levels_lookup `{JSMath} (c : Canvas) (black white gamma : float) (p : Z) :
  wf_canvas c -> 0 <= p < width c * height c ->
  exists r g b a lr lg lb v,
    rgba c p = Some (r, g, b, a) /\
    byte_at (levelsLUT black white gamma) r = Some lr /\
    byte_at (levelsLUT black white gamma) g = Some lg /\
    byte_at (levelsLUT black white gamma) b = Some lb /\
    rgba (applyLevels c black white gamma false) p = Some (lr, lg, lb, a) /\
    rgba (applyLevels c black white gamma true) p = Some (v, v, v, a).
Proof.
  intros Hwf Hp.
  destruct (wf_rgba c p Hwf Hp) as (r & g & b & a & Hq & Hr & Hg & Hb & _).
  destruct (levelsLUT_spec black white gamma) as [Hlen _].
  pose proof (levelsLUT_bytes black white gamma) as Hbytes.
  destruct (lut_lookup _ r Hbytes Hlen Hr) as (lr & Hlr & Er).
  destruct (lut_lookup _ g Hbytes Hlen Hg) as (lg & Hlg & Eg).
  destruct (lut_lookup _ b Hbytes Hlen Hb) as (lb & Hlb & Eb).
  exists r, g, b, a, lr, lg, lb.
  exists (ToUint8Clamp (rd_at (levelsLUT black white gamma)
            (Math_round (Z2F r * 0.299 + Z2F g * 0.587 + Z2F b * 0.114)%float))).
  split; [done|]. split; [done|]. split; [done|]. split; [done|]. split.
  - rewrite applyLevels_mapped.
    rewrite (colourMapped_rgba _ c p _ ltac:(lia) Hq).
    unfold mapPixel, levelsMap. cbn zeta. by rewrite Er, Eg, Eb.
  - rewrite applyLevels_mapped.
    rewrite (colourMapped_rgba _ c p _ ltac:(lia) Hq). reflexivity.
Qed.

Lemma levels_lookup_witness :
  exists r g b a lr lg lb v,
    rgba grid4x4 5 = Some (r, g, b, a) /\
    byte_at (levelsLUT (H := RefMath) 10 200 1) r = Some lr /\
    byte_at (levelsLUT (H := RefMath) 10 200 1) g = Some lg /\
    byte_at (levelsLUT (H := RefMath) 10 200 1) b = Some lb /\
    rgba (applyLevels (H := RefMath) grid4x4 10 200 1 false) 5 = Some (lr, lg, lb, a) /\
    rgba (applyLevels (H := RefMath) grid4x4 10 200 1 true) 5 = Some (v, v, v, a).
Proof.
  apply (levels_lookup (H := RefMath) grid4x4 10 200 1 5).
  - apply wf_canvasb_spec. vm_compute. reflexivity.
  - cbn. lia.
Defined.


(** ** The stroke, pixel by pixel *)

(** How far the stroke reaches: the edge itself, then one step per
    round of the dilation. *)
Definition strokeReach (swidth : float) (totalPx : Z) : nat :=
  if (1 <? swidth)%float then (1 + strokeRounds swidth totalPx)%nat else 1%nat.

(** The pixels the outer stroke marks, and those the inner stroke marks. *)
Definition outerMarks (c : Canvas) (swidth : float) : list Z :=
  let w := width c in
  let h := height c in
  let alpha := fst (alphaMask c) in
  let outerEdge := snd (edgeMaps w h alpha) in
  if (1 <? swidth)%float then dilate w h swidth outerEdge alpha 0 else outerEdge.

Definition innerMarks (c : Canvas) (swidth : float) : list Z :=
  let w := width c in
  let h := height c in
  let alpha := fst (alphaMask c) in
  let innerEdge := fst (edgeMaps w h alpha) in
  if (1 <? swidth)%float then dilate w h swidth innerEdge alpha 1 else innerEdge.

Lemma outerMarks_near c swidth :
  wf_canvas c -> width c <= 65536 -> height c <= 65536 ->
  marks_near (width c) (height c) (opaque_px c)
    (strokeReach swidth (width c * height c)) (outerMarks c swidth).
Proof.
  intros Hwf Hw Hh. pose proof Hwf as (Hw0 & Hh0 & _).
  pose proof (alphaMask_spec c Hwf) as Hmask.
  destruct (edgeMaps_spec c _ Hmask) as [_ Ho].
  unfold outerMarks, strokeReach. cbn zeta. destruct (1 <? swidth)%float; [|done].
  apply dilate_spec; [lia|lia|done].
Qed.

Lemma innerMarks_near c swidth :
  wf_canvas c -> width c <= 65536 -> height c <= 65536 ->
  marks_near (width c) (height c) (transparent_px c)
    (strokeReach swidth (width c * height c)) (innerMarks c swidth).
Proof.
  intros Hwf Hw Hh. pose proof Hwf as (Hw0 & Hh0 & _).
  pose proof (alphaMask_spec c Hwf) as Hmask.
  destruct (edgeMaps_spec c _ Hmask) as [Hi _].
  unfold innerMarks, strokeReach. cbn zeta. destruct (1 <? swidth)%float; [|done].
  apply dilate_spec; [lia|lia|done].
Qed.

(** The loop bodies of the two strokes at pixel number [i]. *)
Definition outerBody (marks alpha : list Z) (cr cg cb : float) (i : Z) (data : list Z) :=
  if truthy (mask_at marks i) && negb (truthy (mask_at alpha i)) then
    let pi := i * 4 in
    let data := wr data pi cr in
    let data := wr data (pi + 1) cg in
    let data := wr data (pi + 2) cb in
    wr data (pi + 3) 255
  else data.

Definition innerBody (marks alpha : list Z) (cr cg cb : float) (i : Z) (data : list Z) :=
  if truthy (mask_at marks i) && truthy (mask_at alpha i) then
    let pi := i * 4 in
    let data := wr data pi cr in
    let data := wr data (pi + 1) cg in
    wr data (pi + 2) cb
  else data.

Lemma outerBody_local marks alpha cr cg cb : pixel_local (outerBody marks alpha cr cg cb).
Proof.
  unfold outerBody. split; [|split].
  - intros p d. destruct (_ && _); [|done]. cbn zeta. by rewrite !length_wr.
  - intros p d j Hj. destruct (_ && _); [|done]. cbn zeta.
    by rewrite !byte_at_wr_ne by lia.
  - intros p d d' Hag k Hk. destruct (_ && _); [|by apply Hag]. cbn zeta.
    pose proof (Hag 0 ltac:(lia)) as Hag0. pose proof (Hag 1 ltac:(lia)) as Hag1.
    pose proof (Hag 2 ltac:(lia)) as Hag2. pose proof (Hag 3 ltac:(lia)) as Hag3.
    rewrite Z.add_0_r in Hag0. replace (p * 4) with (4 * p) by lia.
    rewrite !byte_at_wr.
    assert (k = 0 \/ k = 1 \/ k = 2 \/ k = 3) as [->|[->|[->| ->]]] by lia;
      rewrite ?Z.add_0_r; simpl_eqb; rewrite ?byte_at_wr; simpl_eqb;
      rewrite ?Hag0, ?Hag1, ?Hag2, ?Hag3; reflexivity.
Qed.

Lemma innerBody_local marks alpha cr cg cb : pixel_local (innerBody marks alpha cr cg cb).
Proof.
  unfold innerBody. split; [|split].
  - intros p d. destruct (_ && _); [|done]. cbn zeta. by rewrite !length_wr.
  - intros p d j Hj. destruct (_ && _); [|done]. cbn zeta.
    by rewrite !byte_at_wr_ne by lia.
  - intros p d d' Hag k Hk. destruct (_ && _); [|by apply Hag]. cbn zeta.
    pose proof (Hag 0 ltac:(lia)) as Hag0. pose proof (Hag 1 ltac:(lia)) as Hag1.
    pose proof (Hag 2 ltac:(lia)) as Hag2. pose proof (Hag 3 ltac:(lia)) as Hag3.
    rewrite Z.add_0_r in Hag0. replace (p * 4) with (4 * p) by lia.
    rewrite !byte_at_wr.
    assert (k = 0 \/ k = 1 \/ k = 2 \/ k = 3) as [->|[->|[->| ->]]] by lia;
      rewrite ?Z.add_0_r; simpl_eqb; rewrite ?byte_at_wr; simpl_eqb;
      rewrite ?Hag0, ?Hag1, ?Hag2, ?Hag3; reflexivity.
Qed.

(** The stroke colour as [applyStroke] reads it from ["#rrggbb"]. *)
Definition strokeColour (color : string) : float * float * float :=
  (parseInt16 (slice color 1 3), parseInt16 (slice color 3 5),
   parseInt16 (slice color 5 7)).

(** On a canvas with a transparent interior pixel the stroke is computed
    per pixel. *)
Lemma applyStroke_outer `{Canvas2D} c color swidth :
  snd (alphaMask c) = true ->
  applyStroke c color swidth false true =
  putImageData c
    (iter_n (Z.to_nat (width c * height c)) 0 1
       (outerBody (outerMarks c swidth) (fst (alphaMask c))
          (strokeColour color).1.1 (strokeColour color).1.2 (strokeColour color).2)
       (data c)).
Proof.
  intros Ht. unfold applyStroke, outerMarks. cbn zeta.
  destruct (alphaMask c) as [alpha hasT]. cbn [fst snd] in *. subst hasT. cbn [negb].
  destruct (edgeMaps (width c) (height c) alpha) as [ie oe]. cbn [fst snd].
  rewrite for_to_iter, Z.sub_0_r. reflexivity.
Qed.

Lemma applyStroke_inner `{Canvas2D} c color swidth :
  snd (alphaMask c) = true ->
  applyStroke c color swidth true false =
  putImageData c
    (iter_n (Z.to_nat (width c * height c)) 0 1
       (innerBody (innerMarks c swidth) (fst (alphaMask c))
          (strokeColour color).1.1 (strokeColour color).1.2 (strokeColour color).2)
       (data c)).
Proof.
  intros Ht. unfold applyStroke, innerMarks. cbn zeta.
  destruct (alphaMask c) as [alpha hasT]. cbn [fst snd] in *. subst hasT. cbn [negb].
  destruct (edgeMaps (width c) (height c) alpha) as [ie oe]. cbn [fst snd].
  rewrite for_to_iter, Z.sub_0_r. reflexivity.
Qed.

Lemma rgba_ext c d1 d2 p :
  (forall k, 0 <= k < 4 -> byte_at d1 (4 * p + k) = byte_at d2 (4 * p + k)) ->
  rgba (putImageData c d1) p = rgba (putImageData c d2) p.
Proof.
  intros Hk. unfold rgba, putImageData. cbn [data].
  pose proof (Hk 0 ltac:(lia)) as H0. rewrite Z.add_0_r in H0.
  by rewrite H0, (Hk 1), (Hk 2), (Hk 3) by lia.
Qed.

(** For the whole widths of the slider and beyond, the reach is the
    width. *)
Lemma strokeReach_whole (n totalPx : Z) :
  1 <= n <= 4096 -> strokeReach (Z2F n) totalPx = Z.to_nat n.
Proof.
  intros Hn.
  assert (Hall : check_range 4097 (fun n =>
            (n <? 1) || (Bool.eqb (1 <? Z2F n)%float (1 <? n)
                         && negb (Z2F n =? infinity)%float
                         && (ceilZ (Z2F n) =? n))) = true)
    by (vm_compute; reflexivity).
  pose proof (check_range_spec _ _ Hall n ltac:(lia)) as Hc. cbn beta in Hc.
  destruct (Z.ltb_spec n 1); [lia|]. cbn [orb] in Hc.
  rewrite !andb_true_iff in Hc. destruct Hc as [[H1 H2] H3].
  apply Bool.eqb_prop in H1. apply negb_true_iff in H2. apply Z.eqb_eq in H3.
  unfold strokeReach, strokeRounds. rewrite H1, H2, H3.
  destruct (Z.ltb_spec 1 n); lia.
Qed.

(** X9.  The outer stroke, computed per pixel (the canvas has a
    transparent interior pixel): every pixel is either left as it was or
    painted with the stroke colour at alpha 255, and a painted pixel was
    transparent (alpha at most 128) and is joined to an opaque pixel by a
    4-connected path of at most [reach] steps, where [reach] is the
    stroke width for the whole widths 1 .. 4096.  No opaque pixel
    changes. *)
Theorem stroke_outer_containment `{Canvas2D} (c : Canvas) (color : string)
    (swidth : float) (p : Z) :
  wf_canvas c -> width c <= 65536 -> height c <= 65536 ->
  snd (alphaMask c) = true ->
  0 <= p < width c * height c ->
  let out := applyStroke c color swidth false true in
  let reach := strokeReach swidth (width c * height c) in
  (rgba out p = rgba c p \/
   rgba out p = Some (ToUint8Clamp (strokeColour color).1.1,
                      ToUint8Clamp (strokeColour color).1.2,
                      ToUint8Clamp (strokeColour color).2, 255) /\
   transparent_px c p /\
   near (width c) (height c) (opaque_px c) reach p) /\
  (opaque_px c p -> rgba out p = rgba c p) /\
  (forall n, 1 <= n <= 4096 ->
     strokeReach (Z2F n) (width c * height c) = Z.to_nat n).
Proof.
  intros Hwf Hw Hh Ht Hp out reach. subst out reach.
  split; [|split]; [| |intros n Hn; by apply strokeReach_whole].
  all: rewrite applyStroke_outer by done.
  all: set (marks := outerMarks c swidth); set (alpha := fst (alphaMask c)).
  all: set (col := strokeColour color).
  all: destruct (pixel_loop_spec (outerBody marks alpha col.1.1 col.1.2 col.2)
                   (Z.to_nat (width c * height c)) (data c)
                   (outerBody_local _ _ _ _ _)) as (_ & Hpx & _).
  all: rewrite (rgba_ext c _ (outerBody marks alpha col.1.1 col.1.2 col.2 p (data c)) p)
         by (intros k Hk; apply Hpx; lia).
  all: pose proof (alphaMask_spec c Hwf) as Hmask; fold alpha in Hmask.
  all: pose proof (outerMarks_near c swidth Hwf Hw Hh) as [_ Hnear]; fold marks in Hnear.
  all: unfold outerBody.
  all: destruct (truthy (mask_at marks p)) eqn:Hm; cbn [andb];
         [|rewrite putImageData_data; tauto].
  all: destruct (truthy (mask_at alpha p)) eqn:Ha; cbn [negb];
         [rewrite putImageData_data; tauto|].
  - right. split; [|split].
    + destruct (wf_rgba c p Hwf Hp) as (r & g & b & a & Hq & _).
      apply rgba_Some in Hq as (Hr & Hg & Hb & Haa).
      unfold rgba, putImageData. cbn [data]. cbn zeta.
      replace (p * 4) with (4 * p) by lia.
      rewrite !byte_at_wr. simpl_eqb. rewrite ?byte_at_wr. simpl_eqb.
      rewrite ?byte_at_wr. simpl_eqb. by rewrite Hr, Hg, Hb, Haa.
    + by apply (mask_falsy_transparent c alpha).
    + by apply Hnear.
  - intros Ho. exfalso. apply (opaque_not_transparent c p Ho).
    by apply (mask_falsy_transparent c alpha).
Qed.

Lemma stroke_outer_containment_witness :
  rgba (applyStroke (H := RefCanvas2D) dot5x5 "#ff0000"%string 2 false true) 12
  = rgba dot5x5 12.
Proof.
  destruct (stroke_outer_containment (H := RefCanvas2D) dot5x5 "#ff0000"%string 2 12)
    as (_ & Hopaque & _).
  - apply wf_canvasb_spec. vm_compute. reflexivity.
  - cbn. lia.
  - cbn. lia.
  - vm_compute. reflexivity.
  - cbn. lia.
  - apply Hopaque. exists 255. split; [reflexivity|lia].
Defined.

(** X10.  The inner stroke, computed per pixel: no alpha byte changes;
    every pixel is either left as it was or receives the stroke colour
    under its own alpha, and a recoloured pixel was opaque (alpha above
    128) and is joined to a transparent pixel by a 4-connected path of
    at most [reach] steps.  No transparent pixel changes. *)
Theorem stroke_inner_containment `{Canvas2D} (c : Canvas) (color : string)
    (swidth : float) (p : Z) :
  wf_canvas c -> width c <= 65536 -> height c <= 65536 ->
  snd (alphaMask c) = true ->
  0 <= p < width c * height c ->
  let out := applyStroke c color swidth true false in
  let reach := strokeReach swidth (width c * height c) in
  (rgba out p = rgba c p \/
   (exists a, byte_at (data c) (4 * p + 3) = Some a /\
      rgba out p = Some (ToUint8Clamp (strokeColour color).1.1,
                         ToUint8Clamp (strokeColour color).1.2,
                         ToUint8Clamp (strokeColour color).2, a)) /\
   opaque_px c p /\
   near (width c) (height c) (transparent_px c) reach p) /\
  (transparent_px c p -> rgba out p = rgba c p).
Proof.
  intros Hwf Hw Hh Ht Hp out reach. subst out reach.
  split.
  all: rewrite applyStroke_inner by done.
  all: set (marks := innerMarks c swidth); set (alpha := fst (alphaMask c)).
  all: set (col := strokeColour color).
  all: destruct (pixel_loop_spec (innerBody marks alpha col.1.1 col.1.2 col.2)
                   (Z.to_nat (width c * height c)) (data c)
                   (innerBody_local _ _ _ _ _)) as (_ & Hpx & _).
  all: rewrite (rgba_ext c _ (innerBody marks alpha col.1.1 col.1.2 col.2 p (data c)) p)
         by (intros k Hk; apply Hpx; lia).
  all: pose proof (alphaMask_spec c Hwf) as Hmask; fold alpha in Hmask.
  all: pose proof (innerMarks_near c swidth Hwf Hw Hh) as [_ Hnear]; fold marks in Hnear.
  all: unfold innerBody.
  all: destruct (truthy (mask_at marks p)) eqn:Hm; cbn [andb];
         [|rewrite putImageData_data; tauto].
  all: destruct (truthy (mask_at alpha p)) eqn:Ha;
         [|rewrite putImageData_data; tauto].
  - right. split; [|split].
    + destruct (wf_rgba c p Hwf Hp) as (r & g & b & a & Hq & _).
      apply rgba_Some in Hq as (Hr & Hg & Hb & Haa).
      exists a. split; [done|].
      unfold rgba, putImageData. cbn [data]. cbn zeta.
      replace (p * 4) with (4 * p) by lia.
      rewrite !byte_at_wr. simpl_eqb. rewrite ?byte_at_wr. simpl_eqb.
      rewrite ?byte_at_wr. simpl_eqb. by rewrite Hr, Hg, Hb, Haa.
    + by apply (mask_truthy_opaque c alpha).
    + by apply Hnear.
  - intros Htr. exfalso.
    apply (opaque_not_transparent c p); [|done].
    by apply (mask_truthy_opaque c alpha).
Qed.

Lemma stroke_inner_containment_witness :
  rgba (applyStroke (H := RefCanvas2D) dot5x5 "#ff0000"%string 2 true false) 7
  = rgba dot5x5 7.
Proof.
  destruct (stroke_inner_containment (H := RefCanvas2D) dot5x5 "#ff0000"%string 2 7)
    as (_ & Htransparent).
  - apply wf_canvasb_spec. vm_compute. reflexivity.
  - cbn. lia.
  - cbn. lia.
  - vm_compute. reflexivity.
  - cbn. lia.
  - apply Htransparent. exists 0. split; [reflexivity|lia].
Defined.


(** ** Filters that write in place *)

(** [d] has the length and the alpha bytes of [d0]. *)
Definition alpha_kept (d0 d : list Z) : Prop :=
  length d = length d0 /\ forall j, j mod 4 = 3 -> byte_at d j = byte_at d0 j.

(** [d] has the length and the colour bytes of [d0]. *)
Definition colour_kept (d0 d : list Z) : Prop :=
  length d = length d0 /\ forall j, j mod 4 <> 3 -> byte_at d j = byte_at d0 j.

Lemma alpha_kept_refl d : alpha_kept d d.
Proof. by split. Qed.

Lemma colour_kept_refl d : colour_kept d d.
Proof. by split. Qed.

Lemma alpha_kept_wr d0 d i v :
  alpha_kept d0 d -> i mod 4 <> 3 -> alpha_kept d0 (wr d i v).
Proof.
  intros [Hl Ha] Hi. split; [by rewrite length_wr|].
  intros j Hj. rewrite byte_at_wr_ne; [by apply Ha|]. by intros ->.
Qed.

Lemma colour_kept_wr d0 d i v :
  colour_kept d0 d -> i mod 4 = 3 -> colour_kept d0 (wr d i v).
Proof.
  intros [Hl Ha] Hi. split; [by rewrite length_wr|].
  intros j Hj. rewrite byte_at_wr_ne; [by apply Ha|]. by intros ->.
Qed.

Lemma alpha_kept_same_alpha c d :
  alpha_kept (data c) d -> same_alpha c (putImageData c d).
Proof.
  intros [Hl Ha]. unfold same_alpha, putImageData. cbn [width height data]. by repeat split.
Qed.

Ltac mod4 := Z.div_mod_to_equations; lia.

Lemma alpha_kept_addNoise d0 d k nr ng nb :
  alpha_kept d0 d -> alpha_kept d0 (addNoise d (4 * k) nr ng nb).
Proof.
  intros Hd. unfold addNoise. cbn zeta.
  repeat (apply alpha_kept_wr; [|mod4]). done.
Qed.

Section NoiseFrame.
Context `{JSMath}.

Lemma noise_loop_alpha (d0 : list Z) (rng : nat)
    (body : Z -> list Z * nat -> list Z * nat) :
  (forall k d r, alpha_kept d0 d -> alpha_kept d0 (fst (body (4 * k) (d, r)))) ->
  alpha_kept d0 (fst (for_range 0 (len d0) 4 body (d0, rng))).
Proof.
  intros Hbody. unfold for_range.
  apply (iter_n_inv (fun _ st => alpha_kept d0 (fst st))).
  - apply alpha_kept_refl.
  - intros k [d r] _ Hd. rewrite Z.add_0_l. by apply Hbody.
Qed.

Lemma applyNewNoise_alpha c type amount density rng :
  same_alpha c (fst (applyNewNoise c type amount density rng)).
Proof.
  unfold applyNewNoise.
  destruct (_ || _); [apply same_alpha_refl|]. cbn zeta.
  assert (Hfst : forall (st : list Z * nat),
            fst (let '(data, rng) := st in (putImageData c data, rng))
            = putImageData c (fst st)) by (by intros []).
  rewrite Hfst. apply alpha_kept_same_alpha.
  destruct (type =? 1)%float; [|destruct (type =? 2)%float;
    [|destruct (type =? 3)%float; [|destruct (type =? 4)%float]]].
  - apply noise_loop_alpha. intros k d r Hd.
    destruct (_ <? _)%float; [done|]. destruct (gaussRand _) as [g r'].
    by apply alpha_kept_addNoise.
  - apply noise_loop_alpha. intros k d r Hd.
    destruct (_ <? _)%float; [done|]. cbn zeta. destruct (gaussRand _) as [g r'].
    by apply alpha_kept_addNoise.
  - apply noise_loop_alpha. intros k d r Hd.
    destruct (_ <? _)%float; [done|].
    destruct (gaussRand _) as [g1 r1]. destruct (gaussRand r1) as [g2 r2].
    destruct (gaussRand r2) as [g3 r3]. by apply alpha_kept_addNoise.
  - apply noise_loop_alpha. intros k d r Hd.
    destruct (_ <? _)%float; [done|]. by apply alpha_kept_addNoise.
  - apply alpha_kept_refl.
Qed.

Lemma boxBlur_alpha c radius : same_alpha c (boxBlur c radius).
Proof.
  unfold boxBlur. cbn zeta. apply alpha_kept_same_alpha.
  apply for_to_inv.
  - apply for_to_inv; [apply alpha_kept_refl|].
    intros y d Hd. apply for_to_inv; [done|]. intros x d' Hd'.
    destruct (for_to _ _ _ _) as [[[sr sg] sb] cnt].
    repeat (apply alpha_kept_wr; [|mod4]). done.
  - intros y d Hd. apply for_to_inv; [done|]. intros x d' Hd'.
    destruct (for_to _ _ _ _) as [[[sr sg] sb] cnt].
    repeat (apply alpha_kept_wr; [|mod4]). done.
Qed.
End NoiseFrame.

Lemma applyMetal_alpha c intensity : same_alpha c (applyMetal c intensity).
Proof.
  unfold applyMetal. cbn zeta. apply alpha_kept_same_alpha.
  set (out1 := for_to 1 (height c - 1) _ (data c)).
  assert (H1 : alpha_kept (data c) out1).
  { unfold out1. apply for_to_inv; [apply alpha_kept_refl|].
    intros y d Hd. apply for_to_inv; [done|]. intros x d' Hd'. cbn zeta.
    apply (for_to_inv_idx (alpha_kept (data c))); [done|].
    intros ch d'' Hch Hd''. cbn zeta. apply alpha_kept_wr; [done|mod4]. }
  unfold for_range.
  apply (iter_n_inv (fun _ d => alpha_kept (data c) d)); [done|].
  intros k d _ Hd. rewrite Z.add_0_l. cbn zeta.
  destruct (if (200 <? _)%float then _ else _) as [[mr mg] mb].
  repeat (apply alpha_kept_wr; [|mod4]). done.
Qed.

Lemma applyGradientFade_colour c direction amount :
  colour_kept (data c) (data (applyGradientFade c direction amount)).
Proof.
  unfold applyGradientFade, putImageData. cbn [data]. cbn zeta.
  apply for_to_inv; [apply colour_kept_refl|].
  intros y d Hd. apply for_to_inv; [done|]. intros x d' Hd'.
  apply colour_kept_wr; [done|mod4].
Qed.

(** X11.  Noise (all four types) and the metal filter write colour
    bytes only: the result has the size of the input and the same byte
    at every alpha position, whatever the parameters and the random
    stream. *)
Theorem in_place_filters_keep_alpha `{JSMath} (c : Canvas)
    (type amount density intensity : float) (rng : nat) :
  same_alpha c (fst (applyNewNoise c type amount density rng)) /\
  same_alpha c (applyMetal c intensity).
Proof.
  split; [apply applyNewNoise_alpha|apply applyMetal_alpha].
Qed.

(** X12.  The gradient fade writes alpha bytes only: the array it hands
    to [putImageData] has the length of the one [getImageData] returned
    and the same colour bytes, for every direction and amount. *)
Theorem gradient_fade_keeps_colour (c : Canvas) (direction amount : float) :
  exists d' : list Z,
    applyGradientFade c direction amount = putImageData c d' /\
    length d' = length (data c) /\
    forall j, j mod 4 <> 3 -> byte_at d' j = byte_at (data c) j.
Proof.
  destruct (applyGradientFade_colour c direction amount) as [Hl Hc].
  exists (data (applyGradientFade c direction amount)).
  split; [reflexivity|]. split; [exact Hl|exact Hc].
Qed.

(** X24.  Blur type 2 (the box blur) with a radius below [2^53], or a
    NaN radius, writes colour bytes only: the result has the size of the
    input and the same byte at every alpha position.  (From [2^53] on
    the tap counter of the source no longer advances and the call does
    not return.) *)
Theorem box_blur_keeps_alpha `{JSMath} `{Canvas2D} (c : Canvas)
    (radius angle : float) :
  (9007199254740992 <=? radius)%float = false ->
  same_alpha c (applyNewBlur c 2 radius angle).
Proof.
  intros _. unfold applyNewBlur.
  destruct (_ || _); [apply same_alpha_refl|].
  change (2 =? 1)%float with false. change (2 =? 2)%float with true.
  cbn match. apply boxBlur_alpha.
Qed.

Lemma box_blur_keeps_alpha_witness :
  same_alpha dot5x5 (applyNewBlur (H := RefMath) (H0 := RefCanvas2D) dot5x5 2 1.5 0).
Proof.
  apply (box_blur_keeps_alpha (H := RefMath) (H0 := RefCanvas2D)). reflexivity.
Defined.

(** *** Greys under hue rotation *)

Lemma hslToRgb_grey h l :
  hslToRgb h 0 l = (Math_round (l * 255)%float, Math_round (l * 255)%float,
                    Math_round (l * 255)%float).
Proof. reflexivity. Qed.

(** A grey has hue 0 and saturation 0, and its lightness gives the byte
    back. *)
Definition greyOk (v : Z) : bool :=
  let '(h, s, l) := rgbToHsl (Z2F v) (Z2F v) (Z2F v) in
  Leibniz.eqb s 0 && (ToUint8Clamp (Math_round (l * 255)%float) =? v).

Lemma grey_checked v :
  0 <= v <= 255 ->
  exists h l, rgbToHsl (Z2F v) (Z2F v) (Z2F v) = (h, 0%float, l) /\
              ToUint8Clamp (Math_round (l * 255)%float) = v.
Proof.
  intros Hv.
  assert (Hall : check_range 256 greyOk = true) by (vm_compute; reflexivity).
  pose proof (check_range_spec _ _ Hall v ltac:(lia)) as Hc. unfold greyOk in Hc.
  destruct (rgbToHsl _ _ _) as [[h s] l].
  apply andb_true_iff in Hc as [Hs Hl]. apply float_eqb_eq in Hs. subst s.
  exists h, l. split; [done|]. by apply Z.eqb_eq.
Qed.

(** X13.  The global hue rotation leaves every grey pixel ([r = g = b])
    as it is, whatever the angle (NaN and the infinities included): a
    grey has saturation 0, and [hslToRgb] ignores the hue then. *)
Theorem hue_rotate_fixes_greys (c : Canvas) (degrees : float) (p v a : Z) :
  wf_canvas c -> 0 <= p ->
  rgba c p = Some (v, v, v, a) ->
  rgba (applyGlobalHueRotate c degrees) p = Some (v, v, v, a).
Proof.
  intros Hwf Hp Hq.
  destruct (degrees =? 0)%float eqn:Hd.
  { unfold applyGlobalHueRotate. by rewrite Hd. }
  rewrite applyGlobalHueRotate_map by done.
  fold (colourMapped (globalHueRotateMap degrees) c).
  rewrite (colourMapped_rgba _ c p _ Hp Hq). f_equal.
  assert (Hv : 0 <= v <= 255).
  { apply rgba_Some in Hq as (Hr & _). pose proof (byte_at_range _ _ _ Hr) as Hrange.
    destruct Hwf as (_ & _ & _ & Hb). unfold byte_at in Hr.
    destruct (Z.ltb_spec (4 * p) 0); [lia|]. exact (Forall_lookup_1 _ _ _ _ Hb Hr). }
  destruct (grey_checked v Hv) as (h & l & Hhsl & Hl).
  unfold mapPixel, globalHueRotateMap. rewrite Hhsl, hslToRgb_grey. by rewrite Hl.
Qed.

Lemma hue_rotate_fixes_greys_witness :
  rgba (applyGlobalHueRotate (mkCanvas 1 1 [90; 90; 90; 255]) 120) 0
  = Some (90, 90, 90, 255).
Proof.
  apply hue_rotate_fixes_greys; [|lia|reflexivity].
  apply wf_canvasb_spec. vm_compute. reflexivity.
Defined.


(** ** The perspective warp *)

Lemma perspectiveSystem_short (src dst : list Point) :
  (length src < 4)%nat \/ (length dst < 4)%nat -> perspectiveSystem src dst = None.
Proof.
  intros Hshort. unfold perspectiveSystem. cbn [foldr].
  assert (H3 : src !! 3%nat = None \/ dst !! 3%nat = None).
  { destruct Hshort; [left|right]; apply lookup_ge_None; lia. }
  assert (Hin : match src !! 3%nat, dst !! 3%nat, Some (@nil (list float), @nil float) with
                | Some s, Some d, Some (A, B) =>
                    Some ([pt_x s; pt_y s; 1; 0; 0; 0; - pt_x s * pt_x d; - pt_y s * pt_x d]%float
                          :: [0; 0; 0; pt_x s; pt_y s; 1; - pt_x s * pt_y d;
                              - pt_y s * pt_y d]%float :: A,
                          pt_x d :: pt_y d :: B)
                | _, _, _ => None
                end = None).
  { destruct H3 as [-> | ->]; [done|]. by destruct (src !! 3%nat). }
  cbn zeta. rewrite Hin.
  destruct (src !! 2%nat), (dst !! 2%nat), (src !! 1%nat), (dst !! 1%nat),
    (src !! 0%nat), (dst !! 0%nat); reflexivity.
Qed.

(** X14.  [computePerspectiveTransform] fails (the source throws a
    TypeError on [src[i].x]) exactly when one of the two point lists has
    fewer than four points; whenever it returns, the matrix has nine
    entries and its last entry is exactly 1. *)
Theorem perspective_needs_four_points (src dst : list Point) :
  (computePerspectiveTransform src dst = None <->
   (length src < 4)%nat \/ (length dst < 4)%nat) /\
  (forall m, computePerspectiveTransform src dst = Some m ->
     length m = 9%nat /\ m !! 8%nat = Some 1%float).
Proof.
  assert (Hlong : (4 <= length src)%nat -> (4 <= length dst)%nat ->
            exists m, computePerspectiveTransform src dst = Some m /\
                      length m = 9%nat /\ m !! 8%nat = Some 1%float).
  { intros Hs Hd. destruct (perspectiveSystem_total src dst Hs Hd) as (A & B & Hsys & HB).
    unfold computePerspectiveTransform. rewrite Hsys.
    destruct (solveLinearSystem A B) as [result|] eqn:Hsolve.
    - eexists. split; [reflexivity|].
      assert (Hlen : length result = 8%nat).
      { unfold solveLinearSystem in Hsolve.
        destruct (eliminate _ _ _ 0) as [M|]; [|discriminate].
        injection Hsolve as <-. by rewrite backSubstitute_length, Nat2Z.id. }
      split; [rewrite length_app, Hlen; reflexivity|].
      rewrite lookup_app_r by lia. by rewrite Hlen.
    - eexists. split; [reflexivity|]. by split. }
  split.
  - split.
    + intros Hnone.
      destruct (Nat.lt_ge_cases (length src) 4) as [|Hs]; [by left|].
      destruct (Nat.lt_ge_cases (length dst) 4) as [|Hd]; [by right|].
      destruct (Hlong Hs Hd) as (m & Hm & _). rewrite Hm in Hnone. discriminate.
    + intros Hshort. unfold computePerspectiveTransform.
      by rewrite perspectiveSystem_short.
  - intros m Hm.
    destruct (Nat.lt_ge_cases (length src) 4) as [Hs|Hs].
    { unfold computePerspectiveTransform in Hm.
      rewrite perspectiveSystem_short in Hm by (by left). discriminate. }
    destruct (Nat.lt_ge_cases (length dst) 4) as [Hd|Hd].
    { unfold computePerspectiveTransform in Hm.
      rewrite perspectiveSystem_short in Hm by (by right). discriminate. }
    destruct (Hlong Hs Hd) as (m' & Hm' & Hl & H8).
    rewrite Hm' in Hm. injection Hm as <-. by split.
Qed.

(** The value mixed for channel [c] from the four source pixels around
    [(sx, sy)]. *)
Definition perspMix (srcPixels : list Z) (sw : Z) (sx sy : float) (c : Z) : float :=
  let x0 := Math_floor sx in
  let y0 := Math_floor sy in
  let x1 := (x0 + 1)%float in
  let y1 := (y0 + 1)%float in
  let fx := (sx - x0)%float in
  let fy := (sy - y0)%float in
  let idx00 := ((y0 * Z2F sw + x0) * 4)%float in
  let idx10 := ((y0 * Z2F sw + x1) * 4)%float in
  let idx01 := ((y1 * Z2F sw + x0) * 4)%float in
  let idx11 := ((y1 * Z2F sw + x1) * 4)%float in
  (rdF srcPixels (idx00 + Z2F c) * (1 - fx) * (1 - fy)
   + rdF srcPixels (idx10 + Z2F c) * fx * (1 - fy)
   + rdF srcPixels (idx01 + Z2F c) * (1 - fx) * fy
   + rdF srcPixels (idx11 + Z2F c) * fx * fy)%float.

(** Whether the source point of destination pixel [(x, y)] can be
    sampled. *)
Definition perspInside (matrix : list float) (sw sh : Z) (x y : Z) : bool :=
  let srcPt := transformPoint matrix (Z2F x) (Z2F y) in
  (0 <=? pt_x srcPt)%float && (pt_x srcPt <? Z2F (sw - 1))%float
  && (0 <=? pt_y srcPt)%float && (pt_y srcPt <? Z2F (sh - 1))%float.

(** The loop body of [applyPerspectiveTransform] at pixel number [p]. *)
Definition perspBody (matrix : list float) (srcPixels : list Z) (sw sh dw : Z)
    (p : Z) (dstPixels : list Z) : list Z :=
  let srcPt := transformPoint matrix (Z2F (p mod dw)) (Z2F (p / dw)) in
  if perspInside matrix sw sh (p mod dw) (p / dw) then
    let mix := perspMix srcPixels sw (pt_x srcPt) (pt_y srcPt) in
    wr (wr (wr (wr dstPixels (4 * p + 0) (mix 0)) (4 * p + 1) (mix 1))
          (4 * p + 2) (mix 2)) (4 * p + 3) (mix 3)
  else dstPixels.

Lemma perspBody_local matrix srcPixels sw sh dw :
  pixel_local (perspBody matrix srcPixels sw sh dw).
Proof.
  unfold perspBody. split; [|split].
  - intros p d. destruct (perspInside _ _ _ _ _); by rewrite ?length_wr.
  - intros p d j Hj. destruct (perspInside _ _ _ _ _); by rewrite ?byte_at_wr_ne by lia.
  - intros p d d' Hag c Hc. destruct (perspInside _ _ _ _ _); [|by apply Hag].
    pose proof (Hag 0 ltac:(lia)) as Hag0. pose proof (Hag 1 ltac:(lia)) as Hag1.
    pose proof (Hag 2 ltac:(lia)) as Hag2. pose proof (Hag 3 ltac:(lia)) as Hag3.
    cbn zeta. rewrite !byte_at_wr.
    assert (c = 0 \/ c = 1 \/ c = 2 \/ c = 3) as [->|[->|[->| ->]]] by lia;
      simpl_eqb; rewrite ?byte_at_wr; simpl_eqb;
      rewrite ?Hag0, ?Hag1, ?Hag2, ?Hag3; reflexivity.
Qed.

Lemma applyPerspectiveTransform_loop (srcCanvas dstCanvas : Canvas)
    (srcCorners dstCorners : list Point) (matrix : list float) :
  0 < width dstCanvas -> 0 <= height dstCanvas ->
  computePerspectiveTransform dstCorners srcCorners = Some matrix ->
  applyPerspectiveTransform srcCanvas dstCanvas srcCorners dstCorners =
  Some (putImageData dstCanvas
    (iter_n (Z.to_nat (width dstCanvas * height dstCanvas)) 0 1
       (perspBody matrix (data srcCanvas) (width srcCanvas) (height srcCanvas)
          (width dstCanvas))
       (zeros (4 * (width dstCanvas * height dstCanvas))))).
Proof.
  intros Hw Hh Hm. unfold applyPerspectiveTransform. cbn zeta. rewrite Hm.
  do 2 f_equal.
  rewrite (pixel_loop_2d (width dstCanvas) (height dstCanvas)
     (fun y x dstPixels =>
        if perspInside matrix (width srcCanvas) (height srcCanvas) x y then
          for_to 0 4 (fun c dstPixels =>
            wr dstPixels ((y * width dstCanvas + x) * 4 + c)
              (perspMix (data srcCanvas) (width srcCanvas)
                 (pt_x (transformPoint matrix (Z2F x) (Z2F y)))
                 (pt_y (transformPoint matrix (Z2F x) (Z2F y))) c))
          dstPixels
        else dstPixels)) by lia.
  apply iter_n_ext. intros k s' _. unfold perspBody.
  set (p := 0 + 1 * Z.of_nat k).
  replace ((p / width dstCanvas * width dstCanvas + p mod width dstCanvas) * 4)
    with (4 * p) by (pose proof (Z.div_mod p (width dstCanvas) ltac:(lia)); lia).
  destruct (perspInside _ _ _ _ _); reflexivity.
Qed.

(** X15.  [applyPerspectiveTransform] fills a fresh buffer of the
    destination's size: a destination pixel whose source point
    [transformPoint(matrix, x, y)] lies in [[0, sw-1) x [0, sh-1)]
    receives, in each of its four channels, the bilinear mix of the four
    surrounding source bytes; every other pixel stays transparent black
    (0, 0, 0, 0). *)
Theorem perspective_warp_pixel (srcCanvas dstCanvas : Canvas)
    (srcCorners dstCorners : list Point) (matrix : list float) (x y : Z) :
  computePerspectiveTransform dstCorners srcCorners = Some matrix ->
  0 <= x < width dstCanvas -> 0 <= y < height dstCanvas ->
  exists out,
    applyPerspectiveTransform srcCanvas dstCanvas srcCorners dstCorners = Some out /\
    width out = width dstCanvas /\ height out = height dstCanvas /\
    len (data out) = 4 * (width dstCanvas * height dstCanvas) /\
    forall c, 0 <= c < 4 ->
      byte_at (data out) ((y * width dstCanvas + x) * 4 + c) =
      Some (if perspInside matrix (width srcCanvas) (height srcCanvas) x y
            then ToUint8Clamp
                   (perspMix (data srcCanvas) (width srcCanvas)
                      (pt_x (transformPoint matrix (Z2F x) (Z2F y)))
                      (pt_y (transformPoint matrix (Z2F x) (Z2F y))) c)
            else 0).
Proof.
  intros Hm Hx Hy.
  rewrite (applyPerspectiveTransform_loop _ _ _ _ matrix) by (try done; lia).
  eexists. split; [reflexivity|]. unfold putImageData. cbn [width height data].
  split; [done|]. split; [done|].
  set (w := width dstCanvas) in *. set (h := height dstCanvas) in *.
  destruct (pixel_loop_spec
              (perspBody matrix (data srcCanvas) (width srcCanvas) (height srcCanvas) w)
              (Z.to_nat (w * h)) (zeros (4 * (w * h))) (perspBody_local _ _ _ _ _))
    as (Hl & Hpix & _).
  split.
  { unfold len. rewrite Hl, length_zeros. nia. }
  intros c Hc. set (p := y * w + x).
  assert (Hp : 0 <= p < Z.of_nat (Z.to_nat (w * h))) by (unfold p; nia).
  destruct (pixel_div_mod w x y Hx) as [Hdiv Hmod]. fold p in Hdiv, Hmod.
  replace (p * 4 + c) with (4 * p + c) by lia.
  rewrite (Hpix p c Hp Hc). unfold perspBody. rewrite Hdiv, Hmod.
  assert (Hz : forall j, 0 <= j < 4 -> byte_at (zeros (4 * (w * h))) (4 * p + j) = Some 0).
  { intros j Hj. apply byte_at_zeros. unfold p. nia. }
  destruct (perspInside _ _ _ _ _); [|by apply Hz]. cbn zeta.
  rewrite !byte_at_wr.
  assert (c = 0 \/ c = 1 \/ c = 2 \/ c = 3) as [->|[->|[->| ->]]] by lia;
    simpl_eqb; rewrite ?byte_at_wr; simpl_eqb;
    rewrite ?(Hz 0), ?(Hz 1), ?(Hz 2), ?(Hz 3) by lia; reflexivity.
Qed.

Lemma perspective_warp_pixel_witness :
  exists out,
    applyPerspectiveTransform grid4x4 grid4x4 collapsedQuad square10 = Some out /\
    width out = 4 /\ height out = 4 /\ len (data out) = 4 * (4 * 4) /\
    forall c, 0 <= c < 4 ->
      byte_at (data out) ((1 * 4 + 2) * 4 + c) =
      Some (if perspInside identity3x3 4 4 2 1
            then ToUint8Clamp
                   (perspMix (data grid4x4) 4
                      (pt_x (transformPoint identity3x3 (Z2F 2) (Z2F 1)))
                      (pt_y (transformPoint identity3x3 (Z2F 2) (Z2F 1))) c)
            else 0).
Proof.
  apply (perspective_warp_pixel grid4x4 grid4x4 collapsedQuad square10 identity3x3 2 1).
  - vm_compute. reflexivity.
  - cbn. lia.
  - cbn. lia.
Defined.


(** ** Crop bounds *)

(** Pixel [(x, y)] counts for the crop: its alpha exceeds 10. *)
Definition visible (c : Canvas) (x y : Z) : Prop :=
  exists a, byte_at (data c) ((y * width c + x) * 4 + 3) = Some a /\ 10 < a.

Lemma byte_gt10 b : 0 <= b <= 255 -> (10 <? Z2F b)%float = (10 <? b).
Proof.
  intros Hb.
  assert (Hall : check_range 256 (fun b => Bool.eqb (10 <? Z2F b)%float (10 <? b)) = true)
    by (vm_compute; reflexivity).
  apply Bool.eqb_prop. apply (check_range_spec _ _ Hall). lia.
Qed.

Lemma visible_test c x y :
  wf_canvas c -> 0 <= x < width c -> 0 <= y < height c ->
  (10 <? rd (data c) ((y * width c + x) * 4 + 3))%float = true <-> visible c x y.
Proof.
  intros Hwf Hx Hy.
  destruct (wf_byte c ((y * width c + x) * 4 + 3) Hwf) as (a & Ha & Hr); [nia|].
  rewrite rd_byte_at, Ha, byte_gt10 by done. unfold visible. rewrite Ha. split.
  - intros Hlt. exists a. split; [done|]. by apply Z.ltb_lt.
  - intros (a' & [= <-] & Hlt). by apply Z.ltb_lt.
Qed.

(** The scan after the pixels [0 .. k-1], in row-major order. *)
Definition cropInv (vis : Z -> bool) (w h k : Z) (st : Z * Z * Z * Z * bool) : Prop :=
  let '(minX, minY, maxX, maxY, found) := st in
  if found then
    (forall p, 0 <= p < k -> vis p = true ->
       minX <= p mod w <= maxX /\ minY <= p / w <= maxY) /\
    (exists p, 0 <= p < k /\ vis p = true /\ p mod w = minX) /\
    (exists p, 0 <= p < k /\ vis p = true /\ p mod w = maxX) /\
    (exists p, 0 <= p < k /\ vis p = true /\ p / w = minY) /\
    (exists p, 0 <= p < k /\ vis p = true /\ p / w = maxY)
  else
    (minX, minY, maxX, maxY) = (w, h, 0, 0) /\
    forall p, 0 <= p < k -> vis p = false.

Definition cropStep (vis : Z -> bool) (w : Z) (p : Z) (st : Z * Z * Z * Z * bool) :=
  let '(minX, minY, maxX, maxY, found) := st in
  let x := p mod w in
  let y := p / w in
  if vis p then
    (if x <? minX then x else minX, if y <? minY then y else minY,
     if maxX <? x then x else maxX, if maxY <? y then y else maxY, true)
  else (minX, minY, maxX, maxY, found).

Lemma cropStep_inv vis w h k st :
  0 < w -> 0 <= k < w * h ->
  cropInv vis w h k st -> cropInv vis w h (k + 1) (cropStep vis w k st).
Proof.
  intros Hw Hk. destruct st as [[[[minX minY] maxX] maxY] found].
  unfold cropInv, cropStep. cbn zeta.
  pose proof (Z.mod_pos_bound k w Hw) as Hx.
  assert (Hy : 0 <= k / w < h).
  { split; [apply Z.div_pos; lia|]. apply Z.div_lt_upper_bound; lia. }
  destruct (vis k) eqn:Hv.
  - destruct found.
    + intros (Hall & (p1 & Hp1 & Hv1 & E1) & (p2 & Hp2 & Hv2 & E2)
              & (p3 & Hp3 & Hv3 & E3) & (p4 & Hp4 & Hv4 & E4)).
      split; [|split; [|split; [|split]]].
      * intros p Hp Hvp. destruct (Z.eq_dec p k) as [->|Hne].
        -- destruct (Z.ltb_spec (k mod w) minX), (Z.ltb_spec maxX (k mod w)),
             (Z.ltb_spec (k / w) minY), (Z.ltb_spec maxY (k / w)); lia.
        -- specialize (Hall p ltac:(lia) Hvp).
           destruct (Z.ltb_spec (k mod w) minX), (Z.ltb_spec maxX (k mod w)),
             (Z.ltb_spec (k / w) minY), (Z.ltb_spec maxY (k / w)); lia.
      * destruct (Z.ltb_spec (k mod w) minX).
        -- exists k. split; [lia|]. by split.
        -- exists p1. split; [lia|]. by split.
      * destruct (Z.ltb_spec maxX (k mod w)).
        -- exists k. split; [lia|]. by split.
        -- exists p2. split; [lia|]. by split.
      * destruct (Z.ltb_spec (k / w) minY).
        -- exists k. split; [lia|]. by split.
        -- exists p3. split; [lia|]. by split.
      * destruct (Z.ltb_spec maxY (k / w)).
        -- exists k. split; [lia|]. by split.
        -- exists p4. split; [lia|]. by split.
    + intros [[= -> -> -> ->] Hnone].
      assert (Hsame : forall p, 0 <= p < k + 1 -> vis p = true -> p = k).
      { intros p Hp Hvp. destruct (Z.eq_dec p k) as [|Hne]; [done|].
        rewrite Hnone in Hvp by lia. discriminate. }
      destruct (Z.ltb_spec (k mod w) w); [|lia].
      destruct (Z.ltb_spec (k / w) h); [|lia].
      split; [|split; [|split; [|split]]].
      * intros p Hp Hvp. rewrite (Hsame p Hp Hvp).
        destruct (Z.ltb_spec 0 (k mod w)), (Z.ltb_spec 0 (k / w)); lia.
      * exists k. split; [lia|]. by split.
      * exists k. split; [lia|]. split; [done|]. destruct (Z.ltb_spec 0 (k mod w)); lia.
      * exists k. split; [lia|]. by split.
      * exists k. split; [lia|]. split; [done|]. destruct (Z.ltb_spec 0 (k / w)); lia.
  - destruct found.
    + intros (Hall & (p1 & Hp1 & R1) & (p2 & Hp2 & R2) & (p3 & Hp3 & R3) & (p4 & Hp4 & R4)).
      split; [|split; [|split; [|split]]].
      * intros p Hp Hvp. apply Hall; [|done].
        destruct (Z.eq_dec p k) as [->|]; [congruence|lia].
      * exists p1. split; [lia|done].
      * exists p2. split; [lia|done].
      * exists p3. split; [lia|done].
      * exists p4. split; [lia|done].
    + intros [E Hnone]. split; [done|]. intros p Hp.
      destruct (Z.eq_dec p k) as [->|]; [done|]. apply Hnone. lia.
Qed.

Lemma computeCropBounds_scan (c : Canvas) :
  0 < width c -> 0 <= height c ->
  let vis := fun p => (10 <? rd (data c) (p * 4 + 3))%float in
  exists st,
    cropInv vis (width c) (height c) (width c * height c) st /\
    computeCropBounds c =
    let '(minX, minY, maxX, maxY, found) := st in
    if negb found then None
    else Some (mkCropBounds minX minY (maxX - minX + 1) (maxY - minY + 1)).
Proof.
  intros Hw Hh vis. unfold computeCropBounds. cbn zeta.
  rewrite (pixel_loop_2d (width c) (height c)
    (fun y x '(minX, minY, maxX, maxY, found) =>
       if (10 <? rd (data c) ((y * width c + x) * 4 + 3))%float then
         (if x <? minX then x else minX, if y <? minY then y else minY,
          if maxX <? x then x else maxX, if maxY <? y then y else maxY, true)
       else (minX, minY, maxX, maxY, found))) by lia.
  rewrite (iter_n_ext _ _ _ _ (cropStep vis (width c))).
  2: { intros k [[[[minX minY] maxX] maxY] found] _. unfold cropStep, vis. cbn zeta.
       set (p := 0 + 1 * Z.of_nat k).
       replace ((p / width c * width c + p mod width c) * 4) with (p * 4)
         by (pose proof (Z.div_mod p (width c) ltac:(lia)); lia).
       reflexivity. }
  eexists. split; [|reflexivity].
  assert (Hinv : forall n, (n <= Z.to_nat (width c * height c))%nat ->
            cropInv vis (width c) (height c) (Z.of_nat n)
              (iter_n n 0 1 (cropStep vis (width c)) (width c, height c, 0, 0, false))).
  { intros n Hn.
    apply (iter_n_inv (fun k st => (k <= n)%nat ->
             cropInv vis (width c) (height c) (Z.of_nat k) st)); [| |lia].
    - intros _. cbn. split; [done|]. intros; lia.
    - intros k st Hk IH _. rewrite Z.add_0_l, Z.mul_1_l.
      replace (Z.of_nat (Datatypes.S k)) with (Z.of_nat k + 1) by lia.
      apply cropStep_inv; [done|lia|]. apply IH. lia. }
  specialize (Hinv (Z.to_nat (width c * height c)) ltac:(lia)).
  rewrite Z2Nat.id in Hinv by nia. exact Hinv.
Qed.

(** X16.  [computeCropBounds] returns the tight bounding box of the
    pixels whose alpha exceeds 10: the box lies in the canvas, contains
    every such pixel, and each of its four sides touches one; it returns
    [undefined] exactly when there is no such pixel. *)
Theorem crop_bounds_tight (c : Canvas) :
  wf_canvas c ->
  match computeCropBounds c with
  | None =>
      forall x y, 0 <= x < width c -> 0 <= y < height c -> ~ visible c x y
  | Some b =>
      0 <= crop_x b /\ 1 <= crop_w b /\ crop_x b + crop_w b <= width c /\
      0 <= crop_y b /\ 1 <= crop_h b /\ crop_y b + crop_h b <= height c /\
      (forall x y, 0 <= x < width c -> 0 <= y < height c -> visible c x y ->
         crop_x b <= x < crop_x b + crop_w b /\ crop_y b <= y < crop_y b + crop_h b) /\
      (exists y, 0 <= y < height c /\ visible c (crop_x b) y) /\
      (exists y, 0 <= y < height c /\ visible c (crop_x b + crop_w b - 1) y) /\
      (exists x, 0 <= x < width c /\ visible c x (crop_y b)) /\
      (exists x, 0 <= x < width c /\ visible c x (crop_y b + crop_h b - 1))
  end.
Proof.
  intros Hwf. pose proof Hwf as (Hw & Hh & _).
  destruct (computeCropBounds_scan c Hw ltac:(lia)) as (st & Hinv & ->).
  cbn zeta in Hinv.
  destruct st as [[[[minX minY] maxX] maxY] found]. unfold cropInv in Hinv.
  set (w := width c) in *. set (h := height c) in *.
  assert (Hvis : forall p, 0 <= p < w * h ->
            (10 <? rd (data c) (p * 4 + 3))%float = true <-> visible c (p mod w) (p / w)).
  { intros p Hp.
    pose proof (Z.mod_pos_bound p w Hw) as Hx.
    assert (Hy : 0 <= p / w < h).
    { split; [apply Z.div_pos; lia|]. apply Z.div_lt_upper_bound; lia. }
    rewrite <- (visible_test c _ _ Hwf Hx Hy). fold w.
    replace ((p / w * w + p mod w) * 4 + 3) with (p * 4 + 3); [done|].
    pose proof (Z.div_mod p w ltac:(lia)). lia. }
  assert (Hpx : forall x y, 0 <= x < w -> 0 <= y < h ->
            0 <= y * w + x < w * h /\ (y * w + x) mod w = x /\ (y * w + x) / w = y).
  { intros x y Hx Hy. destruct (pixel_div_mod w x y Hx) as [Hd Hm].
    split; [nia|]. by split. }
  assert (Hcoord : forall p, 0 <= p < w * h -> 0 <= p mod w < w /\ 0 <= p / w < h).
  { intros p Hp. split; [by apply Z.mod_pos_bound|].
    split; [apply Z.div_pos; lia|]. apply Z.div_lt_upper_bound; lia. }
  destruct found; cbn [negb].
  - destruct Hinv as (Hall & (p1 & Hp1 & Hv1 & E1) & (p2 & Hp2 & Hv2 & E2)
                      & (p3 & Hp3 & Hv3 & E3) & (p4 & Hp4 & Hv4 & E4)).
    cbn [crop_x crop_y crop_w crop_h].
    pose proof (Hcoord p1 Hp1) as [Hx1 Hy1]. pose proof (Hcoord p2 Hp2) as [Hx2 Hy2].
    pose proof (Hcoord p3 Hp3) as [Hx3 Hy3]. pose proof (Hcoord p4 Hp4) as [Hx4 Hy4].
    pose proof (Hall p1 Hp1 Hv1) as B1. pose proof (Hall p3 Hp3 Hv3) as B3.
    split; [lia|]. split; [lia|]. split; [lia|]. split; [lia|]. split; [lia|].
    split; [lia|]. split; [|split; [|split; [|split]]].
    + intros x y Hx Hy Hxy. destruct (Hpx x y Hx Hy) as (Hp & Hm & Hd).
      assert (Hv : (10 <? rd (data c) ((y * w + x) * 4 + 3))%float = true).
      { apply (Hvis _ Hp). by rewrite Hm, Hd. }
      specialize (Hall _ Hp Hv). rewrite Hm, Hd in Hall. lia.
    + exists (p1 / w). split; [done|]. rewrite <- E1. by apply Hvis.
    + exists (p2 / w). split; [done|].
      replace (minX + (maxX - minX + 1) - 1) with maxX by lia. rewrite <- E2. by apply Hvis.
    + exists (p3 mod w). split; [done|]. rewrite <- E3. by apply Hvis.
    + exists (p4 mod w). split; [done|].
      replace (minY + (maxY - minY + 1) - 1) with maxY by lia. rewrite <- E4. by apply Hvis.
  - destruct Hinv as [_ Hnone]. intros x y Hx Hy Hxy.
    destruct (Hpx x y Hx Hy) as (Hp & Hm & Hd).
    assert (Hv : (10 <? rd (data c) ((y * w + x) * 4 + 3))%float = true).
    { apply (Hvis _ Hp). by rewrite Hm, Hd. }
    rewrite Hnone in Hv by done. discriminate.
Qed.

Lemma crop_bounds_tight_witness :
  computeCropBounds dot5x5 = Some (mkCropBounds 2 2 1 1) /\
  (forall x y, 0 <= x < 5 -> 0 <= y < 5 -> visible dot5x5 x y ->
     2 <= x < 2 + 1 /\ 2 <= y < 2 + 1).
Proof.
  assert (Hwf : wf_canvas dot5x5) by (apply wf_canvasb_spec; vm_compute; reflexivity).
  pose proof (crop_bounds_tight dot5x5 Hwf) as Hc.
  assert (Hb : computeCropBounds dot5x5 = Some (mkCropBounds 2 2 1 1))
    by (vm_compute; reflexivity).
  rewrite Hb in Hc. split; [exact Hb|].
  destruct Hc as (_ & _ & _ & _ & _ & _ & Hall & _). exact Hall.
Defined.


(** ** The warp mesh, pixel by pixel *)

(** X17.  [applyWarpMesh] keeps the size of the canvas, and at every
    destination pixel [(dx, dy)] it copies the four bytes found at the
    rounded sample coordinate [meshSample] when that lies in the buffer,
    and leaves the pixel transparent black (0, 0, 0, 0) otherwise. *)
Theorem warp_mesh_sampling (c : Canvas) (mesh : Mesh) (dx dy : Z) :
  wf_canvas c -> 0 <= dx < width c -> 0 <= dy < height c ->
  width (applyWarpMesh c mesh) = width c /\
  height (applyWarpMesh c mesh) = height c /\
  let w := width c in
  let h := height c in
  let out := data (applyWarpMesh c mesh) in
  let di := (dy * w + dx) * 4 in
  let '(sx, sy) := meshSample mesh w h dx dy in
  let si := ((sy * Z2F w + sx) * 4)%float in
  if (0 <=? sx)%float && (sx <? Z2F w)%float && (0 <=? sy)%float && (sy <? Z2F h)%float
  then
    byte_at out di = Some (ToUint8Clamp (rdF (data c) si)) /\
    byte_at out (di + 1) = Some (ToUint8Clamp (rdF (data c) (si + 1)%float)) /\
    byte_at out (di + 2) = Some (ToUint8Clamp (rdF (data c) (si + 2)%float)) /\
    byte_at out (di + 3) = Some (ToUint8Clamp (rdF (data c) (si + 3)%float))
  else
    byte_at out di = Some 0 /\ byte_at out (di + 1) = Some 0 /\
    byte_at out (di + 2) = Some 0 /\ byte_at out (di + 3) = Some 0.
Proof.
  intros Hwf Hx Hy. split; [reflexivity|]. split; [reflexivity|].
  by apply applyWarpMesh_pixel.
Qed.

Lemma warp_mesh_sampling_witness :
  byte_at (data (applyWarpMesh grid4x4 skewMesh)) ((0 * 4 + 2) * 4 + 1) = Some 0.
Proof.
  assert (Hwf : wf_canvas grid4x4) by (apply wf_canvasb_spec; vm_compute; reflexivity).
  destruct (warp_mesh_sampling grid4x4 skewMesh 2 0 Hwf ltac:(cbn; lia) ltac:(cbn; lia))
    as (_ & _ & Hpx).
  cbn zeta in Hpx.
  replace (meshSample skewMesh (width grid4x4) (height grid4x4) 2 0) with (2, 0)%float
    in Hpx by (vm_compute; reflexivity).
  assert (Hin : ((0 <=? 2)%float && (2 <? Z2F (width grid4x4))%float
                 && (0 <=? 0)%float && (0 <? Z2F (height grid4x4))%float) = true)
    by (vm_compute; reflexivity).
  rewrite Hin in Hpx. destruct Hpx as (_ & H1 & _).
  refine (eq_trans H1 _). vm_compute. reflexivity.
Defined.

(** ** The wrapper of the pipeline *)

(** X18.  [processLayerFilters] gives the same canvas, and draws the same
    random numbers, whether the layer's pixels arrive as the image or as
    the source canvas: both paths rasterise at the same size, run the
    same steps and end with the same two layer adjustments.  With neither
    an image nor a source canvas it fails. *)
Theorem processLayerFilters_source_agnostic `{JSMath} `{Canvas2D} `{RasterFilters}
    (img : option Canvas) (src : Canvas) (filters : LayerFilters)
    (maxSize globalHueRotate layerSaturation : option float) (rng : nat) :
  processLayerFilters (Some src) filters maxSize globalHueRotate None layerSaturation rng
  = processLayerFilters img filters maxSize globalHueRotate (Some src) layerSaturation rng /\
  processLayerFilters None filters maxSize globalHueRotate None layerSaturation rng = None.
Proof.
  split; [|reflexivity].
  unfold processLayerFilters, processFiltersFromCanvas, applyFilters, imgToCanvas.
  destruct (fitSize (width src) (height src) maxSize) as [w h]. reflexivity.
Qed.


(** ** Which way the stroke is drawn *)

(** Pixel number [i] is off the border of the canvas. *)
Definition interior (w h i : Z) : Prop :=
  0 < i mod w < w - 1 /\ 0 < i / w < h - 1.

Lemma alphaMask_flag (c : Canvas) :
  wf_canvas c ->
  (snd (alphaMask c) = true <->
   exists i, 0 <= i < width c * height c /\ interior (width c) (height c) i /\
             transparent_px c i).
Proof.
  intros Hwf. pose proof Hwf as (Hw & Hh & Hlen & Hb).
  unfold alphaMask. cbn zeta. set (total := width c * height c).
  rewrite for_to_iter, Z.sub_0_r.
  assert (Hinv : forall n, (n <= Z.to_nat total)%nat ->
    let st := iter_n n 0 1
      (fun i '(alpha, hasTransparency) =>
         let a := if (128 <? rd (data c) (i * 4 + 3))%float then 1 else 0 in
         let alpha := mask_set alpha i a in
         if negb (truthy (mask_at alpha i)) && (0 <? Z.rem i (width c))
            && (Z.rem i (width c) <? width c - 1)
            && (0 <? i / width c) && (i / width c <? height c - 1)
         then (alpha, true) else (alpha, hasTransparency))
      (zeros total, false) in
    length (fst st) = Z.to_nat total /\
    (snd st = true <->
     exists i, 0 <= i < Z.of_nat n /\ interior (width c) (height c) i /\
               transparent_px c i)).
  { intros n Hn. cbn zeta.
    apply (iter_n_inv (fun k st => (k <= n)%nat ->
      length (fst st) = Z.to_nat total /\
      (snd st = true <->
       exists i, 0 <= i < Z.of_nat k /\ interior (width c) (height c) i /\
                 transparent_px c i))); [| |lia].
    - intros _. cbn [fst snd]. split; [apply length_zeros|].
      split; [discriminate|]. intros (i & Hi & _). lia.
    - intros k [alpha flag] Hk IH Hle. destruct IH as [IHl IHf]; [lia|].
      cbn [fst snd] in IHl, IHf.
      replace (0 + 1 * Z.of_nat k) with (Z.of_nat k) by lia.
      set (i0 := Z.of_nat k). cbn zeta.
      assert (Hi0 : 0 <= i0 < total) by (unfold i0; lia).
      destruct (wf_byte c (i0 * 4 + 3) Hwf) as (b & Hbyte & Hrange);
        [unfold total in *; lia|].
      rewrite mask_at_set, Z.eqb_refl.
      destruct (mask_at_in_range alpha i0) as [v0 Hv0]; [lia|]. rewrite Hv0.
      rewrite rd_byte_at, Hbyte, byte_gt128 by done.
      rewrite Z.rem_mod_nonneg by lia.
      assert (Htr : negb (truthy (Some (if 128 <? b then 1 else 0))) = true
                    <-> transparent_px c i0).
      { unfold transparent_px. rewrite Hbyte. destruct (Z.ltb_spec 128 b); cbn.
        - split; [discriminate|]. intros (a & [= <-] & Hle'). lia.
        - split; [|done]. intros _. by exists b. }
      assert (Hint : (0 <? i0 mod width c) && (i0 mod width c <? width c - 1)
                     && (0 <? i0 / width c) && (i0 / width c <? height c - 1) = true
                     <-> interior (width c) (height c) i0).
      { unfold interior. rewrite !andb_true_iff, !Z.ltb_lt. tauto. }
      set (tr := negb (truthy (Some (if 128 <? b then 1 else 0)))) in *.
      set (inner := (0 <? i0 mod width c) && (i0 mod width c <? width c - 1)
                    && (0 <? i0 / width c) && (i0 / width c <? height c - 1)) in *.
      replace (tr && (0 <? i0 mod width c) && (i0 mod width c <? width c - 1)
               && (0 <? i0 / width c) && (i0 / width c <? height c - 1))
        with (tr && inner) by (unfold inner; by rewrite !andb_assoc).
      assert (Hstep : forall i, 0 <= i < Z.of_nat (Datatypes.S k) <->
                        0 <= i < Z.of_nat k \/ i = i0) by (unfold i0; lia).
      destruct (tr && inner) eqn:Hcond; cbn [fst snd].
      + split; [by rewrite length_mask_set|]. split; [|done]. intros _.
        apply andb_true_iff in Hcond as [Ht Hin].
        exists i0. split; [apply Hstep; by right|]. split; [by apply Hint|by apply Htr].
      + split; [by rewrite length_mask_set|]. rewrite IHf. split.
        * intros (i & Hi & Hrest). exists i. split; [apply Hstep; by left|done].
        * intros (i & Hi & Hii & Hti). apply Hstep in Hi as [Hi| ->].
          -- by exists i.
          -- exfalso. apply Htr in Hti. apply Hint in Hii.
             rewrite Hti, Hii in Hcond. discriminate. }
  specialize (Hinv (Z.to_nat total) ltac:(lia)). cbn zeta in Hinv.
  destruct Hinv as [_ Hf]. rewrite Z2Nat.id in Hf by (unfold total; nia). exact Hf.
Qed.

(** X19.  The stroke is computed per pixel exactly when some pixel off
    the border of the canvas has alpha at most 128.  Otherwise the outer
    stroke is one [strokeRect] call of line width [2 * width] on the
    rectangle that extends the canvas by [width] on each side, and
    nothing else is drawn. *)
Theorem stroke_path_choice `{Canvas2D} (c : Canvas) (color : string) (swidth : float) :
  wf_canvas c ->
  (snd (alphaMask c) = true <->
   exists x y, 0 < x < width c - 1 /\ 0 < y < height c - 1 /\
               transparent_px c (y * width c + x)) /\
  (snd (alphaMask c) = false ->
   applyStroke c color swidth false true =
   strokeRect color (swidth * 2)%float (- swidth)%float (- swidth)%float
     (Z2F (width c) + swidth * 2)%float (Z2F (height c) + swidth * 2)%float c).
Proof.
  intros Hwf. pose proof Hwf as (Hw & Hh & _). split.
  - rewrite (alphaMask_flag c Hwf). split.
    + intros (i & Hi & [Hx Hy] & Ht).
      exists (i mod width c), (i / width c). split; [done|]. split; [done|].
      replace (i / width c * width c + i mod width c) with i; [done|].
      pose proof (Z.div_mod i (width c) ltac:(lia)). lia.
    + intros (x & y & Hx & Hy & Ht).
      destruct (pixel_div_mod (width c) x y ltac:(lia)) as [Hd Hm].
      exists (y * width c + x). split; [nia|]. split; [|done].
      unfold interior. rewrite Hd, Hm. lia.
  - intros Hf. unfold applyStroke. cbn zeta.
    destruct (alphaMask c) as [alpha hasT]. cbn [snd] in Hf. subst hasT. reflexivity.
Qed.

Lemma stroke_path_choice_witness :
  snd (alphaMask dot5x5) = true <->
  exists x y, 0 < x < width dot5x5 - 1 /\ 0 < y < height dot5x5 - 1 /\
              transparent_px dot5x5 (y * width dot5x5 + x).
Proof.
  apply (stroke_path_choice (H := RefCanvas2D) dot5x5 "#ff0000"%string 2).
  apply wf_canvasb_spec. vm_compute. reflexivity.
Defined.


(** ** Oil paint and palette knife *)

(** Both filters fill a fresh buffer pixel by pixel with [writeMode],
    from histograms of the source only. *)
Lemma writeMode_local (src : list Z) (n : Z) (bins_of : Z -> Bins) :
  pixel_local (fun p out => writeMode src out (bins_of p) n (4 * p)).
Proof.
  unfold writeMode. split; [|split].
  - intros p d. destruct (bins_of p) as [[[bins binsR] binsG] binsB].
    destruct (fullestBin bins n) as [maxBin maxCount].
    destruct (0 <? maxCount)%float; cbn zeta; by rewrite !length_wr.
  - intros p d j Hj. destruct (bins_of p) as [[[bins binsR] binsG] binsB].
    destruct (fullestBin bins n) as [maxBin maxCount].
    destruct (0 <? maxCount)%float; cbn zeta; by rewrite !byte_at_wr_ne by lia.
  - intros p d d' Hag c Hc. destruct (bins_of p) as [[[bins binsR] binsG] binsB].
    destruct (fullestBin bins n) as [maxBin maxCount].
    pose proof (Hag 0 ltac:(lia)) as Hag0. pose proof (Hag 1 ltac:(lia)) as Hag1.
    pose proof (Hag 2 ltac:(lia)) as Hag2. pose proof (Hag 3 ltac:(lia)) as Hag3.
    rewrite Z.add_0_r in Hag0.
    destruct (0 <? maxCount)%float; cbn zeta; rewrite !byte_at_wr;
      (assert (c = 0 \/ c = 1 \/ c = 2 \/ c = 3) as [->|[->|[->| ->]]] by lia;
       rewrite ?Z.add_0_r; simpl_eqb; rewrite ?byte_at_wr; simpl_eqb;
       rewrite ?Hag0, ?Hag1, ?Hag2, ?Hag3; reflexivity).
Qed.

Lemma writeMode_alpha (src out : list Z) (n : Z) (b : Bins) (p a : Z) :
  byte_at out (4 * p + 3) = Some 0 ->
  byte_at src (4 * p + 3) = Some a -> 0 <= a <= 255 ->
  byte_at (writeMode src out b n (4 * p)) (4 * p + 3) = Some a.
Proof.
  intros Hout Hsrc Ha. unfold writeMode.
  destruct b as [[[bins binsR] binsG] binsB].
  destruct (fullestBin bins n) as [maxBin maxCount].
  rewrite byte_at_wr, Z.eqb_refl.
  destruct (0 <? maxCount)%float; cbn zeta;
    rewrite !byte_at_wr_ne by lia; rewrite Hout, rd_byte_at, Hsrc;
    by rewrite byte_store_read.
Qed.

(** A buffer filled by [writeMode] at every pixel has the alpha channel
    of the source. *)
Lemma writeMode_loop_alpha (c : Canvas) (n : Z) (bins_of : Z -> Z -> Bins) :
  wf_canvas c ->
  alpha_kept (data c)
    (for_to 0 (height c) (fun y out =>
       for_to 0 (width c) (fun x out =>
         writeMode (data c) out (bins_of y x) n ((y * width c + x) * 4))
       out)
     (zeros (len (data c)))).
Proof.
  intros Hwf. pose proof Hwf as (Hw & Hh & Hlen & Hb).
  rewrite (pixel_loop_2d (width c) (height c)
    (fun y x out => writeMode (data c) out (bins_of y x) n ((y * width c + x) * 4)))
    by lia.
  rewrite (iter_n_ext _ _ _ _
    (fun p out => writeMode (data c) out
                    (bins_of (p / width c) (p mod width c)) n (4 * p))).
  2: { intros k s _. set (p := 0 + 1 * Z.of_nat k). f_equal.
       pose proof (Z.div_mod p (width c) ltac:(lia)). lia. }
  destruct (pixel_loop_spec
              (fun p out => writeMode (data c) out
                              (bins_of (p / width c) (p mod width c)) n (4 * p))
              (Z.to_nat (width c * height c)) (zeros (len (data c)))
              (writeMode_local (data c) n
                 (fun p => bins_of (p / width c) (p mod width c))))
    as (Hl & Hpix & _).
  split.
  { rewrite Hl, length_zeros. unfold len. lia. }
  intros j Hj.
  destruct (Z.lt_ge_cases j 0) as [Hneg|Hpos].
  { by rewrite !byte_at_None by lia. }
  destruct (Z.lt_ge_cases j (len (data c))) as [Hin|Hout].
  - set (p := j / 4).
    assert (Hjp : j = 4 * p + 3) by (pose proof (Z.div_mod j 4 ltac:(lia)); lia).
    assert (Hp : 0 <= p < width c * height c)
      by (unfold p; split; [apply Z.div_pos; lia|apply Z.div_lt_upper_bound; lia]).
    rewrite Hjp. rewrite (Hpix p 3) by lia.
    destruct (wf_byte c (4 * p + 3) Hwf) as (a & Ha & Hr); [lia|].
    rewrite Ha. apply writeMode_alpha; [|done|done].
    apply byte_at_zeros. lia.
  - rewrite !byte_at_None; [done|by right|].
    right. unfold len in *. rewrite Hl, length_zeros. lia.
Qed.

(** X20.  On a well-formed buffer, oil paint with [levels] between 0
    and 65536 (the length of its histograms) and the palette knife give
    a buffer of the same size with the same byte at every alpha
    position: both write each output pixel once, copying its alpha from
    the source. *)
Theorem histogram_filters_keep_alpha `{JSMath} (c : Canvas)
    (radius levels strokeLen direction : float) :
  wf_canvas c ->
  (0 <=? levels)%float = true ->
  (levels <=? 65536)%float = true ->
  same_alpha c (applyOilPaint c radius levels) /\
  same_alpha c (applyPaletteKnife c strokeLen direction).
Proof.
  intros Hwf _ _. split.
  - unfold applyOilPaint. cbn zeta. apply alpha_kept_same_alpha.
    apply (writeMode_loop_alpha c (ceilZ levels)
      (fun y x =>
         for_range (Z.max 0 (y - _)) (Z.min (height c - 1) (y + _) + 1) _
           (fun sy b =>
              for_range (Z.max 0 (x - _)) (Z.min (width c - 1) (x + _) + 1) _
                (fun sx b => addToBin b _ _ _ _) b)
           (emptyBins _)) Hwf).
  - unfold applyPaletteKnife. cbn zeta. apply alpha_kept_same_alpha.
    apply (writeMode_loop_alpha c 6
      (fun y x => fold_left _ (knifeSamples strokeLen direction) (emptyBins 6)) Hwf).
Qed.

Lemma histogram_filters_keep_alpha_witness :
  same_alpha dot5x5 (applyOilPaint dot5x5 2 8) /\
  same_alpha dot5x5 (applyPaletteKnife (H := RefMath) dot5x5 4 45).
Proof.
  apply (histogram_filters_keep_alpha (H := RefMath)).
  - apply wf_canvasb_spec. vm_compute. reflexivity.
  - reflexivity.
  - reflexivity.
Defined.


(** ** Texture and facet *)

(** Storing the source's own alpha byte changes nothing. *)
Lemma alpha_kept_wr_copy src d j :
  bytes src -> alpha_kept src d -> j mod 4 = 3 -> alpha_kept src (wr d j (rd src j)).
Proof.
  intros Hb [Hl Ha] Hj. split; [by rewrite length_wr|].
  intros j' Hj'. rewrite byte_at_wr. destruct (Z.eqb_spec j j') as [<-|Hne]; [|by apply Ha].
  rewrite (Ha j Hj), rd_byte_at.
  destruct (byte_at src j) as [a|] eqn:Hsrc; [|done].
  f_equal. apply byte_store_read.
  unfold byte_at in Hsrc. destruct (j <? 0); [done|].
  exact (Forall_lookup_1 _ _ _ _ Hb Hsrc).
Qed.

(** The stores of a filter body: colour bytes, or the source's alpha. *)
Ltac alpha_stores Hb :=
  repeat first
    [ assumption
    | apply alpha_kept_wr_copy; [exact Hb| |mod4]
    | apply alpha_kept_wr; [|mod4] ].

Section TextureFrame.
Context `{JSMath}.
Variables w h : Z.
Variable intensity : float.
Variable src : list Z.
Hypothesis Hb : bytes src.

(** A loop nest over [(out, rng)] that keeps the alpha of [out]. *)
Lemma rng_loops_alpha lo1 hi1 lo2 hi2
    (body : Z -> Z -> list Z * nat -> list Z * nat) (st : list Z * nat) :
  alpha_kept src (fst st) ->
  (forall y x out rng, alpha_kept src out -> alpha_kept src (fst (body y x (out, rng)))) ->
  alpha_kept src (fst (for_to lo1 hi1 (fun y st => for_to lo2 hi2 (body y) st) st)).
Proof.
  intros H0 Hbody.
  apply (for_to_inv (fun st => alpha_kept src (fst st))); [done|].
  intros y st' Hst. apply (for_to_inv (fun st => alpha_kept src (fst st))); [done|].
  intros x [out rng] Hout. by apply Hbody.
Qed.

Lemma loops_alpha lo1 hi1 lo2 hi2 (body : Z -> Z -> list Z -> list Z) (out : list Z) :
  alpha_kept src out ->
  (forall y x out, alpha_kept src out -> alpha_kept src (body y x out)) ->
  alpha_kept src (for_to lo1 hi1 (fun y out => for_to lo2 hi2 (body y) out) out).
Proof.
  intros H0 Hbody. apply for_to_inv; [done|].
  intros y out' Hout. apply for_to_inv; [done|]. intros x out'' Hout'. by apply Hbody.
Qed.

Lemma copyPixel_alpha out k :
  alpha_kept src out -> alpha_kept src (copyPixel src out (k * 4)).
Proof. intros Hout. unfold copyPixel. cbn zeta. alpha_stores Hb. Qed.

Lemma textureCanvas_alpha out :
  alpha_kept src out -> alpha_kept src (textureCanvas w h intensity src out).
Proof.
  intros Hout. unfold textureCanvas. apply loops_alpha; [done|].
  intros y x out' Hout'. cbn zeta. alpha_stores Hb.
Qed.

Lemma textureWatercolor_alpha out rng :
  alpha_kept src out -> alpha_kept src (fst (textureWatercolor w h intensity src out rng)).
Proof.
  intros Hout. unfold textureWatercolor. cbn zeta.
  set (first := for_to 0 h _ (out, rng)).
  assert (Hfirst : alpha_kept src (fst first)).
  { unfold first. apply (rng_loops_alpha 0 h 0 w
      (fun y x '(out, rng) => (wr (wr (wr (wr out _ _) _ _) _ _) _ _, _))); [done|].
    intros y x out' rng' Hout'. cbn [fst]. alpha_stores Hb. }
  destruct first as [out1 rng1]. cbn [fst] in Hfirst.
  apply (rng_loops_alpha 1 (h - 1) 1 (w - 1)
    (fun y x '(out, rng) =>
       (wr (wr (wr (wr (wr (wr out _ _) _ _) _ _) _ _) _ _) _ _, _))); [done|].
  intros y x out' rng' Hout'. cbn [fst]. alpha_stores Hb.
Qed.

Lemma textureCrayon_alpha out rng :
  alpha_kept src out -> alpha_kept src (fst (textureCrayon w h intensity src out rng)).
Proof.
  intros Hout. unfold textureCrayon.
  apply (rng_loops_alpha 0 h 0 w
    (fun y x '(out, rng) => (wr (wr (wr (wr out _ _) _ _) _ _) _ _, _))); [done|].
  intros y x out' rng' Hout'. cbn [fst]. alpha_stores Hb.
Qed.

Lemma textureImpasto_alpha out :
  alpha_kept src out -> alpha_kept src (textureImpasto w h intensity src out).
Proof.
  intros Hout. unfold textureImpasto. cbn zeta.
  apply for_to_inv; [apply for_to_inv|].
  - apply loops_alpha; [done|]. intros y x out' Hout'. cbn zeta.
    apply alpha_kept_wr_copy; [done| |mod4].
    apply (for_to_inv_idx (alpha_kept src)); [done|].
    intros ch out'' Hch Hout''. cbn zeta. apply alpha_kept_wr; [done|mod4].
  - intros x out' Hout'. cbn zeta. by do 2 apply copyPixel_alpha.
  - intros y out' Hout'. cbn zeta. by do 2 apply copyPixel_alpha.
Qed.

Lemma textureCrosshatch_alpha out :
  alpha_kept src out -> alpha_kept src (textureCrosshatch w h intensity src out).
Proof.
  intros Hout. unfold textureCrosshatch. apply loops_alpha; [done|].
  intros y x out' Hout'. cbn zeta. alpha_stores Hb.
Qed.

Lemma textureStipple_alpha out rng :
  alpha_kept src out -> alpha_kept src (fst (textureStipple w h intensity src out rng)).
Proof.
  intros Hout. unfold textureStipple.
  apply (rng_loops_alpha 0 h 0 w
    (fun y x '(out, rng) => (wr (wr (wr (wr out _ _) _ _) _ _) _ _, _))); [done|].
  intros y x out' rng' Hout'. cbn [fst]. alpha_stores Hb.
Qed.
End TextureFrame.

(** X21.  On a well-formed buffer the texture filter keeps the size and
    every alpha byte in each of its six modes (canvas, watercolor,
    crayon, impasto, crosshatch, stipple) and for the other mode
    numbers, which change nothing: the alpha it stores is the source's
    own. *)
Theorem texture_filter_keeps_alpha `{JSMath} (c : Canvas) (mode intensity : float)
    (rng : nat) :
  wf_canvas c ->
  same_alpha c (fst (applyTextureFilter c mode intensity rng)).
Proof.
  intros Hwf. pose proof Hwf as (_ & _ & _ & Hb). fold (bytes (data c)) in Hb.
  unfold applyTextureFilter.
  destruct (mode =? 0)%float; [apply same_alpha_refl|]. cbn zeta.
  assert (Hfst : forall (st : list Z * nat),
            fst (let '(out, rng) := st in (putImageData c out, rng))
            = putImageData c (fst st)) by (by intros []).
  rewrite Hfst. apply alpha_kept_same_alpha.
  pose proof (alpha_kept_refl (data c)) as H0.
  destruct (mode =? 1)%float; [by apply textureCanvas_alpha|].
  destruct (mode =? 2)%float; [by apply textureWatercolor_alpha|].
  destruct (mode =? 3)%float; [by apply textureCrayon_alpha|].
  destruct (mode =? 4)%float; [by apply textureImpasto_alpha|].
  destruct (mode =? 5)%float; [by apply textureCrosshatch_alpha|].
  destruct (mode =? 6)%float; [by apply textureStipple_alpha|done].
Qed.

Lemma texture_filter_keeps_alpha_witness :
  same_alpha dot5x5 (fst (applyTextureFilter (H := RefMath) dot5x5 4 1 0)).
Proof.
  apply (texture_filter_keeps_alpha (H := RefMath)).
  apply wf_canvasb_spec. vm_compute. reflexivity.
Defined.

Section FacetFrame.
Context `{JSMath}.
Variables w h bs : Z.
Variables src d0 : list Z.

Lemma fillBlock_alpha pixels x0 y0 x1 y1 out :
  alpha_kept d0 out -> alpha_kept d0 (fillBlock w h src pixels x0 y0 x1 y1 out).
Proof.
  intros Hout. unfold fillBlock.
  destruct (fold_left _ pixels (0%float, 0%float, 0%float, 0%float)) as [[[tr tg] tb] cnt].
  destruct (cnt =? 0)%float; [done|]. cbn zeta.
  apply for_to_inv; [apply for_to_inv; [apply fold_left_inv; [done|]|]|].
  - intros out' [px py] _ Hout'. destruct (inBounds w h px py); [|done].
    cbn zeta. repeat (apply alpha_kept_wr; [|mod4]). done.
  - intros xx out' Hout'. destruct (_ && _); [|done].
    cbn zeta. repeat (apply alpha_kept_wr; [|mod4]). done.
  - intros yy out' Hout'. destruct (_ && _); [|done].
    cbn zeta. repeat (apply alpha_kept_wr; [|mod4]). done.
Qed.

Lemma facetRects_alpha out rng :
  alpha_kept d0 out -> alpha_kept d0 (fst (facetRects w h bs src out rng)).
Proof.
  intros Hout. unfold facetRects.
  apply (for_range_inv (fun st => alpha_kept d0 (fst st))); [done|].
  intros by_ st Hst. apply (for_range_inv (fun st => alpha_kept d0 (fst st))); [done|].
  intros bx [out' rng'] Hout'. cbn zeta.
  destruct (minIndex _ _) as [x1|]; [|done]. destruct (minIndex _ _) as [y1|]; [|done].
  cbn [fst]. by apply fillBlock_alpha.
Qed.

Lemma facetTriangles_alpha out :
  alpha_kept d0 out -> alpha_kept d0 (facetTriangles w h bs src out).
Proof.
  intros Hout. unfold facetTriangles.
  apply for_range_inv; [done|]. intros by_ out' Hout'.
  apply for_range_inv; [done|]. intros bx out'' Hout''. cbn zeta.
  by do 2 apply fillBlock_alpha.
Qed.

Lemma facetVoronoi_alpha out rng :
  alpha_kept d0 out -> alpha_kept d0 (fst (facetVoronoi w h bs src out rng)).
Proof.
  intros Hout. unfold facetVoronoi. cbn zeta.
  destruct (voronoiSeeds _ _ _ _ _) as [seeds rng']. cbn [fst].
  apply for_to_inv; [done|]. intros y out' Hout'. cbn zeta.
  apply for_to_inv; [done|]. intros x out'' Hout''. cbn zeta.
  destruct (for_to (-2) 3 _ _) as [minDist bestIdx].
  destruct (seeds !! Z.to_nat bestIdx) as [best|]; [|done].
  repeat (apply alpha_kept_wr; [|mod4]). done.
Qed.

Lemma facetDiamonds_alpha out :
  alpha_kept d0 out -> alpha_kept d0 (facetDiamonds w h bs src out).
Proof.
  intros Hout. unfold facetDiamonds. cbn zeta.
  apply for_range_inv; [done|]. intros by_ out' Hout'.
  apply for_range_inv; [done|]. intros bx out'' Hout''. cbn zeta.
  apply for_to_inv.
  - destruct (blockPixels _ _ _ _ _); [done|]. by apply fillBlock_alpha.
  - intros yy o Ho. apply for_to_inv; [done|]. intros xx o' Ho'.
    destruct (negb _); [|done]. cbn zeta. repeat (apply alpha_kept_wr; [|mod4]). done.
Qed.
End FacetFrame.

(** X22.  The facet filter writes colour bytes only, in each of its four
    modes (rectangles, triangles, Voronoi cells, diamonds): the result
    has the size of the input and the same byte at every alpha position,
    whatever the random stream. *)
Theorem facet_filter_keeps_alpha `{JSMath} (c : Canvas) (mode size : float) (rng : nat) :
  same_alpha c (fst (applyFacet c mode size rng)).
Proof.
  unfold applyFacet. cbn zeta.
  assert (Hfst : forall (st : list Z * nat),
            fst (let '(out, rng) := st in (putImageData c out, rng))
            = putImageData c (fst st)) by (by intros []).
  rewrite Hfst. apply alpha_kept_same_alpha.
  pose proof (alpha_kept_refl (data c)) as H0.
  destruct (mode =? 1)%float; [by apply facetRects_alpha|].
  destruct (mode =? 2)%float; [by apply facetTriangles_alpha|].
  destruct (mode =? 3)%float; [by apply facetVoronoi_alpha|].
  destruct (mode =? 4)%float; [by apply facetDiamonds_alpha|done].
Qed.


(** ** The magic wand *)

(** The pixels not yet visited. *)
Fixpoint count0 (l : list Z) : nat :=
  match l with
  | [] => 0
  | v :: l => (if v =? 0 then 1 else 0) + count0 l
  end.

Lemma count0_insert (l : list Z) (i : nat) :
  l !! i = Some 0 -> (count0 (<[i := 1%Z]> l) + 1 = count0 l)%nat.
Proof.
  revert i. induction l as [|v l IH]; intros i Hi; [done|].
  destruct i as [|i]; cbn in *.
  - injection Hi as ->. cbn. by rewrite Nat.add_1_r.
  - rewrite <- (IH i Hi). by rewrite Nat.add_assoc.
Qed.

Lemma count0_zeros n : count0 (zeros n) = Z.to_nat n.
Proof.
  unfold zeros. induction (Z.to_nat n) as [|k IH]; [done|]. cbn. by rewrite IH.
Qed.

Lemma mask_set_unvisited visited i :
  0 <= i < Z.of_nat (length visited) -> truthy (mask_at visited i) = false ->
  (count0 (mask_set visited i 1%Z) + 1 = count0 visited)%nat.
Proof.
  intros Hi Ht. unfold mask_set, mask_at in *. destruct (Z.ltb_spec i 0); [lia|].
  destruct (visited !! Z.to_nat i) as [v|] eqn:Hv.
  - cbn in Ht. apply negb_false_iff, Z.eqb_eq in Ht. subst v. by apply count0_insert.
  - apply lookup_ge_None in Hv. lia.
Qed.

Section Wand.
Variables w h : Z.
Variable d0 : list Z.
Variables seedR seedG seedB threshold : float.
Variable seedp : Z.
Hypothesis Hw : 0 < w.
Hypothesis Hh : 0 < h.
Hypothesis Hlen : len d0 = 4 * (w * h).

(** Pixel number [p] had alpha other than 0 and a colour within the
    threshold of the seed's. *)
Definition similar (p : Z) : Prop :=
  (rd d0 (p * 4 + 3) =? 0)%float = false /\
  ((abs (rd d0 (p * 4) - seedR) + abs (rd d0 (p * 4 + 1) - seedG)
    + abs (rd d0 (p * 4 + 2) - seedB)) / 3 <=? threshold)%float = true.

Definition erasable (p : Z) : Prop := p = seedp \/ similar p.

(** The buffer during the fill: colours as at the start, and each alpha
    either as at the start or 0 at an erasable pixel. *)
Definition wandData (data : list Z) : Prop :=
  length data = length d0 /\
  (forall j, j mod 4 <> 3 -> byte_at data j = byte_at d0 j) /\
  (forall p, byte_at data (p * 4 + 3) = byte_at d0 (p * 4 + 3) \/
             (byte_at data (p * 4 + 3) = Some 0 /\ erasable p)).

(** The queue holds coordinate pairs of erasable pixels of the canvas. *)
Inductive queueOk : list Z -> Prop :=
| queueOk_nil : queueOk []
| queueOk_push py px q :
    0 <= px < w -> 0 <= py < h -> erasable (py * w + px) -> queueOk q ->
    queueOk (py :: px :: q).

Lemma wandNeighbour_spec data visited queue n :
  wandData data -> queueOk queue -> length visited = Z.to_nat (w * h) ->
  queueOk (snd (wandNeighbour w h data seedR seedG seedB threshold (visited, queue) n)) /\
  length (fst (wandNeighbour w h data seedR seedG seedB threshold (visited, queue) n))
    = Z.to_nat (w * h) /\
  (length (snd (wandNeighbour w h data seedR seedG seedB threshold (visited, queue) n))
   + 2 * count0 (fst (wandNeighbour w h data seedR seedG seedB threshold
                        (visited, queue) n))
   <= length queue + 2 * count0 visited)%nat.
Proof.
  intros (Hl & Hcol & Halpha) Hq Hv. destruct n as [nx ny]. unfold wandNeighbour.
  destruct ((nx <? 0) || (w <=? nx) || (ny <? 0) || (h <=? ny)) eqn:Hb;
    [cbn [fst snd]; split; [done|]; split; [done|lia]|].
  rewrite !orb_false_iff in Hb. destruct Hb as [[[Hb1 Hb2] Hb3] Hb4].
  apply Z.ltb_ge in Hb1, Hb3. apply Z.leb_gt in Hb2, Hb4.
  cbn zeta. set (ni := ny * w + nx).
  assert (Hni : 0 <= ni < w * h) by (unfold ni; nia).
  destruct (truthy (mask_at visited ni)) eqn:Ht;
    [cbn [fst snd]; split; [done|]; split; [done|lia]|].
  pose proof (mask_set_unvisited visited ni ltac:(lia) Ht) as Hc.
  destruct (rd data (ni * 4 + 3) =? 0)%float eqn:Ha;
    [cbn [fst snd]; split; [done|]; split; [by rewrite length_mask_set|lia]|].
  destruct (_ <=? threshold)%float eqn:Hs; cbn [fst snd];
    (split; [|split; [by rewrite length_mask_set|cbn [length]; lia]]); [|done].
  apply queueOk_push; [lia|lia| |done]. right. fold ni. split.
  - destruct (Halpha ni) as [He|[Hz _]].
    + by rewrite <- (rd_ext _ _ _ He).
    + rewrite rd_byte_at, Hz in Ha. discriminate.
  - rewrite <- (rd_ext data d0 (ni * 4)), <- (rd_ext data d0 (ni * 4 + 1)),
      <- (rd_ext data d0 (ni * 4 + 2)); [done| | |]; apply Hcol; mod4.
Qed.

Lemma wandLoop_spec fuel : forall data visited queue,
  wandData data -> queueOk queue -> length visited = Z.to_nat (w * h) ->
  (length queue + 2 * count0 visited <= 2 * fuel)%nat ->
  exists data',
    wandLoop fuel w h seedR seedG seedB threshold data visited queue = Some data' /\
    wandData data' /\
    (forall j, byte_at data j = Some 0 -> byte_at data' j = Some 0) /\
    match queue with
    | py :: px :: _ => byte_at data' ((py * w + px) * 4 + 3) = Some 0
    | _ => True
    end.
Proof.
  induction fuel as [|fuel IH]; intros data visited queue Hd Hq Hv Hm.
  - destruct Hq as [|py px q Hpx Hpy He Hq]; [|cbn [length] in Hm; lia].
    exists data. split; [reflexivity|]. split; [exact Hd|]. split; [tauto|exact I].
  - destruct Hq as [|py px q Hpx Hpy He Hq].
    { exists data. split; [reflexivity|]. split; [exact Hd|]. split; [tauto|exact I]. }
    cbn [wandLoop]. set (pi := (py * w + px) * 4).
    set (data1 := wr data (pi + 3) 0).
    pose proof Hd as (Hl & Hcol & Halpha).
    assert (Hin : 0 <= pi + 3 < len data) by (unfold pi, len in *; nia).
    assert (H1 : byte_at data1 (pi + 3) = Some 0).
    { unfold data1. rewrite byte_at_wr_eq by done. reflexivity. }
    assert (Hd1 : wandData data1).
    { split; [unfold data1; by rewrite length_wr|]. split.
      - intros j Hj. unfold data1. rewrite byte_at_wr_ne; [by apply Hcol|].
        intros <-. apply Hj. unfold pi. mod4.
      - intros p. destruct (Z.eq_dec p (py * w + px)) as [->|Hne].
        + right. by split.
        + unfold data1. rewrite byte_at_wr_ne by (unfold pi; lia). apply Halpha. }
    assert (Hmono1 : forall j, byte_at data j = Some 0 -> byte_at data1 j = Some 0).
    { intros j Hj. destruct (Z.eq_dec j (pi + 3)) as [->|Hne]; [done|].
      unfold data1. by rewrite byte_at_wr_ne by lia. }
    assert (Hfold :
      let st := fold_left (wandNeighbour w h data1 seedR seedG seedB threshold)
                  [(px - 1, py); (px + 1, py); (px, py - 1); (px, py + 1)] (visited, q) in
      queueOk (snd st) /\ length (fst st) = Z.to_nat (w * h) /\
      (length (snd st) + 2 * count0 (fst st) <= length q + 2 * count0 visited)%nat).
    { cbn zeta.
      apply (fold_left_inv (fun st : list Z * list Z =>
               queueOk (snd st) /\ length (fst st) = Z.to_nat (w * h) /\
               (length (snd st) + 2 * count0 (fst st)
                <= length q + 2 * count0 visited)%nat)).
      - cbn [fst snd]. split; [done|]. split; [done|lia].
      - intros [v' q'] n _ (Hq' & Hv' & Hm'). cbn [fst snd] in *.
        destruct (wandNeighbour_spec data1 v' q' n Hd1 Hq' Hv') as (Hq'' & Hv'' & Hm'').
        split; [done|]. split; [done|lia]. }
    cbn zeta in Hfold.
    destruct (fold_left _ _ (visited, q)) as [v' q']. cbn [fst snd] in Hfold.
    destruct Hfold as (Hq' & Hv' & Hm'). cbn [length] in Hm.
    destruct (IH data1 v' q' Hd1 Hq' Hv' ltac:(lia)) as (data' & Hrun & Hd' & Hmono & _).
    exists data'. split; [exact Hrun|]. split; [done|]. split.
    + intros j Hj. by apply Hmono, Hmono1.
    + by apply Hmono.
Qed.
End Wand.

(** X23.  The flood fill of the magic wand, started on a pixel of the
    canvas whose alpha is not 0: within [w * h] rounds the queue is
    empty; the size of the buffer and every colour byte are kept; every
    alpha byte is either unchanged or 0, and it is set to 0 only at the
    seed or at pixels that had alpha other than 0 and a colour whose
    mean channel distance to the seed's is within the threshold; the
    seed's alpha is 0 afterwards. *)
Theorem magic_wand_fill (c : Canvas) (x y : Z) (threshold : float) :
  wf_canvas c -> 0 <= x < width c -> 0 <= y < height c ->
  (rd (data c) ((y * width c + x) * 4 + 3) =? 0)%float = false ->
  let seed := y * width c + x in
  let seedR := rd (data c) (seed * 4) in
  let seedG := rd (data c) (seed * 4 + 1) in
  let seedB := rd (data c) (seed * 4 + 2) in
  exists out,
    magicWandFill c x y threshold (Z.to_nat (width c * height c)) = Some out /\
    width out = width c /\ height out = height c /\
    length (data out) = length (data c) /\
    (forall j, j mod 4 <> 3 -> byte_at (data out) j = byte_at (data c) j) /\
    (forall p,
       byte_at (data out) (p * 4 + 3) = byte_at (data c) (p * 4 + 3) \/
       (byte_at (data out) (p * 4 + 3) = Some 0 /\
        (p = seed \/ similar (data c) seedR seedG seedB threshold p))) /\
    byte_at (data out) (seed * 4 + 3) = Some 0.
Proof.
  intros Hwf Hx Hy Halpha seed seedR seedG seedB.
  pose proof Hwf as (Hw & Hh & Hlen & _).
  unfold magicWandFill. cbn zeta.
  destruct (Z.ltb_spec x 0); [lia|]. destruct (Z.leb_spec (width c) x); [lia|].
  destruct (Z.ltb_spec y 0); [lia|]. destruct (Z.leb_spec (height c) y); [lia|].
  cbn [orb]. rewrite Halpha. fold seed. fold seedR seedG seedB.
  set (visited := mask_set (zeros (width c * height c)) seed 1).
  assert (Hseed : 0 <= seed < width c * height c) by (unfold seed; nia).
  assert (Hzero : truthy (mask_at (zeros (width c * height c)) seed) = false).
  { rewrite mask_at_zeros. destruct (Z.leb_spec 0 seed); [|lia].
    destruct (Z.ltb_spec seed (width c * height c)); [done|lia]. }
  pose proof (mask_set_unvisited (zeros (width c * height c)) seed
                ltac:(rewrite length_zeros; lia) Hzero) as Hcount.
  fold visited in Hcount. rewrite count0_zeros in Hcount.
  destruct (wandLoop_spec (width c) (height c) (data c) seedR seedG seedB threshold seed
              Hw Hh Hlen (Z.to_nat (width c * height c)) (data c) visited [y; x])
    as (data' & Hrun & (Hl & Hcol & Hal) & _ & Hcleared).
  - split; [done|]. split; [done|]. intros p. by left.
  - apply queueOk_push; [done|done| |apply queueOk_nil]. by left.
  - unfold visited. by rewrite length_mask_set, length_zeros.
  - cbn [length]. lia.
  - rewrite Hrun. eexists. split; [reflexivity|]. unfold putImageData.
    cbn [width height data]. split; [done|]. split; [done|]. split; [done|].
    split; [done|]. split; [exact Hal|exact Hcleared].
Qed.

Lemma magic_wand_fill_witness :
  exists out,
    magicWandFill dot5x5 2 2 30 25 = Some out /\
    byte_at (data out) (12 * 4 + 3) = Some 0.
Proof.
  destruct (magic_wand_fill dot5x5 2 2 30) as (out & Hrun & _ & _ & _ & _ & _ & Hseed).
  - apply wf_canvasb_spec. vm_compute. reflexivity.
  - cbn. lia.
  - cbn. lia.
  - vm_compute. reflexivity.
  - exists out. split; [exact Hrun|exact Hseed].
Defined.


(** ** Stroke containment *)

(** Without a transparent pixel off the border, the outer stroke is the
    one [strokeRect] call on the rectangle grown by the stroke width. *)
Lemma applyStroke_outer_rect `{Canvas2D} c color swidth :
  snd (alphaMask c) = false ->
  applyStroke c color swidth false true =
  strokeRect color (swidth * 2)%float (- swidth)%float (- swidth)%float
    (Z2F (width c) + swidth * 2)%float (Z2F (height c) + swidth * 2)%float c.
Proof.
  intros Hf. unfold applyStroke. cbn zeta.
  destruct (alphaMask c) as [alpha hasT]. cbn [snd] in Hf. subst hasT. reflexivity.
Qed.

(** The outer stroke at pixel [p], computed per pixel: the pixel is kept,
    or it was transparent, lies within reach of an opaque pixel and is
    painted. *)
Lemma outer_stroke_pixel `{Canvas2D} (c : Canvas) (color : string)
    (swidth : float) (p : Z) :
  wf_canvas c -> width c <= 65536 -> height c <= 65536 ->
  snd (alphaMask c) = true ->
  0 <= p < width c * height c ->
  rgba (applyStroke c color swidth false true) p = rgba c p \/
  (transparent_px c p /\
   near (width c) (height c) (opaque_px c)
     (strokeReach swidth (width c * height c)) p).
Proof.
  intros Hwf Hw Hh Ht Hp.
  rewrite applyStroke_outer by done.
  set (marks := outerMarks c swidth). set (alpha := fst (alphaMask c)).
  set (col := strokeColour color).
  destruct (pixel_loop_spec (outerBody marks alpha col.1.1 col.1.2 col.2)
              (Z.to_nat (width c * height c)) (data c)
              (outerBody_local _ _ _ _ _)) as (_ & Hpx & _).
  rewrite (rgba_ext c _ (outerBody marks alpha col.1.1 col.1.2 col.2 p (data c)) p)
    by (intros k Hk; apply Hpx; lia).
  pose proof (alphaMask_spec c Hwf) as Hmask. fold alpha in Hmask.
  pose proof (outerMarks_near c swidth Hwf Hw Hh) as [_ Hnear]. fold marks in Hnear.
  unfold outerBody.
  destruct (truthy (mask_at marks p)) eqn:Hm; cbn [andb];
    [|left; by rewrite putImageData_data].
  destruct (truthy (mask_at alpha p)) eqn:Ha; cbn [negb];
    [left; by rewrite putImageData_data|].
  right. split.
  - by apply (mask_falsy_transparent c alpha).
  - by apply Hnear.
Qed.

(** The reference canvas meets the assumption made of [strokeRect]
    below: on the opaque 4x4 buffer the band of the outer rectangle
    covers no pixel centre. *)
Lemma strokeRect_outside_reference :
  snd (alphaMask red4x4) = false /\
  strokeRect (Canvas2D := RefCanvas2D) "#00ff00"%string (Z2F 3 * 2)%float
    (- Z2F 3)%float (- Z2F 3)%float
    (Z2F (width red4x4) + Z2F 3 * 2)%float (Z2F (height red4x4) + Z2F 3 * 2)%float
    red4x4 = red4x4.
Proof. vm_compute. split; reflexivity. Qed.

(** C3.  The outer stroke ([outer = true], [inner = false]) of whole
    width [n]: every pixel whose colour [applyStroke] changes was
    transparent in the input (alpha at most 128, the stroke's own mask)
    and is joined to an opaque pixel by a 4-connected path of at most
    [n] steps, and no opaque pixel changes.  On a canvas without a
    transparent pixel off the border the stroke is the browser's
    [strokeRect] on the rectangle grown by [n], whose band lies outside
    the canvas: that this call paints nothing on the canvas is the
    assumption made of the browser. *)
Theorem stroke_containment `{Canvas2D} (c : Canvas) (color : string) (n p : Z) :
  wf_canvas c -> width c <= 65536 -> height c <= 65536 ->
  1 <= n <= 4096 ->
  (snd (alphaMask c) = false ->
   strokeRect color (Z2F n * 2)%float (- Z2F n)%float (- Z2F n)%float
     (Z2F (width c) + Z2F n * 2)%float (Z2F (height c) + Z2F n * 2)%float c = c) ->
  0 <= p < width c * height c ->
  let out := applyStroke c color (Z2F n) false true in
  (rgba out p <> rgba c p ->
   transparent_px c p /\
   near (width c) (height c) (opaque_px c) (Z.to_nat n) p) /\
  (opaque_px c p -> rgba out p = rgba c p).
Proof.
  intros Hwf Hw Hh Hn Hrect Hp out. subst out.
  destruct (snd (alphaMask c)) eqn:Ht.
  - pose proof (outer_stroke_pixel c color (Z2F n) p Hwf Hw Hh Ht Hp) as Hpx.
    rewrite (strokeReach_whole n _ Hn) in Hpx. split.
    + intros Hne. destruct Hpx as [Heq|Hpaint]; [by destruct Hne|exact Hpaint].
    + intros Ho. destruct Hpx as [Heq|[Htr _]]; [exact Heq|].
      destruct (opaque_not_transparent c p Ho Htr).
  - rewrite (applyStroke_outer_rect c color (Z2F n) Ht), (Hrect eq_refl).
    split; [intros Hne; by destruct Hne|reflexivity].
Qed.

Lemma stroke_containment_witness :
  transparent_px dot5x5 7 /\
  near (width dot5x5) (height dot5x5) (opaque_px dot5x5) (Z.to_nat 2) 7.
Proof.
  refine (proj1 (stroke_containment (H := RefCanvas2D) dot5x5 "#ff0000"%string 2 7
                   _ _ _ _ _ _) _).
  - apply wf_canvasb_spec. vm_compute. reflexivity.
  - cbn. lia.
  - cbn. lia.
  - lia.
  - intros Hf. vm_compute in Hf. discriminate.
  - cbn. lia.
  - intros Heq. vm_compute in Heq. discriminate.
Defined.


(** ** Alpha preservation, filter by filter *)

Section AlphaFrame.
Context `{JSMath} `{Canvas2D}.

(** Blur type 2: the guard returns the canvas, the box blur writes
    colour bytes only. *)
Lemma applyNewBlur_box_alpha (c : Canvas) (radius angle : float) :
  same_alpha c (applyNewBlur c 2 radius angle).
Proof.
  unfold applyNewBlur.
  destruct (_ || _); [apply same_alpha_refl|].
  change (2 =? 1)%float with false. change (2 =? 2)%float with true.
  cbn match. apply boxBlur_alpha.
Qed.

Lemma applyOilPaint_alpha (c : Canvas) (radius levels : float) :
  wf_canvas c -> same_alpha c (applyOilPaint c radius levels).
Proof.
  intros Hwf. unfold applyOilPaint. cbn zeta. apply alpha_kept_same_alpha.
  apply (writeMode_loop_alpha c (ceilZ levels)
    (fun y x =>
       for_range (Z.max 0 (y - _)) (Z.min (height c - 1) (y + _) + 1) _
         (fun sy b =>
            for_range (Z.max 0 (x - _)) (Z.min (width c - 1) (x + _) + 1) _
              (fun sx b => addToBin b _ _ _ _) b)
         (emptyBins _)) Hwf).
Qed.

Lemma applyPaletteKnife_alpha (c : Canvas) (strokeLen direction : float) :
  wf_canvas c -> same_alpha c (applyPaletteKnife c strokeLen direction).
Proof.
  intros Hwf. unfold applyPaletteKnife. cbn zeta. apply alpha_kept_same_alpha.
  apply (writeMode_loop_alpha c 6
    (fun y x => fold_left _ (knifeSamples strokeLen direction) (emptyBins 6)) Hwf).
Qed.

Lemma applyTextureFilter_alpha (c : Canvas) (mode intensity : float) (rng : nat) :
  wf_canvas c -> same_alpha c (fst (applyTextureFilter c mode intensity rng)).
Proof.
  intros Hwf. pose proof Hwf as (_ & _ & _ & Hb). fold (bytes (data c)) in Hb.
  unfold applyTextureFilter.
  destruct (mode =? 0)%float; [apply same_alpha_refl|]. cbn zeta.
  assert (Hfst : forall (st : list Z * nat),
            fst (let '(out, rng) := st in (putImageData c out, rng))
            = putImageData c (fst st)) by (by intros []).
  rewrite Hfst. apply alpha_kept_same_alpha.
  pose proof (alpha_kept_refl (data c)) as H1.
  destruct (mode =? 1)%float; [by apply textureCanvas_alpha|].
  destruct (mode =? 2)%float; [by apply textureWatercolor_alpha|].
  destruct (mode =? 3)%float; [by apply textureCrayon_alpha|].
  destruct (mode =? 4)%float; [by apply textureImpasto_alpha|].
  destruct (mode =? 5)%float; [by apply textureCrosshatch_alpha|].
  destruct (mode =? 6)%float; [by apply textureStipple_alpha|done].
Qed.

Lemma applyFacet_alpha (c : Canvas) (mode size : float) (rng : nat) :
  same_alpha c (fst (applyFacet c mode size rng)).
Proof.
  unfold applyFacet. cbn zeta.
  assert (Hfst : forall (st : list Z * nat),
            fst (let '(out, rng) := st in (putImageData c out, rng))
            = putImageData c (fst st)) by (by intros []).
  rewrite Hfst. apply alpha_kept_same_alpha.
  pose proof (alpha_kept_refl (data c)) as H1.
  destruct (mode =? 1)%float; [by apply facetRects_alpha|].
  destruct (mode =? 2)%float; [by apply facetTriangles_alpha|].
  destruct (mode =? 3)%float; [by apply facetVoronoi_alpha|].
  destruct (mode =? 4)%float; [by apply facetDiamonds_alpha|done].
Qed.

End AlphaFrame.

(** C2 (amended).  On a well-formed buffer and with valid parameters (a
    blur radius below [2^53], oil-paint levels and a facet size between 0
    and 65536), brightness/contrast, hue/saturation, the box blur (blur
    type 2), noise, posterize, invert, levels, oil paint, metal, palette
    knife, texture and facet return a buffer of the same size whose alpha
    byte at every pixel is the input's.  Of the blurs only the box blur
    is in the list: the Gaussian blur (type 1) convolves the alpha channel
    with the colour channels, and the motion and radial blurs (types 3
    and 4) redraw the canvas from translucent copies of itself. *)
Theorem filters_keep_alpha `{JSMath} `{Canvas2D} (c : Canvas)
    (brightness contrast hueShift satShift tempShift : float)
    (radius angle noiseType amount density : float)
    (posterLevels black white gamma : float) (mono : bool)
    (oilRadius oilLevels intensity strokeLen direction : float)
    (textureMode textureIntensity facetMode facetSize : float) (rng : nat) :
  wf_canvas c ->
  (9007199254740992 <=? radius)%float = false ->
  (0 <=? oilLevels)%float = true -> (oilLevels <=? 65536)%float = true ->
  (0 <=? facetSize)%float = true -> (facetSize <=? 65536)%float = true ->
  same_alpha c (applyBrightnessContrast c brightness contrast) /\
  same_alpha c (applyHueSatTemp c hueShift satShift tempShift) /\
  same_alpha c (applyNewBlur c 2 radius angle) /\
  same_alpha c (fst (applyNewNoise c noiseType amount density rng)) /\
  same_alpha c (applyPosterize c posterLevels) /\
  same_alpha c (applyInvert c) /\
  same_alpha c (applyLevels c black white gamma mono) /\
  same_alpha c (applyOilPaint c oilRadius oilLevels) /\
  same_alpha c (applyMetal c intensity) /\
  same_alpha c (applyPaletteKnife c strokeLen direction) /\
  same_alpha c (fst (applyTextureFilter c textureMode textureIntensity rng)) /\
  same_alpha c (fst (applyFacet c facetMode facetSize rng)).
Proof.
  intros Hwf _ _ _ _ _.
  split; [rewrite applyBrightnessContrast_map; apply colourMapped_same_alpha|].
  split; [rewrite applyHueSatTemp_map; apply colourMapped_same_alpha|].
  split; [apply applyNewBlur_box_alpha|].
  split; [apply applyNewNoise_alpha|].
  split; [rewrite applyPosterize_map; apply colourMapped_same_alpha|].
  split; [rewrite applyInvert_map; apply colourMapped_same_alpha|].
  split; [rewrite applyLevels_map; apply colourMapped_same_alpha|].
  split; [by apply applyOilPaint_alpha|].
  split; [apply applyMetal_alpha|].
  split; [by apply applyPaletteKnife_alpha|].
  split; [by apply applyTextureFilter_alpha|apply applyFacet_alpha].
Qed.

Lemma filters_keep_alpha_witness :
  same_alpha dot5x5 (applyNewBlur (H := RefMath) (H0 := RefCanvas2D) dot5x5 2 3 0) /\
  same_alpha dot5x5 (applyOilPaint dot5x5 2 8) /\
  same_alpha dot5x5 (fst (applyFacet (H := RefMath) dot5x5 1 3 0)).
Proof.
  destruct (filters_keep_alpha (H := RefMath) (H0 := RefCanvas2D) dot5x5
              50 0 30 0 0 3 0 1 20 50 4 0 255 1 false 2 8 50 4 45 4 1 1 3 0)
    as (_ & _ & Hblur & _ & _ & _ & _ & Hoil & _ & _ & _ & Hfacet).
  - apply wf_canvasb_spec. vm_compute. reflexivity.
  - reflexivity.
  - reflexivity.
  - reflexivity.
  - reflexivity.
  - reflexivity.
  - split; [exact Hblur|]. split; [exact Hoil|exact Hfacet].
Defined.

(** C2 as stated fails for the Gaussian blur: on the 5x5 buffer whose
    only opaque pixel is the centre, blur type 1 with radius 1 lowers the
    alpha of the centre from 255 to 41 and raises that of the pixel above
    it from 0 to 25. *)
Lemma gauss_blur_alpha_counterexample :
  byte_at (data dot5x5) (4 * 12 + 3) = Some 255 /\
  byte_at (data (applyNewBlur (H := RefMath) (H0 := RefCanvas2D) dot5x5 1 1 0))
    (4 * 12 + 3) = Some 41 /\
  byte_at (data dot5x5) (4 * 7 + 3) = Some 0 /\
  byte_at (data (applyNewBlur (H := RefMath) (H0 := RefCanvas2D) dot5x5 1 1 0))
    (4 * 7 + 3) = Some 25.
Proof. vm_compute. repeat split. Qed.
